(** * rag-toolkit: the text chunking library ([src/lib/chunking.ts]) and the
      retrieval ranker ([src/app/home/page.tsx]), embedded in Rocq.

    Conventions of the embedding.
    - A JavaScript string is the list of its UTF-16 code units ([JS.string]);
      [String.length] is the length of that list.
    - The numeric options ([chunkSize], [overlap], [maxChunks]) and all
      counters are integers ([Z]); an absent option is [None].  Where the
      source divides two integers and compares or rounds the quotient, the
      exact integer arithmetic is written out (the quotients involved are far
      below 2^53, where the double result decides the same way).
    - Embedding vectors and similarities are IEEE-754 doubles ([float]).
    - A [for] loop whose step the source does not keep positive takes fuel and
      returns [None] when the fuel runs out. *)

From Stdlib Require Import String.
From Stdlib Require Import ZArith List Bool Lia Ascii PrimFloat Floats Uint63.
From Stdlib Require DecimalString.
Import ListNotations.

#[local] Open Scope Z_scope.
#[local] Open Scope list_scope.

(* ------------------------------------------------------------------ *)
(** ** JavaScript strings and arrays *)

Module JS.

Definition string := list N.

Definition str (s : String.string) : string :=
  map N_of_ascii (String.list_ascii_of_string s).
Arguments str s%_string.

Definition ch (a : ascii) : N := N_of_ascii a.
Arguments ch a%_char.

Definition len {A} (l : list A) : Z := Z.of_nat (length l).

Definition string_eqb (a b : string) : bool :=
  if list_eq_dec N.eq_dec a b then true else false.

(** [Boolean(s)] for a string: the empty string is falsy. *)
Definition truthy (s : string) : bool := negb (string_eqb s []).

(** [Array.prototype.slice(start, end)]: negative indices count from the end. *)
Definition relIndex (n i : Z) : Z :=
  if i <? 0 then Z.max (n + i) 0 else Z.min i n.

Definition slice {A} (l : list A) (s e : Z) : list A :=
  let k := relIndex (len l) s in
  let f := relIndex (len l) e in
  firstn (Z.to_nat (f - k)) (skipn (Z.to_nat k) l).

(** [slice(-n)]: from a start index to the end of the array. *)
Definition sliceFrom {A} (l : list A) (s : Z) : list A :=
  skipn (Z.to_nat (relIndex (len l) s)) l.

(** [String.prototype.substring(start, end)]: both indices are clamped to
    [0, length] and swapped when start > end. *)
Definition clampIndex (n i : Z) : Z := Z.min (Z.max i 0) n.

Definition substring (t : string) (s e : Z) : string :=
  let a := clampIndex (len t) s in
  let b := clampIndex (len t) e in
  firstn (Z.to_nat (Z.max a b - Z.min a b)) (skipn (Z.to_nat (Z.min a b)) t).

Definition substringFrom (t : string) (s : Z) : string := substring t s (len t).

(** [Array.prototype.join(sep)] on an array of strings. *)
Fixpoint join (sep : string) (l : list string) : string :=
  match l with
  | [] => []
  | [x] => x
  | x :: rest => x ++ sep ++ join sep rest
  end.

Fixpoint isPrefix (p s : string) : bool :=
  match p, s with
  | [], _ => true
  | a :: p', b :: s' => N.eqb a b && isPrefix p' s'
  | _ :: _, [] => false
  end.

Definition endsWith (s suffix : string) : bool := isPrefix (rev suffix) (rev s).

(** [String.prototype.includes]. *)
Fixpoint includes (s p : string) : bool :=
  isPrefix p s || match s with [] => false | _ :: s' => includes s' p end.

(** Code units that [\s] and [trim] treat as white space. *)
Definition isSpace (c : N) : bool :=
  ((9 <=? c) && (c <=? 13) || (c =? 32) || (c =? 160) || (c =? 5760)
   || ((8192 <=? c) && (c <=? 8202)) || (c =? 8232) || (c =? 8233)
   || (c =? 8239) || (c =? 8287) || (c =? 12288) || (c =? 65279))%N.

Definition isLineTerminator (c : N) : bool :=
  ((c =? 10) || (c =? 13) || (c =? 8232) || (c =? 8233))%N.

Definition isDigit (c : N) : bool := ((48 <=? c) && (c <=? 57))%N.
Definition isUpper (c : N) : bool := ((65 <=? c) && (c <=? 90))%N.
Definition isLower (c : N) : bool := ((97 <=? c) && (c <=? 122))%N.
(** [\w] *)
Definition isWord (c : N) : bool := isUpper c || isLower c || isDigit c || (c =? 95)%N.

Fixpoint dropWhile {A} (p : A -> bool) (l : list A) : list A :=
  match l with
  | [] => []
  | x :: r => if p x then dropWhile p r else l
  end.

Definition trimStart (t : string) : string := dropWhile isSpace t.
Definition trimEnd (t : string) : string := rev (dropWhile isSpace (rev t)).
Definition trim (t : string) : string := trimEnd (trimStart t).

(** Decimal rendering of an integer, as in a template literal. *)
Definition showZ (z : Z) : string :=
  str (DecimalString.NilZero.string_of_int (Z.to_int z)).

(** [Math.ceil(a / b)] for integers with [b > 0]. *)
Definition ceilDiv (a b : Z) : Z := - ((- a) / b).

(** [Math.round(a / b)] for integers with [b > 0]: ties go up. *)
Definition roundDiv (a b : Z) : Z := (2 * a + b) / (2 * b).

End JS.
Import JS.

(* ------------------------------------------------------------------ *)
(** ** Regular expressions

    A backtracking matcher for the fragment of ECMAScript regular expressions
    the library uses (no [u] flag, so everything works on code units).  A
    position in the subject is the pair of the reversed text before it and
    the text from it on. *)

Module Regex.

Inductive re : Type :=
| Eps
| Chr (p : N -> bool)          (* one code unit: a literal, a class, [.] *)
| Seq (a b : re)
| Alt (a b : re)
| Star (a : re)                (* greedy [a*] *)
| LazyStar (a : re)            (* [a*?] *)
| Ahead (a : re)               (* [(?=a)] *)
| Behind (a : re)              (* [(?<=a)] *)
| NotBehind (a : re)           (* [(?<!a)] *)
| WordB                        (* [\b] *)
| Bol (multiline : bool)       (* [^] *)
| Eol.                         (* [$], no [m] flag *)

Definition lit1 (c : N) : re := Chr (N.eqb c).
Definition c1 (a : ascii) : re := lit1 (ch a).
Arguments c1 a%_char.
Fixpoint lit (s : string) : re :=
  match s with
  | [] => Eps
  | [c] => lit1 c
  | c :: r => Seq (lit1 c) (lit r)
  end.
Definition lits (s : String.string) : re := lit (str s).
Definition oneOf (s : String.string) : re := Chr (fun c => existsb (N.eqb c) (str s)).
Arguments lits s%_string.
Arguments oneOf s%_string.
Definition Plus (a : re) : re := Seq a (Star a).
Definition Opt (a : re) : re := Alt a Eps.
Fixpoint alts (l : list re) : re :=
  match l with
  | [] => Chr (fun _ => false)
  | [a] => a
  | a :: r => Alt a (alts r)
  end.
Fixpoint seqs (l : list re) : re :=
  match l with
  | [] => Eps
  | [a] => a
  | a :: r => Seq a (seqs r)
  end.
(** [a{n,}] *)
Fixpoint AtLeast (n : nat) (a : re) : re :=
  match n with O => Star a | S k => Seq a (AtLeast k a) end.
(** [a{0,n}], greedy *)
Fixpoint UpTo (n : nat) (a : re) : re :=
  match n with O => Eps | S k => Opt (Seq a (UpTo k a)) end.
(** [a{lo,lo+extra}] *)
Fixpoint Between (lo extra : nat) (a : re) : re :=
  match lo with O => UpTo extra a | S k => Seq a (Between k extra a) end.

Definition space : re := Chr isSpace.                   (* \s *)
Definition word : re := Chr isWord.                     (* \w *)
Definition digit : re := Chr isDigit.                   (* \d *)
Definition upper : re := Chr isUpper.                   (* [A-Z] *)
Definition dot : re := Chr (fun c => negb (isLineTerminator c)).
Definition anyChar : re := Chr (fun _ => true).         (* [\s\S] *)

Definition headIs (p : N -> bool) (l : string) : bool :=
  match l with c :: _ => p c | [] => false end.

(** Move [n] code units from before the position back after it. *)
Fixpoint rewind (n : nat) (b s : string) : string * string :=
  match n, b with
  | S k, c :: b' => rewind k b' (c :: s)
  | _, _ => (b, s)
  end.

Definition orElse {A} (x : option A) (y : option A) : option A :=
  match x with Some _ => x | None => y end.

(** [run r b s k]: match [r] at the position [(b, s)] and hand the position
    reached to the continuation [k]; alternatives are tried in the order of
    the backtracking semantics. *)
Fixpoint run (A : Type) (r : re) (b s : string)
    (k : string -> string -> option A) {struct r} : option A :=
  match r with
  | Eps => k b s
  | Chr p => match s with
             | c :: s' => if p c then k (c :: b) s' else None
             | [] => None
             end
  | Seq x y => run A x b s (fun b' s' => run A y b' s' k)
  | Alt x y => orElse (run A x b s k) (run A y b s k)
  | Star x =>
      (fix star (fuel : nat) (b s : string) {struct fuel} : option A :=
         match fuel with
         | O => k b s
         | S f =>
             orElse
               (run A x b s (fun b' s' =>
                  if (length s' <? length s)%nat then star f b' s' else None))
               (k b s)
         end) (length s) b s
  | LazyStar x =>
      (fix star (fuel : nat) (b s : string) {struct fuel} : option A :=
         match fuel with
         | O => k b s
         | S f =>
             orElse
               (k b s)
               (run A x b s (fun b' s' =>
                  if (length s' <? length s)%nat then star f b' s' else None))
         end) (length s) b s
  | Ahead x =>
      match run unit x b s (fun _ _ => Some tt) with
      | Some _ => k b s
      | None => None
      end
  | Behind x =>
      if existsb (fun n =>
           let '(b0, s0) := rewind n b s in
           match run unit x b0 s0
                   (fun _ s' => if (length s' =? length s)%nat then Some tt else None)
           with Some _ => true | None => false end)
           (seq 0 (S (length b)))
      then k b s else None
  | NotBehind x =>
      if existsb (fun n =>
           let '(b0, s0) := rewind n b s in
           match run unit x b0 s0
                   (fun _ s' => if (length s' =? length s)%nat then Some tt else None)
           with Some _ => true | None => false end)
           (seq 0 (S (length b)))
      then None else k b s
  | WordB => if xorb (headIs isWord b) (headIs isWord s) then k b s else None
  | Bol m =>
      match b with
      | [] => k b s
      | c :: _ => if m && isLineTerminator c then k b s else None
      end
  | Eol => match s with [] => k b s | _ :: _ => None end
  end.

(** Length of the match of [r] at a position, if there is one. *)
Definition matchAt (r : re) (b s : string) : option nat :=
  run nat r b s (fun _ s' => Some (length s - length s')%nat).

(** All matches of a global regex, as (index, length) pairs:
    [String.prototype.matchAll] and [match] with the [g] flag.  After an
    empty match the search resumes one code unit further. *)
Fixpoint matchesFrom (r : re) (skip : nat) (q : nat) (b s : string) : list (nat * nat) :=
  match skip, s with
  | S k, c :: s' => matchesFrom r k (S q) (c :: b) s'
  | S _, [] => []
  | O, [] => match matchAt r b [] with Some n => [(q, n)] | None => [] end
  | O, c :: s' =>
      match matchAt r b s with
      | Some n => (q, n) :: matchesFrom r (Nat.pred n) (S q) (c :: b) s'
      | None => matchesFrom r 0 (S q) (c :: b) s'
      end
  end.

Definition matchAll (r : re) (t : string) : list (nat * nat) := matchesFrom r 0 0 [] t.

(** [regex.test(t)] *)
Definition test (r : re) (t : string) : bool :=
  match matchAll r t with [] => false | _ :: _ => true end.

(** [t.split(regex)] for a regex without capture groups.  [cur] is the
    reversed piece under construction; a match is only looked for before the
    end of the subject, and an empty match at the start of a piece is passed
    over. *)
Fixpoint splitFrom (r : re) (skip : nat) (cur b s : string) : list string :=
  match s with
  | [] => [rev cur]
  | c :: s' =>
      match skip with
      | S k => splitFrom r k cur (c :: b) s'
      | O =>
          match matchAt r b s with
          | Some (S n) => rev cur :: splitFrom r n [] (c :: b) s'
          | Some O =>
              match cur with
              | [] => splitFrom r 0 [c] (c :: b) s'
              | _ :: _ => rev cur :: splitFrom r 0 [c] (c :: b) s'
              end
          | None => splitFrom r 0 (c :: cur) (c :: b) s'
          end
      end
  end.

Definition split (r : re) (t : string) : list string := splitFrom r 0 [] [] t.

(** [t.replace(regex_g, f)] where [f] maps the matched text to its
    replacement. *)
Fixpoint replaceFrom (r : re) (f : string -> string) (skip : nat) (b s : string) : string :=
  match s with
  | [] => match skip with
          | O => match matchAt r b [] with Some _ => f [] | None => [] end
          | S _ => []
          end
  | c :: s' =>
      match skip with
      | S k => replaceFrom r f k (c :: b) s'
      | O =>
          match matchAt r b s with
          | Some (S n) => f (firstn (S n) s) ++ replaceFrom r f n (c :: b) s'
          | Some O => f [] ++ c :: replaceFrom r f 0 (c :: b) s'
          | None => c :: replaceFrom r f 0 (c :: b) s'
          end
      end
  end.

Definition replaceAll (r : re) (f : string -> string) (t : string) : string :=
  replaceFrom r f 0 [] t.

End Regex.

(* ------------------------------------------------------------------ *)
(** ** Doubles

    The places where the source leaves integer arithmetic: the 0.2 factor of
    the break-point search, the variance of the strategy selector, and the
    embedding vectors. *)

Module Num.

(** An integer of magnitude below 2^63 as a double (exact below 2^53). *)
Definition ofZ (z : Z) : float :=
  if z <? 0 then PrimFloat.opp (PrimFloat.of_uint63 (Uint63.of_Z (- z)))
  else PrimFloat.of_uint63 (Uint63.of_Z z).

(** [Math.ceil] of a finite double (0 for NaN and the infinities, which the
    callers below never produce). *)
Definition ceil (f : float) : Z :=
  match Prim2SF f with
  | SpecFloat.S754_finite s m e =>
      let v := if s then Z.neg m else Z.pos m in
      if 0 <=? e then v * 2 ^ e else - ((- v) / 2 ^ (- e))
  | _ => 0
  end.

(** [Math.round] of a finite double: the nearest integer, ties upwards. *)
Definition round (f : float) : Z :=
  match Prim2SF f with
  | SpecFloat.S754_finite s m e =>
      let v := if s then Z.neg m else Z.pos m in
      if 0 <=? e then v * 2 ^ e else (2 * v + 2 ^ (- e)) / 2 ^ (- e + 1)
  | _ => 0
  end.

Definition isNaN (f : float) : bool := negb (PrimFloat.eqb f f).

End Num.

(* ------------------------------------------------------------------ *)
(** ** Data model *)

Inductive ChunkingMode := tokensMode | charactersMode.

Definition modeName (m : ChunkingMode) : string :=
  match m with tokensMode => str "tokens" | charactersMode => str "characters" end.

Record ChunkingOptions := mkOptions {
  chunkSize : option Z;
  overlap : option Z;
  separator : option string;
  maxChunks : option Z;
  apiKey : option string;
  chunkingMode : option ChunkingMode;
  customSeparators : option (list string)
}.

(** [{}] *)
Definition noOptions : ChunkingOptions :=
  mkOptions None None None None None None None.

Record Chunk := mkChunk {
  id : Z;
  text : string;
  tokens : Z;
  characters : Z
}.

Record AverageChunkSize := mkAverage {
  avgTokens : Z;
  avgCharacters : Z
}.

Record Analysis := mkAnalysis {
  totalChunks : Z;
  averageChunkSize : AverageChunkSize;
  notes : string
}.

Record ChunkingResult := mkResult {
  chunks : list Chunk;
  analysis : Analysis
}.

(** A destructuring default: [const { x = d } = options]. *)
Definition orDefault {A} (d : A) (o : option A) : A :=
  match o with Some x => x | None => d end.

(** [options.x || d] for a number: 0 and [undefined] are falsy. *)
Definition orIfFalsy (d : Z) (o : option Z) : Z :=
  match o with Some 0 | None => d | Some x => x end.

Definition isMode (m : ChunkingMode) (o : option ChunkingMode) : bool :=
  match o, m with
  | Some tokensMode, tokensMode | Some charactersMode, charactersMode => true
  | _, _ => false
  end.

(** Template-literal fragments: [${c ? s : ''}]. *)
Definition whenT (c : bool) (s : string) : string := if c then s else [].

(* ------------------------------------------------------------------ *)
(** ** Loops *)

Inductive Ctl (S : Type) : Type :=
| Break (s : S)
| Next (s : S).
Arguments Break {S} s.
Arguments Next {S} s.

(** [for (let i = i0; i < n; i += step) body]: [None] when the fuel is used
    up before the loop ends. *)
Fixpoint forLoop {S} (fuel : nat) (n step : Z) (body : Z -> S -> Ctl S)
    (i : Z) (s : S) : option S :=
  match fuel with
  | O => None
  | Datatypes.S f =>
      if i <? n then
        match body i s with
        | Break s' => Some s'
        | Next s' => forLoop f n step body (i + step) s'
        end
      else Some s
  end.

(** A loop whose step the source keeps at 1 or more ends within [n]
    iterations ([forLoopUpTo_runs] below); this runs it with that much fuel. *)
Definition forLoopUpTo {S} (n step : Z) (body : Z -> S -> Ctl S) (s : S) : S :=
  orDefault s (forLoop (Datatypes.S (Z.to_nat n)) n step body 0 s).

(* ------------------------------------------------------------------ *)
(** ** Tokenizer and metrics *)

Definition tokenize (t : string) : list string :=
  filter truthy (Regex.split (Regex.Plus Regex.space) t).

Definition countTokens (t : string) : Z := len (tokenize t).

Definition sumOf (f : Chunk -> Z) (l : list Chunk) : Z :=
  fold_left (fun sum chunk => sum + f chunk) l 0.

(** The analysis block every strategy builds from its chunk array. *)
Definition analyse (chunks : list Chunk) (notes : string) : Analysis :=
  let totalTokens := sumOf tokens chunks in
  let totalCharacters := sumOf characters chunks in
  mkAnalysis (len chunks)
    (mkAverage
       (if len chunks >? 0 then roundDiv totalTokens (len chunks) else 0)
       (if len chunks >? 0 then roundDiv totalCharacters (len chunks) else 0))
    notes.

(** [chunks.push({ id: chunks.length, text, tokens: countTokens(text),
    characters: text.length })] *)
Definition pushText (chunks : list Chunk) (t : string) : list Chunk :=
  chunks ++ [mkChunk (len chunks) t (countTokens t) (len t)].

(* ------------------------------------------------------------------ *)
(** ** Regular expressions of the library *)

Module Pat.
Import Regex.

Definition LF : N := 10.
Definition CR : N := 13.
Definition nl : re := lit1 LF.

(** [/\n\s*\n/] *)
Definition blankLine : re := seqs [nl; Star space; nl].

(** The abbreviations of the sentence regex. *)
Definition abbreviation : re :=
  alts (map lit (map str
    ["Mr"; "Mrs"; "Ms"; "Dr"; "Prof"; "Rev"; "Col"; "Gen"; "Lt"; "Cmdr"; "Sgt";
     "Capt"; "Maj"; "Sen"; "Rep"; "Hon"; "etc"; "vs"; "i.e"; "e.g"]%string)).

(** [. ? !] and their full-width forms U+3002, U+FF1F, U+FF01. *)
Definition isTerminal (c : N) : bool :=
  existsb (N.eqb c) (str ".?!" ++ [12290; 65311; 65281]%N).

(** [/(?<!\b(?:Mr|...|e\.g)\.)(?<!\w\.\w.)(?<=\.|\?|!|U+3002|U+FF1F|U+FF01)(?:\s+|$)(?=[A-Z#'([{<]|\s*$)/g],
    where # stands for the double quote (code unit 34). *)
Definition sentenceRegex : re :=
  seqs [NotBehind (seqs [WordB; abbreviation; c1 "."]);
        NotBehind (seqs [word; c1 "."; word; dot]);
        Behind (Chr isTerminal);
        Alt (Plus space) Eol;
        Ahead (Alt (Chr (fun c => isUpper c || existsb (N.eqb c) (34%N :: str "'([{<")))
                   (Seq (Star space) Eol))].

(** [/[.!?U+3002U+FF1FU+FF01]/] *)
Definition terminalPunctuation : re := Chr isTerminal.

(** [/(\b(?:Mr|Mrs|Ms|Dr|Prof)\.\s+)([A-Z])/g] *)
Definition titleBeforeName : re :=
  seqs [WordB; alts (map lit (map str ["Mr"; "Mrs"; "Ms"; "Dr"; "Prof"]%string));
        c1 "."; Plus space; upper].

(** [/(\d+\.\d+)/g] *)
Definition decimalNumber : re := seqs [Plus digit; c1 "."; Plus digit].

(** The four paragraph separators of [paragraphBasedChunking], joined by [|]:
    [/\n\s*\n|\r\n\s*\r\n|\n\s*[-_*]{3,}\s*\n|\n\s*#{1,6}\s+/g] *)
Definition combinedSeparator : re :=
  alts [seqs [nl; Star space; nl];
        seqs [lit1 CR; nl; Star space; lit1 CR; nl];
        seqs [nl; Star space; AtLeast 3 (oneOf "-_*"); Star space; nl];
        seqs [nl; Star space; Between 1 5 (c1 "#"); Plus space]].

(** Break points of [findBreakPoint]. *)
Definition sentenceBreak : re := Seq (oneOf ".!?") (Plus space).   (* /[.!?]\s+/g *)
Definition paragraphBreak : re := blankLine.                        (* /\n\s*\n/g *)
Definition lineBreak : re := nl.                                    (* /\n/g *)
Definition wordBreak : re := Plus space.                            (* /\s+/g *)

(** Line patterns of the heuristic splitter. *)
Definition headerLine : re := seqs [Bol false; Between 1 5 (c1 "#"); Plus space]. (* /^#{1,6}\s+/ *)
Definition ruleLine : re :=
  seqs [Bol false; AtLeast 3 (oneOf "-_*"); Star space; Eol].      (* /^[-_*]{3,}\s*$/ *)
Definition numberedLine : re :=
  seqs [Bol false; Star space; c1 "1"; c1 "."; Plus space].        (* /^\s*1\.\s+/ *)

(** Content tests of the strategy selector. *)
Definition codeKeywords : list string :=
  map str ["function"; "class"; "def"; "var"; "const"; "let"; "import"; "from";
           "public"; "private"]%string.
(** [/```[\s\S]*?```|`[\s\S]*?`|\b(function|class|...|private)\b/] *)
Definition codeRegex : re :=
  alts [seqs [lits "```"; LazyStar anyChar; lits "```"];
        seqs [c1 "`"; LazyStar anyChar; c1 "`"];
        seqs [WordB; alts (map lit codeKeywords); WordB]].
(** [/^\s*[-*+]\s+|\b\d+\.\s+/m] *)
Definition listRegex : re :=
  alts [seqs [Bol true; Star space; oneOf "-*+"; Plus space];
        seqs [WordB; Plus digit; c1 "."; Plus space]].
(** [/^#+\s+/m] *)
Definition headersRegex : re := seqs [Bol true; Plus (c1 "#"); Plus space].

End Pat.

(* ------------------------------------------------------------------ *)
(** ** Fixed-length chunking with boundary snapping
       ([fixedLengthCharsChunking]) *)

Definition lastOf {A} (l : list A) : option A :=
  match rev l with x :: _ => Some x | [] => None end.

(** [findBreakPoint]: the position after the last sentence, paragraph, line
    or word break within the last 20% of the window. *)
Definition findBreakPoint (effectiveChunkSize : Z) (t : string) (targetPos : Z) : Z :=
  let searchRange :=
    Z.min targetPos (Num.ceil (PrimFloat.mul (Num.ofZ effectiveChunkSize) 0x1.999999999999ap-3%float)) in
  let minPos := targetPos - searchRange in
  let searchText := substring t minPos targetPos in
  let after (r : Regex.re) : option Z :=
    match lastOf (Regex.matchAll r searchText) with
    | Some (index, length) => Some (minPos + Z.of_nat index + Z.of_nat length)
    | None => None
    end in
  match after Pat.sentenceBreak with
  | Some p => p
  | None =>
  match after Pat.paragraphBreak with
  | Some p => p
  | None =>
  match after Pat.lineBreak with
  | Some p => p
  | None =>
  match after Pat.wordBreak with
  | Some p => p
  | None => targetPos
  end end end end.

Definition fixedLengthCharsChunking (t : string) (options : ChunkingOptions) : ChunkingResult :=
  let chunkSize := orDefault 500 (chunkSize options) in
  let overlap := orDefault 50 (overlap options) in
  let maxChunks := orDefault 0 (maxChunks options) in
  let separator := orDefault [] (separator options) in
  let effectiveChunkSize := Z.max 10 chunkSize in
  let effectiveOverlap := Z.min (effectiveChunkSize - 1) (Z.max 0 overlap) in
  let step := effectiveChunkSize - effectiveOverlap in
  let chunks :=
    forLoopUpTo (len t) step (fun i chunks =>
      let endPos := Z.min (i + effectiveChunkSize) (len t) in
      let endPos := if endPos <? len t then findBreakPoint effectiveChunkSize t endPos else endPos in
      let chunkText := substring t i endPos in
      if (len chunkText * 4 <? effectiveChunkSize) && (len chunks >? 0) then Break chunks
      else
        let finalChunkText := if truthy separator then chunkText ++ separator else chunkText in
        let chunks := pushText chunks finalChunkText in
        if (maxChunks >? 0) && (len chunks >=? maxChunks) then Break chunks
        else Next chunks) [] in
  mkResult chunks
    (analyse chunks
       (str "Text was divided into " ++ showZ (len chunks)
        ++ str " chunks of approximately " ++ showZ effectiveChunkSize
        ++ str " characters each"
        ++ whenT (effectiveOverlap >? 0)
             (str " with " ++ showZ effectiveOverlap
              ++ str " characters of overlap between consecutive chunks")
        ++ str ". Smart boundary detection was used to preserve natural text breaks.")).

(* ------------------------------------------------------------------ *)
(** ** Fixed-length chunking ([fixedLengthChunking]) *)

(** [overlap > 0 ? chunkSize - overlap : chunkSize] *)
Definition plainStep (chunkSize overlap : Z) : Z :=
  if overlap >? 0 then chunkSize - overlap else chunkSize.

Definition fixedLengthChunking (fuel : nat) (t : string) (options : ChunkingOptions)
    : option ChunkingResult :=
  let chunkSize := orDefault 100 (chunkSize options) in
  let overlap := orDefault 0 (overlap options) in
  let chunkingMode := chunkingMode options in
  let isCharacterBased :=
    isMode charactersMode chunkingMode
    || (negb (isMode tokensMode chunkingMode) && (chunkSize >? 200)) in
  if isCharacterBased then
    if isMode charactersMode chunkingMode then Some (fixedLengthCharsChunking t options)
    else
      let step := plainStep chunkSize overlap in
      match
        forLoop fuel (len t) step (fun i chunks =>
          let chunkText := substring t i (i + chunkSize) in
          if (len chunkText * 4 <? chunkSize) && (len chunks >? 0) then Break chunks
          else Next (pushText chunks chunkText)) 0 []
      with
      | None => None
      | Some chunks =>
          Some (mkResult chunks
            (analyse chunks
               (str "Text was divided into " ++ showZ (len chunks)
                ++ str " chunks of approximately " ++ showZ chunkSize
                ++ str " characters each"
                ++ whenT (overlap >? 0)
                     (str " with " ++ showZ overlap
                      ++ str " characters of overlap between consecutive chunks")
                ++ str ".")))
      end
  else
    let tokens := tokenize t in
    let step := plainStep chunkSize overlap in
    match
      forLoop fuel (len tokens) step (fun i chunks =>
        let chunkTokens := slice tokens i (i + chunkSize) in
        if (len chunkTokens * 4 <? chunkSize) && (len chunks >? 0) then Break chunks
        else
          let chunkText := join (str " ") chunkTokens in
          Next (chunks ++ [mkChunk (len chunks) chunkText (len chunkTokens) (len chunkText)]))
        0 []
    with
    | None => None
    | Some chunks =>
        Some (mkResult chunks
          (analyse chunks
             (str "Text was divided into " ++ showZ (len chunks)
              ++ str " chunks of approximately " ++ showZ chunkSize
              ++ str " tokens each"
              ++ whenT (overlap >? 0)
                   (str " with " ++ showZ overlap
                    ++ str " tokens of overlap between consecutive chunks")
              ++ str ".")))
    end.

(* ------------------------------------------------------------------ *)
(** ** Sentence-based chunking ([sentenceBasedChunking]) *)

Definition PLACEHOLDER : string := str "_PLACEHOLDER_".
Definition DECIMAL : string := str "_DECIMAL_".

(** ['$1_PLACEHOLDER_$2']: group 2 is the last code unit of the match. *)
Definition insertPlaceholder (m : string) : string :=
  removelast m ++ PLACEHOLDER ++ match lastOf m with Some c => [c] | None => [] end.

Definition preprocessText (input : string) : string :=
  Regex.replaceAll Pat.decimalNumber (fun m => m ++ DECIMAL)
    (Regex.replaceAll Pat.titleBeforeName insertPlaceholder input).

Definition postprocessText (input : string) : string :=
  Regex.replaceAll (Regex.lit DECIMAL) (fun _ => [])
    (Regex.replaceAll (Regex.lit PLACEHOLDER) (fun _ => []) input).

(** The body of [paragraphs.forEach]: the sentences of one paragraph are
    appended to [allSentences]. *)
Definition addParagraphSentences (allSentences : list string) (paragraph : string)
    : list string :=
  if negb (Regex.test Pat.terminalPunctuation paragraph) then
    allSentences ++ [postprocessText paragraph]
  else
    let paragraphSentences :=
      filter truthy
        (map (fun s => postprocessText (trim s)) (Regex.split Pat.sentenceRegex paragraph)) in
    if len paragraphSentences =? 0 then allSentences ++ [postprocessText paragraph]
    else allSentences ++ paragraphSentences.

Definition splitSentences (t : string) : list string :=
  let processedText := preprocessText t in
  let paragraphs := filter truthy (Regex.split Pat.blankLine processedText) in
  let allSentences := fold_left addParagraphSentences paragraphs [] in
  if len allSentences =? 0 then [t] else allSentences.

Definition sentenceBasedChunking (fuel : nat) (t : string) (options : ChunkingOptions)
    : option ChunkingResult :=
  let chunkSize := orDefault 5 (chunkSize options) in
  let overlap := orDefault 0 (overlap options) in
  let maxChunks := orDefault 0 (maxChunks options) in
  let allSentences := splitSentences t in
  let step := plainStep chunkSize overlap in
  let maxSentences := if maxChunks >? 0 then maxChunks * chunkSize else len allSentences in
  let sentencesToProcess := slice allSentences 0 maxSentences in
  match
    forLoop fuel (len sentencesToProcess) step (fun i chunks =>
      let chunkSentences := slice sentencesToProcess i (i + chunkSize) in
      (* chunkSentences.length < Math.max(1, chunkSize / 4) *)
      if ((len chunkSentences <? 1) || (len chunkSentences * 4 <? chunkSize))
         && (len chunks >? 0) then Break chunks
      else Next (pushText chunks (join (str " ") chunkSentences))) 0 []
  with
  | None => None
  | Some chunks =>
      Some (mkResult chunks
        (analyse chunks
           (str "Text was split into " ++ showZ (len allSentences) ++ str " sentences"
            ++ whenT (overlap >? 0)
                 (str " with " ++ showZ overlap ++ str " sentences of overlap between chunks")
            ++ str ", then grouped into chunks of about " ++ showZ chunkSize
            ++ str " sentences each"
            ++ whenT (maxChunks >? 0)
                 (str ", limited to " ++ showZ maxChunks ++ str " chunks maximum")
            ++ str ".")))
  end.

(* ------------------------------------------------------------------ *)
(** ** Paragraph-based chunking ([paragraphBasedChunking]) *)

Definition splitParagraphs (t : string) : list string :=
  let paragraphs := filter truthy (map trim (Regex.split Pat.combinedSeparator t)) in
  if len paragraphs =? 0 then [t] else paragraphs.

Definition paragraphBasedChunking (t : string) (options : ChunkingOptions) : ChunkingResult :=
  let maxChunks := orDefault 0 (maxChunks options) in
  let overlap := orDefault 0 (overlap options) in
  let chunkSize := orDefault 0 (chunkSize options) in
  let paragraphs := splitParagraphs t in
  let paragraphsPerChunk := if chunkSize >? 0 then chunkSize else 3 in
  let adjustedParagraphsPerChunk :=
    if (maxChunks >? 0) && (len paragraphs >? maxChunks * paragraphsPerChunk)
    then ceilDiv (len paragraphs) maxChunks
    else paragraphsPerChunk in
  let step :=
    if overlap >? 0 then Z.max 1 (adjustedParagraphsPerChunk - overlap)
    else adjustedParagraphsPerChunk in
  let chunks :=
    forLoopUpTo (len paragraphs) step (fun i chunks =>
      let chunkParagraphs := slice paragraphs i (i + adjustedParagraphsPerChunk) in
      (* chunkParagraphs.length < Math.max(1, adjustedParagraphsPerChunk / 3) *)
      if ((len chunkParagraphs <? 1) || (len chunkParagraphs * 3 <? adjustedParagraphsPerChunk))
         && (len chunks >? 0) then Break chunks
      else
        let chunks := pushText chunks (join [Pat.LF; Pat.LF] chunkParagraphs) in
        if (maxChunks >? 0) && (len chunks >=? maxChunks) then Break chunks
        else Next chunks) [] in
  let notesText :=
    str "Text was split into " ++ showZ (len paragraphs) ++ str " paragraphs"
    ++ whenT (overlap >? 0)
         (str ", with " ++ showZ overlap ++ str " paragraphs of overlap between chunks")
    ++ whenT ((maxChunks >? 0) && (len chunks =? maxChunks))
         (str ", limited to " ++ showZ maxChunks ++ str " chunks maximum")
    ++ str ", resulting in " ++ showZ (len chunks) ++ str " chunks with approximately "
    ++ showZ adjustedParagraphsPerChunk ++ str " paragraphs per chunk." in
  mkResult chunks (analyse chunks notesText).

(* ------------------------------------------------------------------ *)
(** ** Sliding-window chunking ([slidingWindowChunking]) *)

(** The ceiling on the number of windows ([const maxChunks = 100]). *)
Definition windowLimit : Z := 100.

(** [Math.max(1, chunkSize - overlap)] *)
Definition windowStep (chunkSize overlap : Z) : Z := Z.max 1 (chunkSize - overlap).

(** [estimatedChunks > maxChunks ? Math.ceil(length / maxChunks) : step] *)
Definition adjustedStep (length step : Z) : Z :=
  let estimatedChunks := ceilDiv length step in
  if estimatedChunks >? windowLimit then ceilDiv length windowLimit else step.

Definition slidingWindowChunking (t : string) (options : ChunkingOptions) : ChunkingResult :=
  let chunkSize := orDefault 100 (chunkSize options) in
  let overlap := orDefault 50 (overlap options) in
  let isCharacterBased := chunkSize >? 200 in
  if isCharacterBased then
    let step := windowStep chunkSize overlap in
    let adjustedStep := adjustedStep (len t) step in
    let chunks :=
      forLoopUpTo (len t) adjustedStep (fun i chunks =>
        let end_ := Z.min (i + chunkSize) (len t) in
        let chunkText := substring t i end_ in
        if (len chunkText * 4 <? chunkSize) && (len chunks >? 0) then Break chunks
        else
          let chunks := pushText chunks chunkText in
          if len chunks >=? windowLimit then Break chunks else Next chunks) [] in
    mkResult chunks
      (analyse chunks
         (str "Sliding window created " ++ showZ (len chunks)
          ++ str " chunks with window size " ++ showZ chunkSize ++ str " characters and "
          ++ showZ overlap ++ str " characters of overlap (step size: "
          ++ showZ adjustedStep ++ str ")."))
  else
    let tokens := tokenize t in
    let step := windowStep chunkSize overlap in
    let adjustedStep := adjustedStep (len tokens) step in
    let chunks :=
      forLoopUpTo (len tokens) adjustedStep (fun i chunks =>
        let end_ := Z.min (i + chunkSize) (len tokens) in
        let windowTokens := slice tokens i end_ in
        if (len windowTokens * 4 <? chunkSize) && (len chunks >? 0) then Break chunks
        else
          let chunkText := join (str " ") windowTokens in
          let chunks := chunks ++ [mkChunk (len chunks) chunkText (len windowTokens) (len chunkText)] in
          if len chunks >=? windowLimit then Break chunks else Next chunks) [] in
    mkResult chunks
      (analyse chunks
         (str "Sliding window created " ++ showZ (len chunks)
          ++ str " chunks with window size " ++ showZ chunkSize ++ str " tokens and "
          ++ showZ overlap ++ str " tokens of overlap (step size: "
          ++ showZ adjustedStep ++ str ").")).

(* ------------------------------------------------------------------ *)
(** ** Heuristic structural splitter ([heuristicSemanticChunking]) *)

(** [t.split(separator)] for a string separator; the empty separator splits
    into code units. *)
Definition splitOn (separator : string) (t : string) : list string :=
  match separator with
  | [] => map (fun c => [c]) t
  | _ :: _ => Regex.split (Regex.lit separator) t
  end.

Definition isBlank (line : string) : bool := string_eqb (trim line) [].

(** The body of [lines.forEach((line, index) => ...)]. *)
Definition addBoundary (lines : list string) (semanticBoundaries : list Z)
    (index : Z) (line : string) : list Z :=
  if Regex.test Pat.headerLine line then semanticBoundaries ++ [index]
  else if Regex.test Pat.ruleLine line then semanticBoundaries ++ [index]
  else if Regex.test Pat.numberedLine line then semanticBoundaries ++ [index]
  else if isBlank line && (index >? 0) && (index <? len lines - 1) then
    if negb (isBlank (nth (Z.to_nat (index - 1)) lines []))
       && negb (isBlank (nth (Z.to_nat (index + 1)) lines []))
    then semanticBoundaries ++ [index]
    else semanticBoundaries
  else semanticBoundaries.

Fixpoint foldIndexed {A B} (f : B -> Z -> A -> B) (l : list A) (index : Z) (acc : B) : B :=
  match l with
  | [] => acc
  | x :: r => foldIndexed f r (index + 1) (f acc index x)
  end.

Definition findBoundaries (lines : list string) : list Z :=
  foldIndexed (addBoundary lines) lines 0 [0] ++ [len lines].

(** The loop over consecutive boundaries; spans of fewer than two lines are
    skipped. *)
Fixpoint spansOf (lines : list string) (boundaries : list Z) (rawChunks : list Chunk)
    : list Chunk :=
  match boundaries with
  | startLine :: ((endLine :: _) as rest) =>
      if endLine - startLine <? 2 then spansOf lines rest rawChunks
      else spansOf lines rest (pushText rawChunks (join [Pat.LF] (slice lines startLine endLine)))
  | _ => rawChunks
  end.

(** The body of [rawChunks.forEach] in the merge of small chunks; the state is
    the array [chunks] and the scratch value [currentChunk]. *)
Definition mergeSmall (st : list Chunk * option Chunk) (chunk : Chunk)
    : list Chunk * option Chunk :=
  match st with
  | (chunks, None) => (chunks, Some chunk)
  | (chunks, Some currentChunk) =>
      if tokens chunk <? 20 then
        (chunks,
         Some (mkChunk (id currentChunk)
                 (text currentChunk ++ [Pat.LF] ++ text chunk)
                 (tokens currentChunk + tokens chunk)
                 (characters currentChunk + (characters chunk + 1))))
      else (chunks ++ [currentChunk], Some chunk)
  end.

Definition flush (st : list Chunk * option Chunk) : list Chunk :=
  match st with
  | (chunks, Some currentChunk) => chunks ++ [currentChunk]
  | (chunks, None) => chunks
  end.

(** [chunks.forEach((chunk, index) => { chunk.id = index })] *)
Definition renumber (l : list Chunk) : list Chunk :=
  rev (foldIndexed (fun acc index c =>
         mkChunk index (text c) (tokens c) (characters c) :: acc) l 0 []).

Definition heuristicSemanticChunking (t : string) (options : ChunkingOptions) : ChunkingResult :=
  let maxChunks := orDefault 0 (maxChunks options) in
  let paragraphs := filter truthy (Regex.split Pat.blankLine t) in
  if len paragraphs <=? 1 then paragraphBasedChunking t options
  else
    let lines := splitOn [Pat.LF] t in
    let semanticBoundaries := findBoundaries lines in
    let rawChunks := spansOf lines semanticBoundaries [] in
    if len rawChunks =? 0 then paragraphBasedChunking t options
    else
      let chunks := flush (fold_left mergeSmall rawChunks ([], None)) in
      let finalChunks :=
        if (maxChunks >? 0) && (len chunks >? maxChunks) then slice chunks 0 maxChunks
        else chunks in
      let finalChunks := renumber finalChunks in
      mkResult finalChunks
        (analyse finalChunks
           (str "Semantic-like chunking identified " ++ showZ (len semanticBoundaries - 1)
            ++ str " potential section boundaries and created " ++ showZ (len finalChunks)
            ++ str " chunks based on document structure and content.")).

(* ------------------------------------------------------------------ *)
(** ** Hybrid chunking ([hybridChunking]) *)

(** [chunks.push({ id: chunks.length, text: c.text, tokens: c.tokens,
    characters: c.characters })] for every chunk of a sub-result. *)
Definition pushCopies (chunks : list Chunk) (sub : list Chunk) : list Chunk :=
  fold_left (fun chunks c =>
    chunks ++ [mkChunk (len chunks) (text c) (tokens c) (characters c)]) sub chunks.

(** The body of the merge loop over [chunks]. *)
Definition mergeWithin (maxTokensPerChunk : Z) (st : list Chunk * option Chunk) (chunk : Chunk)
    : list Chunk * option Chunk :=
  match st with
  | (mergedChunks, None) => (mergedChunks, Some chunk)
  | (mergedChunks, Some currentChunk) =>
      if tokens currentChunk + tokens chunk <=? maxTokensPerChunk then
        (mergedChunks,
         Some (mkChunk (id currentChunk)
                 (text currentChunk ++ [Pat.LF; Pat.LF] ++ text chunk)
                 (tokens currentChunk + tokens chunk)
                 (characters currentChunk + (characters chunk + 2))))
      else (mergedChunks ++ [currentChunk], Some chunk)
  end.

(** The body of [paragraphChunks.forEach]: a paragraph chunk is kept, split
    into sentences, or split by a sliding window, by its token count. *)
Definition addParagraph (fuel : nat) (maxTokensPerChunk overlap : Z)
    (acc : option (list Chunk)) (paragraph : Chunk) : option (list Chunk) :=
  match acc with
  | None => None
  | Some out =>
      if tokens paragraph <=? maxTokensPerChunk then
        Some (out ++ [mkChunk (len out) (text paragraph) (tokens paragraph)
                        (characters paragraph)])
      else if tokens paragraph <=? maxTokensPerChunk * 2 then
        let sentenceOptions :=
          mkOptions (Some (ceilDiv maxTokensPerChunk 10)) (Some (ceilDiv overlap 10))
            None None None None None in
        match sentenceBasedChunking fuel (text paragraph) sentenceOptions with
        | None => None
        | Some r => Some (pushCopies out (chunks r))
        end
      else
        let windowOptions :=
          mkOptions (Some maxTokensPerChunk) (Some overlap) None None None None None in
        Some (pushCopies out (chunks (slidingWindowChunking (text paragraph) windowOptions)))
  end.

Definition hybridChunking (fuel : nat) (t : string) (options : ChunkingOptions)
    : option ChunkingResult :=
  let maxTokensPerChunk := orIfFalsy 100 (chunkSize options) in
  let overlap := orIfFalsy 0 (overlap options) in
  let paragraphChunks := chunks (paragraphBasedChunking t noOptions) in
  let collected :=
    fold_left (addParagraph fuel maxTokensPerChunk overlap) paragraphChunks (Some []) in
  match collected with
  | None => None
  | Some chunks =>
      let chunks :=
        if len chunks >? 1 then
          renumber (flush (fold_left (mergeWithin maxTokensPerChunk) chunks ([], None)))
        else chunks in
      Some (mkResult chunks
        (analyse chunks
           (str "Hybrid chunking created " ++ showZ (len chunks)
            ++ str " chunks using a combination of paragraph-based, sentence-based, and sliding window approaches. Target chunk size was "
            ++ showZ maxTokensPerChunk ++ str " tokens"
            ++ whenT (overlap >? 0)
                 (str " with " ++ showZ overlap ++ str " tokens of overlap where needed")
            ++ str ".")))
  end.

(* ------------------------------------------------------------------ *)
(** ** Recursive text splitter ([recursiveTextSplitter])

    The only failure the [try] block can meet on well-typed arguments is the
    engine's [RangeError] when [results.push(...subSegments)] spreads more
    values than a call can take; [argumentLimit] is that bound ([None]: the
    engine has none).  The splitter is the one place where the source handles
    such a failure, so it is the one place where it is modelled. *)

Definition defaultSeparators : list string :=
  [[Pat.LF; Pat.LF]; [Pat.LF]; str ". "; str ", "; str " "; []].

Section RecursiveSplitter.

Variable argumentLimit : option Z.
Variable mode : ChunkingMode.
Variable size : Z.

(** [(chunkingMode === 'characters' && s.length <= chunkSize) ||
     (chunkingMode === 'tokens' && countTokens(s) <= chunkSize)] *)
Definition fits (s : string) : bool :=
  match mode with
  | charactersMode => len s <=? size
  | tokensMode => countTokens s <=? size
  end.

Definition spreadOk (values : list string) : bool :=
  match argumentLimit with
  | Some limit => len values <=? limit
  | None => true
  end.

(** [recursiveSplit]: [None] when a [push] throws. *)
Fixpoint recursiveSplit (t : string) (separators : list string) : option (list string) :=
  match separators with
  | [] => Some [t]
  | separator :: nextSeparators =>
      if fits t then Some [t]
      else
        let segments := filter (fun s => len (trim s) >? 0) (splitOn separator t) in
        if (len segments >? 1) && forallb fits segments then Some segments
        else if (len segments <=? 1) || negb (forallb fits segments) then
          fold_left (fun (acc : option (list string)) segment =>
            match acc with
            | None => None
            | Some results =>
                if fits segment then Some (results ++ [segment])
                else
                  match recursiveSplit segment nextSeparators with
                  | None => None
                  | Some subSegments =>
                      if spreadOk subSegments then Some (results ++ subSegments) else None
                  end
            end) segments (Some [])
        else Some segments
  end.

Definition measure (s : string) : Z :=
  match mode with charactersMode => len s | tokensMode => countTokens s end.

(** [(s.endsWith('.') ? ' ' : '. ')] *)
Definition glue (s : string) : string :=
  if endsWith s (str ".") then str " " else str ". ".

(** The loop of [mergeSmallChunks] from index 1 on; the state is [result],
    [currentChunk] and [currentSize]. *)
Fixpoint mergeLoop (rest : list string) (result : list string)
    (currentChunk : string) (currentSize : Z) : list string * string :=
  match rest with
  | [] => (result, currentChunk)
  | nextChunk :: rest' =>
      let nextSize := measure nextChunk in
      if currentSize + nextSize <=? size then
        mergeLoop rest' result (currentChunk ++ glue currentChunk ++ nextChunk)
          (currentSize + nextSize)
      else mergeLoop rest' (result ++ [currentChunk]) nextChunk nextSize
  end.

Definition mergeSmallChunks (l : list string) : list string :=
  match l with
  | [] | [_] => l
  | first :: rest =>
      let '(result, currentChunk) := mergeLoop rest [] first (measure first) in
      if truthy currentChunk then result ++ [currentChunk] else result
  end.

(** The overlap text taken from the previous chunk. *)
Definition overlapText (overlapSize : Z) (prevChunk : string) : string :=
  match mode with
  | charactersMode =>
      if len prevChunk >? overlapSize
      then substringFrom prevChunk (len prevChunk - overlapSize)
      else prevChunk
  | tokensMode =>
      let prevTokens := tokenize prevChunk in
      if len prevTokens >? overlapSize
      then join (str " ") (sliceFrom prevTokens (- overlapSize))
      else prevChunk
  end.

Fixpoint overlapLoop (overlapSize : Z) (prev : option string) (l : list string) : list string :=
  match l with
  | [] => []
  | chunk :: rest =>
      match prev with
      | None => chunk
      | Some prevChunk =>
          let o := overlapText overlapSize prevChunk in
          o ++ glue o ++ chunk
      end :: overlapLoop overlapSize (Some chunk) rest
  end.

Definition applyOverlap (l : list string) (overlapSize : Z) : list string :=
  if (len l <=? 1) || (overlapSize <=? 0) then l else overlapLoop overlapSize None l.

End RecursiveSplitter.

(** [textChunks.map((chunkText, index) => ({ id: index, ... }))] *)
Definition toChunks (textChunks : list string) : list Chunk :=
  rev (foldIndexed (fun acc index chunkText =>
         mkChunk index chunkText (countTokens chunkText) (len chunkText) :: acc)
         textChunks 0 []).

(** The [try] block: [None] when it throws. *)
Definition recursiveTry (argumentLimit : option Z) (t : string) (options : ChunkingOptions)
    : option ChunkingResult :=
  let chunkSize := orDefault 500 (chunkSize options) in
  let overlap := orDefault 50 (overlap options) in
  let maxChunks := orDefault 0 (maxChunks options) in
  let chunkingMode := orDefault charactersMode (chunkingMode options) in
  let separators := orDefault defaultSeparators (customSeparators options) in
  match recursiveSplit argumentLimit chunkingMode chunkSize t separators with
  | None => None
  | Some textChunks =>
      let textChunks := mergeSmallChunks chunkingMode chunkSize textChunks in
      let textChunks :=
        if overlap >? 0 then applyOverlap chunkingMode textChunks overlap else textChunks in
      let textChunks :=
        if (maxChunks >? 0) && (len textChunks >? maxChunks) then slice textChunks 0 maxChunks
        else textChunks in
      let chunks := toChunks textChunks in
      Some (mkResult chunks
        (analyse chunks
           (str "Text was recursively split into " ++ showZ (len chunks)
            ++ str " chunks of approximately " ++ showZ chunkSize ++ str " "
            ++ modeName chunkingMode ++ str " each"
            ++ whenT (overlap >? 0)
                 (str " with " ++ showZ overlap ++ str " " ++ modeName chunkingMode
                  ++ str " of overlap")
            ++ str ", preserving natural text boundaries.")))
  end.

(** [try { ... } catch (error) { return fixedLengthChunking(text, options) }] *)
Definition recursiveTextSplitter (argumentLimit : option Z) (fuel : nat) (t : string)
    (options : ChunkingOptions) : option ChunkingResult :=
  match recursiveTry argumentLimit t options with
  | Some r => Some r
  | None => fixedLengthChunking fuel t options
  end.

(* ------------------------------------------------------------------ *)
(** ** Embeddings and cosine similarity *)

#[local] Open Scope float_scope.

(** The embedding endpoint: given the API key and the input text, the
    embedding in the response, or [None] when the request fails or the
    payload has no [data[0].embedding]. *)
Definition Provider := string -> string -> option (list float).

(** [getOpenAIEmbeddings]: every failure is caught inside and answered with a
    zero vector ([Array(1536).fill(0)]). *)
Definition getOpenAIEmbeddings (provider : Provider) (t : string) (apiKey : string)
    : list float :=
  match provider apiKey t with
  | Some embedding => embedding
  | None => repeat 0 1536
  end.

(** [cosineSimilarity] of [chunking.ts]; [None] is the thrown
    ['Vectors must have the same length']. *)
Definition cosineSimilarity (vecA vecB : list float) : option float :=
  if negb (length vecA =? length vecB)%nat then None
  else
    let '(dotProduct, normA, normB) :=
      fold_left (fun '(dotProduct, normA, normB) '(a, b) =>
                   (dotProduct + a * b, normA + a * a, normB + b * b))
                (combine vecA vecB) (0, 0, 0) in
    if PrimFloat.eqb normA 0 || PrimFloat.eqb normB 0 then Some 0
    else Some (dotProduct / (PrimFloat.sqrt normA * PrimFloat.sqrt normB)).

(** [Array.prototype.sort(compare)], as a stable insertion sort; [after a b]
    is [compare(a, b) > 0].  For a comparator that is not a consistent order
    (NaN scores) the engine's algorithm may place elements differently. *)
Fixpoint insertSorted {A} (after : A -> A -> bool) (x : A) (l : list A) : list A :=
  match l with
  | [] => [x]
  | y :: r => if after y x then x :: l else y :: insertSorted after x r
  end.

Definition sortBy {A} (after : A -> A -> bool) (l : list A) : list A :=
  fold_left (fun sorted x => insertSorted after x sorted) l [].

Definition nthF (l : list float) (i : nat) : float := nth i l nan.

(* ------------------------------------------------------------------ *)
(** ** Retrieval ranker ([src/app/home/page.tsx]) *)

Record EmbeddedChunk := mkEmbedded {
  chunk : Chunk;
  embedding : option (list float)
}.

Record QueryResult := mkQueryResult {
  chunkId : Z;
  resultText : string;
  score : float
}.

(** [calculateCosineSimilarity]: a missing [vecB[i]] is [undefined], which makes
    the product NaN. *)
Definition calculateCosineSimilarity (vecA vecB : list float) : float :=
  let dotProduct :=
    snd (fold_left (fun '(i, sum) a => (S i, sum + a * nthF vecB i)) vecA (O, 0)) in
  let magnitudeA := PrimFloat.sqrt (fold_left (fun sum a => sum + a * a) vecA 0) in
  let magnitudeB := PrimFloat.sqrt (fold_left (fun sum b => sum + b * b) vecB 0) in
  dotProduct / (magnitudeA * magnitudeB).

Definition findSimilarChunks (queryEmbedding : list float) (l : list EmbeddedChunk) (topK : Z)
    : list QueryResult :=
  let similarities :=
    flat_map (fun c =>
      match embedding c with
      | Some e =>
          [mkQueryResult (id (chunk c)) (text (chunk c))
             (calculateCosineSimilarity queryEmbedding e)]
      | None => []
      end) l in
  (* similarities.sort((a, b) => b.score - a.score) *)
  let sorted := sortBy (fun a b => PrimFloat.ltb 0 (score b - score a)) similarities in
  slice sorted 0%Z topK.

(* ------------------------------------------------------------------ *)
(** ** Semantic chunking ([semanticChunking]) *)

Definition mapM {A B} (f : A -> option B) (l : list A) : option (list B) :=
  fold_right (fun x acc =>
    match f x, acc with
    | Some y, Some ys => Some (y :: ys)
    | _, _ => None
    end) (Some []) l.

Definition similarityMatrixOf (embeddings : list (list float)) : option (list (list float)) :=
  mapM (fun ei => mapM (fun ej => cosineSimilarity ei ej) embeddings) embeddings.

Definition entry (m : list (list float)) (i j : Z) : float :=
  nthF (nth (Z.to_nat i) m []) (Z.to_nat j).

Definition indices (n : nat) : list Z := map Z.of_nat (seq 0 n).

(** The dynamic-threshold boundary detection.  The source computes
    [semanticBoundaries] and then does not use it. *)
Definition semanticBoundariesOf (m : list (list float)) (n : Z) : list Z :=
  let totalAdjacentSimilarity :=
    fold_left (fun sum i => sum + entry m i (i + 1)) (indices (Z.to_nat (n - 1))) 0 in
  let avgAdjacentSimilarity := totalAdjacentSimilarity / Num.ofZ (n - 1) in
  let dynamicThreshold := avgAdjacentSimilarity * 0x1.999999999999ap-1 in
  let inner :=
    filter (fun i =>
      let prevSimilarity := entry m (i - 1) i in
      let nextSimilarity := entry m i (i + 1) in
      let currentSimilarity := (prevSimilarity + nextSimilarity) / 2 in
      PrimFloat.ltb currentSimilarity dynamicThreshold
      && PrimFloat.ltb currentSimilarity prevSimilarity
      && PrimFloat.ltb currentSimilarity nextSimilarity)
      (map (Z.add 1) (indices (Z.to_nat (n - 2)))) in
  let b := 0%Z :: inner in
  if existsb (Z.eqb n) b then b else b ++ [n].

(** Average similarity between the paragraphs of two clusters. *)
Definition avgSimilarityOf (m : list (list float)) (cluster1 cluster2 : list Z) : float :=
  let '(totalSimilarity, pairCount) :=
    fold_left (fun acc idx1 =>
      fold_left (fun '(total, count) idx2 => (total + entry m idx1 idx2, (count + 1)%Z))
        cluster2 acc) cluster1 (0, 0%Z) in
  totalSimilarity / Num.ofZ pairCount.

(** The scan for the most similar adjacent pair: the state is
    [maxSimilarity] and the index of the pair to merge, -1 when none. *)
Fixpoint bestPair (m : list (list float)) (clusters : list (list Z)) (i : Z)
    (maxSimilarity : float) (mergeAt : Z) : Z :=
  match clusters with
  | cluster1 :: ((cluster2 :: _) as rest) =>
      let avgSimilarity := avgSimilarityOf m cluster1 cluster2 in
      if PrimFloat.ltb maxSimilarity avgSimilarity then bestPair m rest (i + 1) avgSimilarity i
      else bestPair m rest (i + 1) maxSimilarity mergeAt
  | _ => mergeAt
  end.

(** [clusters[c1] = [...clusters[c1], ...clusters[c2]]; clusters.splice(c2, 1)]
    with [c2 = c1 + 1]. *)
Fixpoint mergePair (clusters : list (list Z)) (c1 : nat) : list (list Z) :=
  match clusters, c1 with
  | a :: b :: rest, O => (a ++ b) :: rest
  | a :: rest, S k => a :: mergePair rest k
  | _, _ => clusters
  end.

(** [clusters.length > targetClusters], where [targetClusters] is
    [Math.min(maxChunks, n / 3)] when [maxChunks > 0] and [n / 3] otherwise. *)
Definition aboveTarget (maxChunks n count : Z) : bool :=
  if (maxChunks >? 0)%Z then (count >? maxChunks)%Z || (3 * count >? n)%Z
  else (3 * count >? n)%Z.

(** The [while] loop of the agglomerative clustering; every round merges two
    clusters or leaves the loop, so [length clusters] rounds are enough. *)
Fixpoint agglomerate (rounds : nat) (m : list (list float)) (maxChunks n : Z)
    (clusters : list (list Z)) : list (list Z) :=
  match rounds with
  | O => clusters
  | S k =>
      if aboveTarget maxChunks n (len clusters) then
        let c1 := bestPair m clusters 0 (-1) (-1)%Z in
        if (c1 >=? 0)%Z then agglomerate k m maxChunks n (mergePair clusters (Z.to_nat c1))
        else clusters
      else clusters
  end.

Record RawChunk := mkRaw {
  rawText : string;
  paragraphIndices : list Z;
  rawEmbedding : list float
}.

Definition paragraphAt (paragraphs : list string) (idx : Z) : string :=
  nth (Z.to_nat idx) paragraphs [].

Definition sumZ (l : list Z) : Z := fold_left Z.add l 0%Z.

(** One raw chunk per cluster, with the length-weighted mean embedding. *)
Definition rawChunkOf (paragraphs : list string) (embeddings : list (list float))
    (cluster : list Z) : RawChunk :=
  let clusterParagraphs := map (paragraphAt paragraphs) cluster in
  let clusterText := join [Pat.LF; Pat.LF] clusterParagraphs in
  let totalLength := sumZ (map len clusterParagraphs) in
  let zero := repeat 0 (length (nth 0 embeddings [])) in
  let clusterEmbedding :=
    fold_left (fun acc paragraphIdx =>
      let paragraphLength := len (paragraphAt paragraphs paragraphIdx) in
      let weight := Num.ofZ paragraphLength / Num.ofZ totalLength in
      let e := nth (Z.to_nat paragraphIdx) embeddings [] in
      map (fun '(j, x) => x + nthF e j * weight) (combine (seq 0 (length acc)) acc))
      cluster zero in
  mkRaw clusterText cluster clusterEmbedding.

(** [Math.min(...l)] for a non-empty array of integers. *)
Definition minOf (l : list Z) : Z :=
  match l with [] => 0%Z | x :: r => fold_left Z.min r x end.

(** The text of chunk [i] with the overlap borrowed from every other chunk
    whose embedding is similar enough; [None] when a similarity throws. *)
Definition withOverlap (paragraphs : list string) (embeddings : list (list float))
    (overlap : Z) (rawChunks : list RawChunk) (i : Z) (self : RawChunk) : option string :=
  let chunkEmbedding := rawEmbedding self in
  foldIndexed (fun (acc : option string) j otherChunk =>
    match acc with
    | None => None
    | Some chunkText =>
        if (i =? j)%Z then Some chunkText
        else
          match cosineSimilarity chunkEmbedding (rawEmbedding otherChunk) with
          | None => None
          | Some similarity =>
              if PrimFloat.ltb 0x1.3333333333333p-1 similarity then
                let overlapFactor := similarity * (Num.ofZ overlap / 100) in
                match
                  mapM (fun idx =>
                    match cosineSimilarity chunkEmbedding (nth (Z.to_nat idx) embeddings []) with
                    | Some s => Some (s, paragraphAt paragraphs idx)
                    | None => None
                    end) (paragraphIndices otherChunk)
                with
                | None => None
                | Some otherParagraphsWithSimilarity =>
                    let sorted :=
                      sortBy (fun a b => PrimFloat.ltb 0 (fst b - fst a)) otherParagraphsWithSimilarity in
                    let paragraphsToInclude :=
                      Z.max 1 (Num.round (overlapFactor * Num.ofZ (len sorted))) in
                    let selectedParagraphs :=
                      join [Pat.LF; Pat.LF] (map snd (slice sorted 0%Z paragraphsToInclude)) in
                    if (j <? i)%Z then Some (selectedParagraphs ++ [Pat.LF; Pat.LF] ++ chunkText)
                    else Some (chunkText ++ [Pat.LF; Pat.LF] ++ selectedParagraphs)
                end
              else Some chunkText
          end
    end) rawChunks 0%Z (Some (rawText self)).

(** The [try] block of [semanticChunking] once the text has two paragraphs or
    more; [None] when it throws. *)
Definition semanticTry (provider : Provider) (key : string) (paragraphs : list string)
    (options : ChunkingOptions) : option ChunkingResult :=
  let maxChunks := orDefault 0%Z (maxChunks options) in
  let overlap := orDefault 0%Z (overlap options) in
  let embeddings := map (fun paragraph => getOpenAIEmbeddings provider paragraph key) paragraphs in
  match similarityMatrixOf embeddings with
  | None => None
  | Some similarityMatrix =>
      let clusters :=
        agglomerate (length paragraphs) similarityMatrix maxChunks (len paragraphs)
          (map (fun i => [i]) (indices (length paragraphs))) in
      let clusters := map (sortBy (fun a b => (a - b >? 0)%Z)) clusters in
      let rawChunks := map (rawChunkOf paragraphs embeddings) clusters in
      let rawChunks :=
        sortBy (fun a b => (minOf (paragraphIndices a) - minOf (paragraphIndices b) >? 0)%Z)
          rawChunks in
      let texts :=
        if (overlap >? 0)%Z && (len rawChunks >? 1)%Z then
          foldIndexed (fun (acc : option (list string)) i self =>
            match acc, withOverlap paragraphs embeddings overlap rawChunks i self with
            | Some done, Some chunkText => Some (done ++ [chunkText])
            | _, _ => None
            end) rawChunks 0%Z (Some [])
        else Some (map rawText rawChunks) in
      match texts with
      | None => None
      | Some texts =>
          let finalChunks := fold_left pushText texts [] in
          let totalTokens := sumOf tokens finalChunks in
          let totalCharacters := sumOf characters finalChunks in
          Some (mkResult finalChunks
            (mkAnalysis (len finalChunks)
               (mkAverage (roundDiv totalTokens (len finalChunks))
                          (roundDiv totalCharacters (len finalChunks)))
               (str "Advanced semantic chunking with OpenAI embeddings identified "
                ++ showZ (len finalChunks)
                ++ str " thematic sections using agglomerative clustering"
                ++ whenT (overlap >? 0)%Z
                     (str " with intelligent semantic-based overlap between related chunks"))))
      end
  end.

Definition semanticChunking (provider : Provider) (t : string) (options : ChunkingOptions)
    : ChunkingResult :=
  let attempt :=
    match apiKey options with
    | Some key =>
        if truthy key then
          let paragraphs := filter truthy (Regex.split Pat.blankLine t) in
          if (len paragraphs <=? 1)%Z then Some (paragraphBasedChunking t options)
          else semanticTry provider key paragraphs options
        else None
    | None => None
    end in
  match attempt with
  | Some r => r
  | None => heuristicSemanticChunking t options
  end.

(* ------------------------------------------------------------------ *)
(** ** Strategy selector ([agenticChunking]) *)

(** [calculateVariance]; [Math.pow(x, 2)] is taken as [x * x]. *)
Definition calculateVariance (numbers : list Z) : float :=
  if (len numbers =? 0)%Z then 0
  else
    let mean := Num.ofZ (sumZ numbers) / Num.ofZ (len numbers) in
    let squaredDiffs := map (fun val => (Num.ofZ val - mean) * (Num.ofZ val - mean)) numbers in
    fold_left (fun sum val => sum + val) squaredDiffs 0 / Num.ofZ (len numbers).

Definition setChunkSize (o : ChunkingOptions) (v : Z) : ChunkingOptions :=
  mkOptions (Some v) (overlap o) (separator o) (maxChunks o) (apiKey o) (chunkingMode o)
    (customSeparators o).

Definition setOverlap (o : ChunkingOptions) (v : Z) : ChunkingOptions :=
  mkOptions (chunkSize o) (Some v) (separator o) (maxChunks o) (apiKey o) (chunkingMode o)
    (customSeparators o).

Definition setNotes (r : ChunkingResult) (n : string) : ChunkingResult :=
  mkResult (chunks r)
    (mkAnalysis (totalChunks (analysis r)) (averageChunkSize (analysis r)) n).

Definition agenticChunking (fuel : nat) (t : string) (options : ChunkingOptions)
    : option ChunkingResult :=
  let paragraphs := filter truthy (Regex.split Pat.blankLine t) in
  let paragraphCount := len paragraphs in
  let sentenceCount := (len (Regex.matchAll Pat.sentenceRegex t) + 1)%Z in
  let tokenCount := countTokens t in
  let avgSentenceLength :=
    if (sentenceCount >? 0)%Z then Num.ofZ tokenCount / Num.ofZ sentenceCount else 0 in
  let avgParagraphSize :=
    if (paragraphCount >? 0)%Z then Num.ofZ tokenCount / Num.ofZ paragraphCount
    else Num.ofZ tokenCount in
  let paragraphLengths := map len paragraphs in
  let maxParagraphLength := fold_left Z.max paragraphLengths 0%Z in
  let paragraphLengthVariance := calculateVariance paragraphLengths in
  let hasCode := Regex.test Pat.codeRegex t in
  let hasLists := Regex.test Pat.listRegex t in
  let hasHeaders := Regex.test Pat.headersRegex t in
  let customOptions := options in
  let selected : option ChunkingResult * string :=
    if hasCode then
      (Some (paragraphBasedChunking t
               (setChunkSize customOptions
                  (orIfFalsy (Z.max 3 (Z.min 5 paragraphCount)) (chunkSize options)))),
       str "paragraph-based chunking optimized for code content")
    else if (paragraphCount <=? 1)%Z && (sentenceCount >? 10)%Z then
      (sentenceBasedChunking fuel t
         (setChunkSize customOptions
            (orIfFalsy (Z.max 3 (Z.min 8 (ceilDiv sentenceCount 3))) (chunkSize options))),
       str "sentence-based chunking for single paragraphs with many sentences")
    else if PrimFloat.ltb 10000 paragraphLengthVariance && (maxParagraphLength >? 1000)%Z then
      (hybridChunking fuel t
         (setOverlap customOptions
            (orIfFalsy
               (Z.min 50 (match chunkSize options with
                          | Some 0%Z | None => 20%Z
                          | Some c => ceilDiv c 5
                          end))
               (overlap options))),
       str "hybrid chunking for text with variable paragraph lengths")
    else if PrimFloat.ltb avgParagraphSize 50 && (paragraphCount >? 5)%Z then
      (Some (paragraphBasedChunking t
               (setChunkSize customOptions
                  (orIfFalsy (Z.max 3 (Z.min 10 (ceilDiv paragraphCount 3))) (chunkSize options)))),
       str "paragraph-based chunking for multiple small paragraphs")
    else if PrimFloat.ltb 20 avgSentenceLength then
      (Some (slidingWindowChunking t
               (setOverlap customOptions
                  (orIfFalsy
                     (Z.min 50 (match chunkSize options with
                                | Some 0%Z | None => 25%Z
                                | Some c => ceilDiv c 4
                                end))
                     (overlap options)))),
       str "sliding window with overlap for long sentences")
    else if (tokenCount >? 1000)%Z then
      (hybridChunking fuel t customOptions, str "hybrid chunking for lengthy documents")
    else if hasLists || hasHeaders then
      (Some (paragraphBasedChunking t customOptions),
       str "paragraph-based chunking for structured content with lists or headers")
    else
      (Some (heuristicSemanticChunking t customOptions),
       str "semantic-like chunking for medium-sized documents") in
  match selected with
  | (None, _) => None
  | (Some result, strategyDescription) =>
      Some (setNotes result
        (str "Agentic chunking automatically selected " ++ strategyDescription
         ++ str " based on document analysis: " ++ showZ paragraphCount ++ str " paragraphs, "
         ++ showZ sentenceCount ++ str " sentences, avg sentence length: "
         ++ showZ (Num.round avgSentenceLength) ++ str " tokens, avg paragraph size: "
         ++ showZ (Num.round avgParagraphSize) ++ str " tokens, paragraph length variance: "
         ++ showZ (Num.round paragraphLengthVariance)
         ++ whenT hasCode (str ", contains code")
         ++ whenT hasLists (str ", contains lists")
         ++ whenT hasHeaders (str ", contains headers")
         ++ str "."))
  end.

#[local] Close Scope float_scope.

(* ------------------------------------------------------------------ *)
(** ** Dispatcher ([chunkTextAsync]) *)

Inductive ChunkingMethod :=
| fixed_length
| fixed_length_chars
| recursive
| sentence_based
| paragraph_based
| sliding_window
| semantic
| hybrid
| agentic.

(** What the engine and the outside world contribute to a call. *)
Record Environment := mkEnvironment {
  argumentLimit : option Z;
  provider : Provider
}.

Definition chunkTextAsync (env : Environment) (fuel : nat) (t : string)
    (method : ChunkingMethod) (options : ChunkingOptions) : option ChunkingResult :=
  match method with
  | fixed_length => fixedLengthChunking fuel t options
  | fixed_length_chars => Some (fixedLengthCharsChunking t options)
  | recursive => recursiveTextSplitter (argumentLimit env) fuel t options
  | sentence_based => sentenceBasedChunking fuel t options
  | paragraph_based => Some (paragraphBasedChunking t options)
  | sliding_window => Some (slidingWindowChunking t options)
  | semantic => Some (semanticChunking (provider env) t options)
  | hybrid => hybridChunking fuel t options
  | agentic => agenticChunking fuel t options
  end.

(* ------------------------------------------------------------------ *)
(** ** Batch embedding and export ([src/app/home/page.tsx]) *)

(** The answer to one embedding request of [generateEmbeddings]:
    [Succeeded e] when the response is ok and has a [data[0]], with [e] its
    [embedding] field ([None] when the field is missing); [Rejected] when the
    request throws, the response is not ok, or [data[0]] is missing. *)
Inductive Response :=
| Succeeded (embedding : option (list float))
| Rejected.

(** The endpoint as the page sees it: the answer to the request made for the
    chunk at [chunkIndex], given the API key and the chunk text.  Two
    requests with the same text need not be answered alike. *)
Definition EmbeddingRequest := Z -> string -> string -> Response.

(** [chunksWithEmbeddings[index].embedding = e] *)
Definition assignEmbedding (l : list EmbeddedChunk) (index : Z) (e : option (list float))
    : list EmbeddedChunk :=
  rev (foldIndexed (fun acc k c =>
         (if k =? index then mkEmbedded (chunk c) e else c) :: acc) l 0 []).

(** [batch.map(async (chunk, batchIndex) => ...)]: the index and the answer
    for every chunk of the batch. *)
Definition requestBatch (request : EmbeddingRequest) (key : string) (i : Z)
    (batch : list EmbeddedChunk) : list (Z * Response) :=
  rev (foldIndexed (fun acc batchIndex c =>
         let chunkIndex := i + batchIndex in
         (chunkIndex, request chunkIndex key (text (chunk c))) :: acc) batch 0 []).

(** [batchResults.forEach(result => { if ('embedding' in result) ... })] *)
Definition storeResults (chunksWithEmbeddings : list EmbeddedChunk)
    (batchResults : list (Z * Response)) : list EmbeddedChunk :=
  fold_left (fun acc result =>
    match snd result with
    | Succeeded e => assignEmbedding acc (fst result) e
    | Rejected => acc
    end) batchResults chunksWithEmbeddings.

(** [generateEmbeddings]: the new value of [finalizedChunks], or the error
    message shown instead.  [batchSize] is 15 in one copy of the page and 5
    in the other; the pause between batches is not modelled. *)
Definition generateEmbeddings (request : EmbeddingRequest) (batchSize : Z) (key : string)
    (finalizedChunks : list EmbeddedChunk) : string + list EmbeddedChunk :=
  if len finalizedChunks =? 0 then inl (str "No finalized chunks to generate embeddings for")
  else if negb (truthy key) then inl (str "OpenAI API key is required for generating embeddings")
  else
    inr (forLoopUpTo (len finalizedChunks) batchSize (fun i chunksWithEmbeddings =>
           let batch := slice chunksWithEmbeddings i (i + batchSize) in
           let batchResults := requestBatch request key i batch in
           Next (storeResults chunksWithEmbeddings batchResults)) finalizedChunks).

(** One entry of the exported [chunks] array. *)
Record FormattedChunk := mkFormatted {
  chunkNumber : Z;
  metadataTokens : Z;
  metadataCharacters : Z;
  content : string
}.

(** [formattedChunks] of [downloadChunksAsJson] and [toggleJsonPreview]. *)
Definition formatChunks (l : list Chunk) : list FormattedChunk :=
  map (fun c => mkFormatted (id c + 1) (tokens c) (characters c) (text c)) l.

(** The part of the exported structure that is computed from the chunks:
    [textLength], [totalTokens], [totalCharacters] and the [chunks] array. *)
Record Export := mkExport {
  textLength : Z;
  totalTokens : Z;
  totalCharacters : Z;
  exportedChunks : list FormattedChunk
}.

(** [downloadChunksAsJson]: [None] is the error 'No chunks to download'. *)
Definition downloadChunksAsJson (t : string) (l : list Chunk) : option Export :=
  if len l =? 0 then None
  else Some (mkExport (len t) (sumOf tokens l) (sumOf characters l) (formatChunks l)).

(* ------------------------------------------------------------------ *)
(** ** Vocabulary of the properties *)

Definition sizeAndOverlap (size over : Z) : ChunkingOptions :=
  mkOptions (Some size) (Some over) None None None None None.

Definition sizeOnly (size : Z) : ChunkingOptions :=
  mkOptions (Some size) None None None None None None.

Definition withKey (key : String.string) (limit : option Z) : ChunkingOptions :=
  mkOptions None None None limit (Some (str key)) None None.

(** A provider whose every request fails. *)
Definition failingProvider : Provider := fun _ _ => None.

Definition twoParagraphs : string :=
  str "First topic." ++ [Pat.LF; Pat.LF] ++ str "Second topic.".

Definition textsOf (r : option ChunkingResult) : option (list string) :=
  option_map (fun r => map text (chunks r)) r.

Definition notesOf (r : option ChunkingResult) : option string :=
  option_map (fun r => notes (analysis r)) r.

Definition countOf (r : option ChunkingResult) : option Z :=
  option_map (fun r => len (chunks r)) r.

(** The unit count the sliding window works on: code units above a chunk
    size of 200, tokens otherwise. *)
Definition windowUnits (t : string) (options : ChunkingOptions) : Z :=
  if orDefault 100 (chunkSize options) >? 200 then len t else len (tokenize t).

Definition numbered (l : list Chunk) : Prop :=
  forall i c, nth_error l i = Some c -> id c = Z.of_nat i.

Definition wellFormed (r : ChunkingResult) : Prop :=
  numbered (chunks r) /\ totalChunks (analysis r) = len (chunks r).

(** Numbering a list from [k] on, as the [forEach]/[map] callbacks with an
    index do. *)
Fixpoint mapFrom {A B} (g : Z -> A -> B) (k : Z) (l : list A) : list B :=
  match l with
  | [] => []
  | x :: r => g k x :: mapFrom g (k + 1) r
  end.


Definition processed (s : string) : Prop := exists raw, s = postprocessText raw.

(** The shape of the grouping loops: cut a window at [i]; leave when it is
    tiny and a chunk exists; else append it. *)
Definition windowBody {A} (cut : Z -> list A) (tiny : list A -> bool)
    (mk : list Chunk -> list A -> Chunk) (i : Z) (chunks : list Chunk) : Ctl (list Chunk) :=
  if tiny (cut i) && (len chunks >? 0) then Break chunks
  else Next (chunks ++ [mk chunks (cut i)]).

(** The first [m] windows of a loop that advances by [step]. *)
Definition windowsUpTo {A} (cut : Z -> list A) (step : Z) (m : nat) : list (list A) :=
  map (fun j => cut (Z.of_nat j * step)) (seq 0 m).

(** *** Tokens *)

(** The words of a text, read off one code unit at a time: [cur] is the
    reversed word under construction. *)
Fixpoint wordsFrom (cur : string) (s : string) : list string :=
  match s with
  | [] => match cur with [] => [] | _ :: _ => [rev cur] end
  | c :: s' =>
      if isSpace c then
        match cur with
        | [] => wordsFrom [] s'
        | _ :: _ => rev cur :: wordsFrom [] s'
        end
      else wordsFrom (c :: cur) s'
  end.

Definition isWhite (s : string) : bool := forallb isSpace s.

(** A word: not empty, no white space in it. *)
Definition isToken (w : string) : bool :=
  truthy w && forallb (fun c => negb (isSpace c)) w.

(** *** Chunk metadata *)

(** The metadata of a chunk describes its text. *)
Definition describesText (c : Chunk) : Prop :=
  characters c = len (text c) /\ tokens c = countTokens (text c).

Definition describesState (st : list Chunk * option Chunk) : Prop :=
  Forall describesText (fst st)
  /\ match snd st with Some c => describesText c | None => True end.

(** The size of a chunk in the unit a windowed strategy counts in. *)
Definition unitsOf (characterBased : bool) (c : Chunk) : Z :=
  if characterBased then characters c else tokens c.

Definition laterBig (l : list Chunk) : Prop := Forall (fun c => 20 <= tokens c) (tl l).

(** The sections the heuristic splitter cuts at its structural boundaries,
    before the merge of the small ones. *)
Definition rawSections (t : string) : list Chunk :=
  let lines := splitOn [Pat.LF] t in
  spansOf lines (findBoundaries lines) [].

(** *** Embedding requests *)

(** What one answered request does to its chunk: a successful answer
    replaces the embedding, a rejected one leaves the chunk as it is. *)
Definition embedOne (request : EmbeddingRequest) (key : string) (index : Z)
    (c : EmbeddedChunk) : EmbeddedChunk :=
  match request index key (text (chunk c)) with
  | Succeeded e => mkEmbedded (chunk c) e
  | Rejected => c
  end.

(** Every chunk asked for by its own index, one by one. *)
Definition embedEach (request : EmbeddingRequest) (key : string) (l : list EmbeddedChunk)
    : list EmbeddedChunk :=
  mapFrom (embedOne request key) 0 l.

Definition hasEmbedding (c : EmbeddedChunk) : bool :=
  match embedding c with Some _ => true | None => false end.

(** The request oracle of the batch examples: the request for chunk 1 is
    rejected, every other one is answered with the vector [1]. *)
Definition secondRejected : EmbeddingRequest :=
  fun index _ _ => if index =? 1 then Rejected else Succeeded (Some [1%float]).

Definition plainChunk (index : Z) (t : String.string) : EmbeddedChunk :=
  mkEmbedded (mkChunk index (str t) (countTokens (str t)) (len (str t))) None.

(** *** Windows and separator-free texts *)

(** The window that the sliding loops cut at the index [i]. *)
Definition windowAt (t : string) (options : ChunkingOptions) (i : Z) : string :=
  let chunkSize := orDefault 100 (chunkSize options) in
  if chunkSize >? 200 then substring t i (Z.min (i + chunkSize) (len t))
  else
    let tokens := tokenize t in
    join (str " ") (slice tokens i (Z.min (i + chunkSize) (len tokens))).

(** Ten distinct code units, for texts whose windows differ. *)
Definition tenDigits : string := str "0123456789".

(** A text of [n] letters a, without any separator. *)
Definition letters (n : nat) : string := repeat 97%N n.

(* ================================================================== *)
(** * Properties *)

(* ------------------------------------------------------------------ *)
(** ** Arithmetic and list helpers *)

Lemma len_nonneg {A} (l : list A) : 0 <= len l.
Proof. unfold len. lia. Qed.

Lemma len_app {A} (l l' : list A) : len (l ++ l') = len l + len l'.
Proof. unfold len. rewrite length_app. lia. Qed.

Lemma len_nil {A} : len (@nil A) = 0.
Proof. reflexivity. Qed.

Lemma len_cons {A} (x : A) (l : list A) : len (x :: l) = len l + 1.
Proof. unfold len. simpl length. lia. Qed.

Lemma len_pushText chunks t : len (pushText chunks t) = len chunks + 1.
Proof. unfold pushText. rewrite len_app. reflexivity. Qed.

Lemma ceilDiv_bounds a b : 0 < b -> b * (ceilDiv a b - 1) < a <= b * ceilDiv a b.
Proof.
  intros Hb. unfold ceilDiv.
  pose proof (Z.div_mod (- a) b ltac:(lia)) as E.
  pose proof (Z.mod_pos_bound (- a) b Hb) as M.
  nia.
Qed.

Lemma ceilDiv_positive a b : 0 < b -> 0 < a -> 1 <= ceilDiv a b.
Proof. intros Hb Ha. pose proof (ceilDiv_bounds a b Hb). nia. Qed.

Lemma ceilDiv_le a b c : 0 < b -> a <= b * c -> ceilDiv a b <= c.
Proof. intros Hb H. pose proof (ceilDiv_bounds a b Hb). nia. Qed.

(* ------------------------------------------------------------------ *)
(** ** Loops *)

Section LoopFacts.

Context {S : Type}.
Variables (n step : Z) (body : Z -> S -> Ctl S).

(** An invariant [P] kept by every round gives [Q] at the exit. *)
Lemma forLoop_invariant (P : Z -> S -> Prop) (Q : S -> Prop) :
  (forall i s, P i s -> i < n ->
     match body i s with Break s' => Q s' | Next s' => P (i + step) s' end) ->
  (forall i s, P i s -> n <= i -> Q s) ->
  forall fuel i s r, P i s -> forLoop fuel n step body i s = Some r -> Q r.
Proof.
  intros Hbody Hexit fuel.
  induction fuel as [|fuel IH]; intros i s r HP Hrun; simpl in Hrun.
  - discriminate.
  - destruct (i <? n) eqn:E.
    + apply Z.ltb_lt in E. specialize (Hbody i s HP E).
      destruct (body i s) as [s'|s'].
      * injection Hrun as <-. exact Hbody.
      * exact (IH _ _ _ Hbody Hrun).
    + apply Z.ltb_ge in E. injection Hrun as <-. eapply Hexit; eauto.
Qed.

(** With a step of at least 1 the loop ends before [n - i] rounds are over. *)
Lemma forLoop_enough :
  1 <= step ->
  forall fuel i s, (Z.to_nat (n - i) < fuel)%nat ->
  exists r, forLoop fuel n step body i s = Some r.
Proof.
  intros Hstep fuel.
  induction fuel as [|fuel IH]; intros i s Hfuel; [lia|].
  simpl. destruct (Z.ltb_spec i n) as [Hlt|Hge].
  - destruct (body i s) as [s'|s']; [eauto|].
    apply IH. lia.
  - eauto.
Qed.

(** More fuel does not change a result. *)
Lemma forLoop_more_fuel fuel fuel' i s r :
  (fuel <= fuel')%nat ->
  forLoop fuel n step body i s = Some r -> forLoop fuel' n step body i s = Some r.
Proof.
  revert fuel' i s.
  induction fuel as [|fuel IH]; intros fuel' i s Hle Hrun; [discriminate|].
  destruct fuel' as [|fuel']; [lia|].
  simpl in *. destruct (i <? n); [|assumption].
  destruct (body i s); [assumption|].
  apply IH; [lia|assumption].
Qed.

Lemma forLoopUpTo_runs s :
  1 <= step ->
  forLoop (Datatypes.S (Z.to_nat n)) n step body 0 s = Some (forLoopUpTo n step body s).
Proof.
  intros Hstep. unfold forLoopUpTo.
  destruct (forLoop_enough Hstep (Datatypes.S (Z.to_nat n)) 0 s) as [r Hr].
  - rewrite Z.sub_0_r. lia.
  - rewrite Hr. reflexivity.
Qed.

Lemma forLoopUpTo_invariant (P : Z -> S -> Prop) (Q : S -> Prop) s :
  1 <= step ->
  (forall i s, P i s -> i < n ->
     match body i s with Break s' => Q s' | Next s' => P (i + step) s' end) ->
  (forall i s, P i s -> n <= i -> Q s) ->
  P 0 s -> Q (forLoopUpTo n step body s).
Proof.
  intros Hstep Hbody Hexit HP.
  eapply forLoop_invariant; eauto using forLoopUpTo_runs.
Qed.

(** A loop that stands still at [i] and never breaks uses up any fuel. *)
Lemma forLoop_stuck (P : S -> Prop) i :
  step = 0 -> i < n ->
  (forall s, P s -> exists s', body i s = Next s' /\ P s') ->
  forall fuel s, P s -> forLoop fuel n step body i s = None.
Proof.
  intros Hstep Hlt Hbody fuel.
  induction fuel as [|fuel IH]; intros s HP; [reflexivity|].
  simpl. destruct (Z.ltb_spec i n); [|lia].
  destruct (Hbody s HP) as [s' [E HP']]. rewrite E.
  replace (i + step) with i by lia. apply IH. assumption.
Qed.

End LoopFacts.

(* ------------------------------------------------------------------ *)
(** ** Step sizes of the bounded loops

    Sliding-window, boundary-snapping and paragraph-based chunking keep their
    step at 1 or more, so their loops end within the fuel that [forLoopUpTo]
    gives them ([forLoopUpTo_runs]). *)

Lemma windowStep_positive chunkSize overlap : 1 <= windowStep chunkSize overlap.
Proof. unfold windowStep. lia. Qed.

Lemma adjustedStep_positive length step : 0 <= length -> 1 <= step -> 1 <= adjustedStep length step.
Proof.
  intros Hl Hs. unfold adjustedStep, windowLimit.
  destruct (Z.gtb_spec (ceilDiv length step) 100) as [H|H]; [|assumption].
  apply ceilDiv_positive; [lia|].
  pose proof (ceilDiv_bounds length step ltac:(lia)). nia.
Qed.

(** The boundary-snapping strategy clamps the overlap below the chunk size. *)
Lemma charsStep_positive chunkSize overlap :
  let effectiveChunkSize := Z.max 10 chunkSize in
  let effectiveOverlap := Z.min (effectiveChunkSize - 1) (Z.max 0 overlap) in
  effectiveOverlap < effectiveChunkSize /\ 1 <= effectiveChunkSize - effectiveOverlap.
Proof. cbv zeta. lia. Qed.

Lemma paragraphStep_positive paragraphs maxChunks chunkSize overlap :
  let paragraphsPerChunk := if chunkSize >? 0 then chunkSize else 3 in
  let adjustedParagraphsPerChunk :=
    if (maxChunks >? 0) && (paragraphs >? maxChunks * paragraphsPerChunk)
    then ceilDiv paragraphs maxChunks else paragraphsPerChunk in
  1 <= (if overlap >? 0 then Z.max 1 (adjustedParagraphsPerChunk - overlap)
        else adjustedParagraphsPerChunk).
Proof.
  cbv zeta.
  destruct (overlap >? 0); [lia|].
  assert (1 <= (if chunkSize >? 0 then chunkSize else 3))
    by (destruct (Z.gtb_spec chunkSize 0); lia).
  destruct (Z.gtb_spec maxChunks 0); [|assumption].
  destruct (Z.gtb_spec paragraphs (maxChunks * (if chunkSize >? 0 then chunkSize else 3)));
    [|assumption].
  cbn [andb]. apply ceilDiv_positive; nia.
Qed.

(* ------------------------------------------------------------------ *)
(** ** Fixed-length chunking: the step is not kept positive *)

(** C1.  [fixedLengthChunking] takes [chunkSize - overlap] as its step without
    a lower bound (the sliding-window and boundary-snapping strategies clamp
    theirs, [windowStep_positive] and [charsStep_positive]).  For the text
    "a b" with [chunkSize = 5] and [overlap = 5] the step is 0: every round
    cuts the same window ["a b"] at index 0, appends it, and the loop never
    ends, whatever the fuel. *)
Theorem fixedLength_step_zero_never_ends :
  plainStep 5 5 = 0
  /\ forall fuel, fixedLengthChunking fuel (str "a b") (sizeAndOverlap 5 5) = None.
Proof.
  split; [reflexivity|].
  intros fuel. unfold fixedLengthChunking.
  cbn [chunkSize overlap chunkingMode sizeAndOverlap orDefault isMode negb orb andb].
  change (5 >? 200) with false. cbv iota.
  change (tokenize (str "a b")) with [[97%N]; [98%N]].
  rewrite forLoop_stuck with (P := fun _ => True); [reflexivity..| |exact I].
  intros s _. eexists. split; [|exact I].
  change (slice [[97%N]; [98%N]] 0 (0 + 5)) with [[97%N]; [98%N]].
  reflexivity.
Qed.

(* ------------------------------------------------------------------ *)
(** ** Sliding window: the ceiling of 100 chunks *)

Lemma nth_error_snoc {A} (l : list A) x k y :
  nth_error (l ++ [x]) k = Some y ->
  nth_error l k = Some y \/ (k = length l /\ y = x).
Proof.
  intros H. destruct (Nat.lt_ge_cases k (length l)) as [Hlt|Hge].
  - left. now rewrite nth_error_app1 in H.
  - right. rewrite nth_error_app2 in H by assumption.
    destruct (k - length l)%nat as [|j] eqn:E; cbn in H.
    + injection H as <-. split; [lia|reflexivity].
    + destruct j; discriminate.
Qed.

(** A loop that only appends, and appends at index [i] a chunk whose text is
    [w i], leaves at position [k] the chunk of the index [k * step]. *)
Lemma forLoopUpTo_positions n step (body : Z -> list Chunk -> Ctl (list Chunk)) (w : Z -> string) :
  1 <= step ->
  (forall i chunks, exists c,
     text c = w i
     /\ (body i chunks = Break chunks \/ body i chunks = Break (chunks ++ [c])
         \/ body i chunks = Next (chunks ++ [c]))) ->
  forall k c, nth_error (forLoopUpTo n step body []) k = Some c ->
              text c = w (Z.of_nat k * step).
Proof.
  intros Hstep Hbody.
  apply forLoopUpTo_invariant
    with (P := fun i chunks => i = len chunks * step
                 /\ forall k c, nth_error chunks k = Some c -> text c = w (Z.of_nat k * step))
         (Q := fun chunks => forall k c, nth_error chunks k = Some c ->
                                         text c = w (Z.of_nat k * step)).
  - exact Hstep.
  - intros i chunks [Hi H] _. destruct (Hbody i chunks) as [c [Hc E]].
    assert (G : forall k c', nth_error (chunks ++ [c]) k = Some c' ->
                             text c' = w (Z.of_nat k * step)).
    { intros k c' Hk. apply nth_error_snoc in Hk as [Hk|[-> ->]]; [now apply H|].
      rewrite Hc. f_equal. unfold len in Hi. lia. }
    destruct E as [E|[E|E]]; rewrite E; [exact H|exact G|].
    split; [|exact G]. rewrite len_app, len_cons, len_nil. lia.
  - intros i chunks [_ H] _. exact H.
  - split; [reflexivity|]. intros [|k] c H; discriminate.
Qed.

(** C5.  Sliding-window chunking returns at most 100 chunks for every text
    and every options value.  The loops advance by the widened step: when
    the count estimated from the natural step [max(1, chunkSize - overlap)]
    exceeds 100 the step used is [ceil(length / 100)], else the natural
    step; the chunk at position [k] of the result is the window cut at
    [k * used], and 100 steps of that width reach the end of the text. *)
Theorem slidingWindow_at_most_100 t options :
  let size := orDefault 100 (chunkSize options) in
  let step := windowStep size (orDefault 50 (overlap options)) in
  let length := windowUnits t options in
  let used := if ceilDiv length step >? windowLimit then ceilDiv length windowLimit else step in
  let r := slidingWindowChunking t options in
  len (chunks r) <= windowLimit
  /\ (forall k c, nth_error (chunks r) k = Some c ->
        text c = windowAt t options (Z.of_nat k * used))
  /\ length <= windowLimit * used.
Proof.
  cbv zeta. split; [|split].
  - unfold slidingWindowChunking.
    destruct (orDefault 100 (chunkSize options) >? 200); cbn [chunks];
      apply forLoopUpTo_invariant
        with (P := fun _ s => len s < windowLimit) (Q := fun s => len s <= windowLimit);
      try (apply adjustedStep_positive; [apply len_nonneg | apply windowStep_positive]);
      try (intros; lia); try (rewrite len_nil; unfold windowLimit; lia).
    + intros i s HP _. cbv beta zeta in HP |- *.
      destruct (_ && _); cbv beta iota; [lia|].
      rewrite len_pushText.
      destruct (Z.geb_spec (len s + 1) windowLimit); cbv beta iota;
        rewrite ?len_pushText; lia.
    + intros i s HP _. cbv beta zeta in HP |- *.
      destruct (_ && _); cbv beta iota; [lia|].
      rewrite len_app, len_cons, len_nil.
      destruct (Z.geb_spec (len s + (0 + 1)) windowLimit); cbv beta iota;
        rewrite ?len_app, ?len_cons, ?len_nil; lia.
  - change (if ceilDiv (windowUnits t options)
                 (windowStep (orDefault 100 (chunkSize options)) (orDefault 50 (overlap options)))
               >? windowLimit
            then ceilDiv (windowUnits t options) windowLimit
            else windowStep (orDefault 100 (chunkSize options)) (orDefault 50 (overlap options)))
      with (adjustedStep (windowUnits t options)
              (windowStep (orDefault 100 (chunkSize options)) (orDefault 50 (overlap options)))).
    unfold slidingWindowChunking, windowUnits.
    destruct (orDefault 100 (chunkSize options) >? 200) eqn:Emode; cbn [chunks].
    + apply forLoopUpTo_positions with (w := windowAt t options).
      * apply adjustedStep_positive; [apply len_nonneg | apply windowStep_positive].
      * intros i chunks. unfold windowAt. rewrite Emode. cbv zeta. unfold pushText.
        eexists. split; [|destruct (_ && _); [left; reflexivity|right];
                          destruct (_ >=? windowLimit); [left|right]; reflexivity].
        reflexivity.
    + apply forLoopUpTo_positions with (w := windowAt t options).
      * apply adjustedStep_positive; [apply len_nonneg | apply windowStep_positive].
      * intros i chunks. unfold windowAt. rewrite Emode. cbv zeta.
        eexists. split; [|destruct (_ && _); [left; reflexivity|right];
                          destruct (_ >=? windowLimit); [left|right]; reflexivity].
        reflexivity.
  - set (length := windowUnits t options).
    set (step := windowStep _ _).
    assert (Hs : 1 <= step) by apply windowStep_positive.
    assert (Hl : 0 <= length) by (unfold length, windowUnits; destruct (_ >? 200); apply len_nonneg).
    unfold windowLimit.
    destruct (Z.gtb_spec (ceilDiv length step) 100) as [H|H].
    + pose proof (ceilDiv_bounds length 100 ltac:(lia)). lia.
    + pose proof (ceilDiv_bounds length step ltac:(lia)). nia.
Qed.

Lemma slidingWindow_at_most_100_witness :
  let t := concat (repeat tenDigits 30) in
  let r := slidingWindowChunking t (sizeAndOverlap 201 200) in
  len (chunks r) <= windowLimit
  /\ nth_error (map text (chunks r)) 1 = Some (substring t 3 204)
  /\ len t <= windowLimit * 3.
Proof.
  cbv zeta.
  destruct (slidingWindow_at_most_100 (concat (repeat tenDigits 30)) (sizeAndOverlap 201 200))
    as [H1 [H2 H3]].
  split; [exact H1|]. split; [|exact H3].
  rewrite nth_error_map.
  destruct (nth_error (chunks (slidingWindowChunking (concat (repeat tenDigits 30))
                                 (sizeAndOverlap 201 200))) 1) as [c|] eqn:E.
  - cbn [option_map]. f_equal. rewrite (H2 1%nat c E). vm_compute. reflexivity.
  - vm_compute in E. discriminate.
Defined.

(* ------------------------------------------------------------------ *)
(** ** Semantic chunking without an API key *)

(** C6.  With no API key (absent, or the empty string, which is falsy)
    semantic chunking returns what the heuristic structural splitter returns
    on the same text and options; when the text has at most one paragraph that
    is the result of paragraph-based chunking. *)
Theorem semantic_without_key_is_heuristic provider t options :
  apiKey options = None \/ apiKey options = Some [] ->
  semanticChunking provider t options = heuristicSemanticChunking t options
  /\ (len (filter truthy (Regex.split Pat.blankLine t)) <= 1 ->
      semanticChunking provider t options = paragraphBasedChunking t options).
Proof.
  intros Hkey.
  assert (E : semanticChunking provider t options = heuristicSemanticChunking t options).
  { unfold semanticChunking. destruct Hkey as [-> | ->]; reflexivity. }
  split; [exact E|].
  intros Hone. rewrite E. unfold heuristicSemanticChunking.
  destruct (Z.leb_spec (len (filter truthy (Regex.split Pat.blankLine t))) 1); [reflexivity|lia].
Qed.

Lemma semantic_without_key_is_heuristic_witness :
  semanticChunking (fun _ _ => None) (str "One paragraph only.") noOptions
  = paragraphBasedChunking (str "One paragraph only.") noOptions.
Proof.
  destruct (semantic_without_key_is_heuristic (fun _ _ => None)
              (str "One paragraph only.") noOptions) as [_ H].
  - left. reflexivity.
  - apply H. vm_compute. discriminate.
Defined.

(* ------------------------------------------------------------------ *)
(** ** The ceiling [maxChunks] *)

(** C4.  Sentence-based chunking limits the sentences to
    [maxChunks * chunkSize] before grouping and has no stop at [maxChunks]
    chunks (paragraph-based and boundary-snapping chunking do).  With an
    overlap the step is smaller than the chunk size, and the four sentences
    that two chunks of two may take are grouped into four chunks. *)
Theorem sentenceBased_exceeds_maxChunks :
  let options := mkOptions (Some 2) (Some 1) None (Some 2) None None None in
  let r := sentenceBasedChunking 5 (str "One. Two. Three. Four.") options in
  textsOf r = Some [str "One. Two."; str "Two. Three."; str "Three. Four."; str "Four."]
  /\ countOf r = Some 4
  /\ maxChunks options = Some 2.
Proof. vm_compute. repeat split. Qed.

(** The clustering of [semanticChunking] stops as soon as no adjacent pair has
    an average similarity above -1; two paragraphs with opposite embeddings
    stay two chunks under [maxChunks = 1]. *)
Lemma semantic_exceeds_maxChunks :
  let opposite : Provider :=
    fun _ t => if string_eqb t (str "First topic.") then Some [1%float] else Some [(-1)%float] in
  countOf (Some (semanticChunking opposite twoParagraphs (withKey "k" (Some 1)))) = Some 2.
Proof. vm_compute. reflexivity. Qed.

(* ------------------------------------------------------------------ *)
(** ** Provider failures in semantic chunking *)

(** C7.  [getOpenAIEmbeddings] catches a failed request itself and returns a
    zero vector, so the [catch] of [semanticChunking] never sees it: with an
    API key, two paragraphs and a provider whose every request fails, the
    clustering runs on zero vectors and its result is returned, not the one of
    the heuristic structural splitter. *)
Theorem semantic_provider_failure_not_heuristic :
  let options := withKey "k" None in
  let r := semanticChunking failingProvider twoParagraphs options in
  map text (chunks r) = [twoParagraphs]
  /\ notes (analysis r)
     = str "Advanced semantic chunking with OpenAI embeddings identified 1 thematic sections using agglomerative clustering"
  /\ map text (chunks (heuristicSemanticChunking twoParagraphs options))
     = [Pat.LF :: str "Second topic."]
  /\ r <> heuristicSemanticChunking twoParagraphs options.
Proof.
  cbv zeta.
  assert (E1 : map text (chunks (semanticChunking failingProvider twoParagraphs (withKey "k" None)))
               = [twoParagraphs]) by (vm_compute; reflexivity).
  assert (E2 : map text (chunks (heuristicSemanticChunking twoParagraphs (withKey "k" None)))
               = [Pat.LF :: str "Second topic."]) by (vm_compute; reflexivity).
  split; [exact E1|]. split; [vm_compute; reflexivity|]. split; [exact E2|].
  intros E. rewrite E, E2 in E1. vm_compute in E1. discriminate.
Qed.

(** Semantic chunking always returns a result: a thrown error inside the
    [try] block leads to the heuristic splitter. *)
Lemma semantic_attempt_failure provider t options key :
  apiKey options = Some key -> truthy key = true ->
  1 < len (filter truthy (Regex.split Pat.blankLine t)) ->
  semanticTry provider key (filter truthy (Regex.split Pat.blankLine t)) options = None ->
  semanticChunking provider t options = heuristicSemanticChunking t options.
Proof.
  intros Hkey Htruthy Hmany Hthrow. unfold semanticChunking.
  rewrite Hkey, Htruthy.
  destruct (Z.leb_spec (len (filter truthy (Regex.split Pat.blankLine t))) 1); [lia|].
  rewrite Hthrow. reflexivity.
Qed.

(* ------------------------------------------------------------------ *)
(** ** Cosine similarity of a zero vector *)

(** [cosineSimilarity] of [chunking.ts] answers 0 when a norm is 0. *)
Lemma cosineSimilarity_zero_norm vecA vecB :
  length vecA = length vecB ->
  (PrimFloat.eqb (fold_left (fun sum a => PrimFloat.add sum (PrimFloat.mul a a)) vecA 0%float) 0 = true
   \/ PrimFloat.eqb (fold_left (fun sum b => PrimFloat.add sum (PrimFloat.mul b b)) vecB 0%float) 0 = true) ->
  cosineSimilarity vecA vecB = Some 0%float.
Proof.
  intros Hlen Hzero. unfold cosineSimilarity.
  rewrite Hlen, Nat.eqb_refl. cbn [negb].
  assert (G : forall l d nA nB,
    length (fst (split l)) = length l ->
    fold_left (fun '(dotProduct, normA, normB) '(a, b) =>
       (PrimFloat.add dotProduct (PrimFloat.mul a b), PrimFloat.add normA (PrimFloat.mul a a),
        PrimFloat.add normB (PrimFloat.mul b b))) l (d, nA, nB)
    = (fst (fst (fold_left (fun '(dotProduct, normA, normB) '(a, b) =>
         (PrimFloat.add dotProduct (PrimFloat.mul a b), PrimFloat.add normA (PrimFloat.mul a a),
          PrimFloat.add normB (PrimFloat.mul b b))) l (d, nA, nB))),
       fold_left (fun sum a => PrimFloat.add sum (PrimFloat.mul a a)) (map fst l) nA,
       fold_left (fun sum b => PrimFloat.add sum (PrimFloat.mul b b)) (map snd l) nB)).
  { induction l as [|[a b] l IH]; intros d nA nB Hl; [reflexivity|].
    simpl. rewrite IH at 1; [reflexivity|].
    rewrite <- (length_map fst). clear. induction l as [|[x y] l IH]; simpl; [reflexivity|].
    destruct (split l). simpl in *. congruence. }
  rewrite G.
  2:{ rewrite <- (length_map fst). generalize (combine vecA vecB). clear.
      induction l as [|[x y] l IH]; simpl; [reflexivity|].
      destruct (split l). simpl in *. congruence. }
  assert (Ha : map fst (combine vecA vecB) = vecA).
  { clear Hzero G. revert vecB Hlen. induction vecA as [|a vecA IH]; intros [|b vecB] Hlen;
      simpl in *; try reflexivity; try discriminate. f_equal. apply IH. congruence. }
  assert (Hb : map snd (combine vecA vecB) = vecB).
  { clear Hzero G Ha. revert vecB Hlen. induction vecA as [|a vecA IH]; intros [|b vecB] Hlen;
      simpl in *; try reflexivity; try discriminate. f_equal. apply IH. congruence. }
  rewrite Ha, Hb.
  destruct Hzero as [-> | ->]; [reflexivity|].
  rewrite orb_true_r. reflexivity.
Qed.

(** C9.  The ranker's [calculateCosineSimilarity] ([page.tsx]) divides by the
    product of the magnitudes without the zero test that [cosineSimilarity]
    of [chunking.ts] has: for the zero query vector [0] against the chunk
    embedding [1] it computes 0 / (0 * 1), which is NaN, and that NaN is the
    score of the query result; [cosineSimilarity] answers 0 on the same
    vectors. *)
Theorem ranker_zero_vector_score_is_nan :
  let c := mkEmbedded (mkChunk 0 (str "chunk") 1 5) (Some [1%float]) in
  Num.isNaN (calculateCosineSimilarity [0%float] [1%float]) = true
  /\ map (fun q => Num.isNaN (score q)) (findSimilarChunks [0%float] [c] 5) = [true]
  /\ cosineSimilarity [0%float] [1%float] = Some 0%float.
Proof. vm_compute. repeat split. Qed.

(* ------------------------------------------------------------------ *)
(** ** The fallback of the recursive splitter *)

(** Every result of [fixedLengthChunking] carries the notes of a plain
    fixed-length division. *)
Lemma fixedLength_notes fuel t options r :
  fixedLengthChunking fuel t options = Some r ->
  isPrefix (str "Text was divided into ") (notes (analysis r)) = true.
Proof.
  unfold fixedLengthChunking.
  destruct (_ || _).
  - destruct (isMode charactersMode (chunkingMode options)).
    + intros E. injection E as <-. reflexivity.
    + destruct (forLoop _ _ _ _ _ _); [|discriminate].
      intros E. injection E as <-. reflexivity.
  - destruct (forLoop _ _ _ _ _ _); [|discriminate].
    intros E. injection E as <-. reflexivity.
Qed.

(** The [catch] clause: a failure of the [try] block is answered by
    [fixedLengthChunking(text, options)]. *)
Lemma recursive_catch limit fuel t options :
  recursiveTry limit t options = None ->
  recursiveTextSplitter limit fuel t options = fixedLengthChunking fuel t options.
Proof. intros E. unfold recursiveTextSplitter. now rewrite E. Qed.

(* ------------------------------------------------------------------ *)
(** ** Sequential ids *)

Lemma numbered_nil : numbered [].
Proof. intros [|i] c H; discriminate. Qed.

Lemma numbered_snoc l c : numbered l -> id c = len l -> numbered (l ++ [c]).
Proof.
  intros Hl Hc i c' H.
  destruct (Nat.lt_ge_cases i (length l)) as [Hlt|Hge].
  - rewrite nth_error_app1 in H by assumption. now apply Hl.
  - rewrite nth_error_app2 in H by assumption.
    destruct (i - length l)%nat as [|k] eqn:E; simpl in H.
    + injection H as <-. rewrite Hc. unfold len. lia.
    + destruct k; discriminate.
Qed.

Lemma numbered_pushText l t : numbered l -> numbered (pushText l t).
Proof. intros H. apply numbered_snoc; [assumption|reflexivity]. Qed.

Lemma numbered_fold_pushText texts l :
  numbered l -> numbered (fold_left pushText texts l).
Proof.
  revert l. induction texts as [|t texts IH]; intros l H; simpl; [assumption|].
  apply IH, numbered_pushText, H.
Qed.

Lemma numbered_pushCopies sub l : numbered l -> numbered (pushCopies l sub).
Proof.
  unfold pushCopies. revert l.
  induction sub as [|c sub IH]; intros l H; simpl; [assumption|].
  apply IH, numbered_snoc; [assumption|reflexivity].
Qed.

Lemma foldIndexed_cons {A B} (g : Z -> A -> B) l k acc :
  foldIndexed (fun acc index x => g index x :: acc) l k acc = rev (mapFrom g k l) ++ acc.
Proof.
  revert k acc. induction l as [|x l IH]; intros k acc; simpl; [reflexivity|].
  rewrite IH, <- app_assoc. reflexivity.
Qed.

Lemma nth_error_mapFrom {A B} (g : Z -> A -> B) l k i y :
  nth_error (mapFrom g k l) i = Some y ->
  exists x, nth_error l i = Some x /\ y = g (k + Z.of_nat i) x.
Proof.
  revert k i. induction l as [|x l IH]; intros k [|i] H; simpl in *; try discriminate.
  - injection H as <-. exists x. split; [reflexivity|]. f_equal. lia.
  - destruct (IH _ _ H) as [x' [E ->]]. exists x'. split; [assumption|]. f_equal. lia.
Qed.

Lemma renumber_spec l :
  renumber l = mapFrom (fun index c => mkChunk index (text c) (tokens c) (characters c)) 0 l.
Proof.
  unfold renumber. rewrite foldIndexed_cons, app_nil_r. apply rev_involutive.
Qed.

Lemma numbered_renumber l : numbered (renumber l).
Proof.
  rewrite renumber_spec. intros i c H.
  destruct (nth_error_mapFrom _ _ _ _ _ H) as [x [_ ->]]. simpl. lia.
Qed.

Lemma toChunks_spec l :
  toChunks l = mapFrom (fun index t => mkChunk index t (countTokens t) (len t)) 0 l.
Proof.
  unfold toChunks. rewrite foldIndexed_cons, app_nil_r. apply rev_involutive.
Qed.

Lemma numbered_toChunks l : numbered (toChunks l).
Proof.
  rewrite toChunks_spec. intros i c H.
  destruct (nth_error_mapFrom _ _ _ _ _ H) as [x [_ ->]]. simpl. lia.
Qed.

(** An invariant of a bounded loop that holds at the start holds at the end,
    whatever the step. *)
Lemma forLoopUpTo_keeps {S} (P : S -> Prop) n step (body : Z -> S -> Ctl S) s :
  (forall i s, P s -> match body i s with Break s' => P s' | Next s' => P s' end) ->
  P s -> P (forLoopUpTo n step body s).
Proof.
  intros Hbody HP. unfold forLoopUpTo.
  destruct (forLoop _ n step body 0 s) as [r|] eqn:E; [|exact HP].
  simpl. eapply (forLoop_invariant n step body (fun _ => P) P); eauto.
  intros i s0 H _. apply Hbody, H.
Qed.

Lemma forLoop_keeps {S} (P : S -> Prop) n step (body : Z -> S -> Ctl S) fuel i s r :
  (forall i s, P s -> match body i s with Break s' => P s' | Next s' => P s' end) ->
  P s -> forLoop fuel n step body i s = Some r -> P r.
Proof.
  intros Hbody HP E.
  eapply (forLoop_invariant n step body (fun _ => P) P); eauto.
  intros j s0 H _. apply Hbody, H.
Qed.

Ltac numbered_body :=
  let i := fresh "i" in let s := fresh "s" in let H := fresh "H" in
  intros i s H; cbv beta zeta;
  repeat match goal with
         | |- context [if ?c then _ else _] => destruct c
         end;
  cbv beta iota;
  auto using numbered_pushText, numbered_snoc.

Lemma wellFormed_analyse l n : numbered l -> wellFormed (mkResult l (analyse l n)).
Proof. intros H. split; [exact H|reflexivity]. Qed.

Lemma fixedLengthChars_wellFormed t options : wellFormed (fixedLengthCharsChunking t options).
Proof.
  unfold fixedLengthCharsChunking. apply wellFormed_analyse.
  apply forLoopUpTo_keeps; [numbered_body|apply numbered_nil].
Qed.

Lemma fixedLength_wellFormed fuel t options r :
  fixedLengthChunking fuel t options = Some r -> wellFormed r.
Proof.
  unfold fixedLengthChunking.
  destruct (_ || _).
  - destruct (isMode charactersMode (chunkingMode options)).
    + intros E. injection E as <-. apply fixedLengthChars_wellFormed.
    + destruct (forLoop _ _ _ _ _ _) as [l|] eqn:E; [|discriminate].
      intros E'. injection E' as <-. apply wellFormed_analyse.
      eapply forLoop_keeps; [|apply numbered_nil|exact E]. numbered_body.
  - destruct (forLoop _ _ _ _ _ _) as [l|] eqn:E; [|discriminate].
    intros E'. injection E' as <-. apply wellFormed_analyse.
    eapply forLoop_keeps; [|apply numbered_nil|exact E]. numbered_body.
Qed.

Lemma sentenceBased_wellFormed fuel t options r :
  sentenceBasedChunking fuel t options = Some r -> wellFormed r.
Proof.
  unfold sentenceBasedChunking.
  destruct (forLoop _ _ _ _ _ _) as [l|] eqn:E; [|discriminate].
  intros E'. injection E' as <-. apply wellFormed_analyse.
  eapply forLoop_keeps; [|apply numbered_nil|exact E]. numbered_body.
Qed.

Lemma paragraphBased_wellFormed t options : wellFormed (paragraphBasedChunking t options).
Proof.
  unfold paragraphBasedChunking. apply wellFormed_analyse.
  apply forLoopUpTo_keeps; [numbered_body|apply numbered_nil].
Qed.

Lemma slidingWindow_wellFormed t options : wellFormed (slidingWindowChunking t options).
Proof.
  unfold slidingWindowChunking.
  destruct (_ >? 200); apply wellFormed_analyse;
    (apply forLoopUpTo_keeps; [numbered_body|apply numbered_nil]).
Qed.

Lemma heuristic_wellFormed t options : wellFormed (heuristicSemanticChunking t options).
Proof.
  unfold heuristicSemanticChunking.
  destruct (_ <=? 1); [apply paragraphBased_wellFormed|].
  destruct (_ =? 0); [apply paragraphBased_wellFormed|].
  apply wellFormed_analyse, numbered_renumber.
Qed.

Lemma addParagraph_numbered fuel maxTokens over acc paragraph out :
  addParagraph fuel maxTokens over acc paragraph = Some out ->
  (forall l, acc = Some l -> numbered l) -> numbered out.
Proof.
  unfold addParagraph. destruct acc as [l|]; [|discriminate].
  intros E H. specialize (H l eq_refl).
  destruct (_ <=? maxTokens).
  - injection E as <-. apply numbered_snoc; [assumption|reflexivity].
  - destruct (_ <=? maxTokens * 2).
    + destruct (sentenceBasedChunking _ _ _); [|discriminate].
      injection E as <-. now apply numbered_pushCopies.
    + injection E as <-. now apply numbered_pushCopies.
Qed.

Lemma fold_addParagraph_numbered fuel maxTokens over l acc out :
  fold_left (addParagraph fuel maxTokens over) l acc = Some out ->
  (forall l, acc = Some l -> numbered l) -> numbered out.
Proof.
  revert acc. induction l as [|p l IH]; intros acc E H; simpl in E.
  - now apply H.
  - apply (IH _ E). intros l' E'. eapply addParagraph_numbered; eauto.
Qed.

Lemma hybrid_wellFormed fuel t options r :
  hybridChunking fuel t options = Some r -> wellFormed r.
Proof.
  unfold hybridChunking.
  destruct (fold_left _ _ _) as [l|] eqn:E; [|discriminate].
  intros E'. injection E' as <-. apply wellFormed_analyse.
  destruct (len l >? 1); [apply numbered_renumber|].
  eapply fold_addParagraph_numbered; [exact E|].
  intros l' E'. injection E' as <-. apply numbered_nil.
Qed.

Lemma recursive_wellFormed limit fuel t options r :
  recursiveTextSplitter limit fuel t options = Some r -> wellFormed r.
Proof.
  unfold recursiveTextSplitter.
  destruct (recursiveTry limit t options) as [r'|] eqn:E.
  - intros E'. injection E' as <-. unfold recursiveTry in E.
    destruct (recursiveSplit _ _ _ _ _); [|discriminate].
    injection E as <-. apply wellFormed_analyse, numbered_toChunks.
  - apply fixedLength_wellFormed.
Qed.

Lemma semanticTry_wellFormed provider key paragraphs options r :
  semanticTry provider key paragraphs options = Some r -> wellFormed r.
Proof.
  unfold semanticTry.
  destruct (similarityMatrixOf _); [|discriminate].
  match goal with |- context [if ?c then ?a else ?b] => destruct (if c then a else b) end;
    [|discriminate].
  intros E. injection E as <-.
  split; [|reflexivity]. cbn [chunks]. apply numbered_fold_pushText, numbered_nil.
Qed.

Lemma semantic_wellFormed provider t options : wellFormed (semanticChunking provider t options).
Proof.
  unfold semanticChunking.
  destruct (apiKey options) as [key|]; [|apply heuristic_wellFormed].
  destruct (truthy key); [|apply heuristic_wellFormed].
  destruct (_ <=? 1)%Z; [apply paragraphBased_wellFormed|].
  destruct (semanticTry _ _ _ _) eqn:E; [|apply heuristic_wellFormed].
  eapply semanticTry_wellFormed, E.
Qed.

Lemma setNotes_wellFormed r n : wellFormed r -> wellFormed (setNotes r n).
Proof. intros [H1 H2]. split; assumption. Qed.

Lemma agentic_wellFormed fuel t options r :
  agenticChunking fuel t options = Some r -> wellFormed r.
Proof.
  unfold agenticChunking.
  match goal with |- match ?sel with _ => _ end = _ -> _ => destruct sel as [[r'|] d] eqn:E end;
    [|discriminate].
  intros E'. injection E' as <-. apply setNotes_wellFormed.
  repeat match type of E with
         | (if ?c then _ else _) = _ => destruct c
         end;
    injection E as E _; try subst r';
    eauto using paragraphBased_wellFormed, sentenceBased_wellFormed, hybrid_wellFormed,
      slidingWindow_wellFormed, heuristic_wellFormed.
Qed.

(** C3.  Whatever the strategy, the text and the options, a returned result
    has [chunks[i].id = i] at every index [i], and [analysis.totalChunks] is
    the number of chunks. *)
Theorem ids_are_sequential env fuel t method options r :
  chunkTextAsync env fuel t method options = Some r ->
  (forall i c, nth_error (chunks r) i = Some c -> id c = Z.of_nat i)
  /\ totalChunks (analysis r) = len (chunks r).
Proof.
  intros E. change (wellFormed r).
  destruct method; simpl in E;
    try (injection E as <-);
    eauto using fixedLength_wellFormed, fixedLengthChars_wellFormed, recursive_wellFormed,
      sentenceBased_wellFormed, paragraphBased_wellFormed, slidingWindow_wellFormed,
      semantic_wellFormed, hybrid_wellFormed, agentic_wellFormed.
Qed.

Lemma ids_are_sequential_witness :
  match chunkTextAsync (mkEnvironment None failingProvider) 5
          (str "a b c d e f g h i j") fixed_length (sizeAndOverlap 5 0) with
  | Some r =>
      (forall i c, nth_error (chunks r) i = Some c -> id c = Z.of_nat i)
      /\ totalChunks (analysis r) = len (chunks r)
  | None => False
  end.
Proof.
  destruct (chunkTextAsync (mkEnvironment None failingProvider) 5
              (str "a b c d e f g h i j") fixed_length (sizeAndOverlap 5 0)) as [r|] eqn:E.
  - exact (ids_are_sequential _ _ _ _ _ _ E).
  - vm_compute in E. discriminate.
Defined.

(* ------------------------------------------------------------------ *)
(** ** Coverage of the windowed grouping loops *)

Lemma slice_window {A} (l : list A) i size :
  0 <= i -> 0 <= size ->
  slice l i (i + size) = firstn (Z.to_nat size) (skipn (Z.to_nat i) l).
Proof.
  intros Hi Hs. unfold slice, relIndex.
  destruct (Z.ltb_spec i 0); [lia|]. destruct (Z.ltb_spec (i + size) 0); [lia|].
  destruct (Z.le_gt_cases (len l) i) as [Hout|Hin].
  - rewrite !skipn_all2 by (unfold len in *; lia). now rewrite !firstn_nil.
  - replace (Z.to_nat (Z.min i (len l))) with (Z.to_nat i) by lia.
    destruct (Z.le_gt_cases (i + size) (len l)).
    + f_equal. lia.
    + rewrite !firstn_all2; try reflexivity; rewrite length_skipn; unfold len in *; lia.
Qed.


Lemma firstn_then_more {A} (l : list A) a b :
  firstn a l ++ firstn b (skipn a l) = firstn (a + b) l.
Proof.
  revert l. induction a as [|a IH]; intros l; [reflexivity|].
  destruct l as [|x l]; simpl.
  - now rewrite firstn_nil.
  - now rewrite IH.
Qed.

Section Windows.

Context {A : Type}.
Variables (units : list A) (size step : Z).
Variables (cut : Z -> list A) (tiny : list A -> bool).
Variables (mk : list Chunk -> list A -> Chunk) (render : list A -> string).

Hypothesis step_bounds : 1 <= step <= size.
Hypothesis cut_spec :
  forall i, 0 <= i -> cut i = firstn (Z.to_nat size) (skipn (Z.to_nat i) units).
Hypothesis tiny_spec : forall w, tiny w = true -> len w * 4 < size.
Hypothesis mk_text : forall chunks w, text (mk chunks w) = render w.

#[local] Abbreviation loopBody := (windowBody cut tiny mk).
#[local] Abbreviation windows := (windowsUpTo cut step).

Lemma windowsUpTo_S m :
  windows (S m) = windows m ++ [cut (Z.of_nat m * step)].
Proof. unfold windowsUpTo. now rewrite seq_S, map_app. Qed.

Lemma window_loop fuel r :
  forLoop fuel (len units) step loopBody 0 [] = Some r ->
  exists m, map text r = map render (windows m)
            /\ (len units <= Z.of_nat m * step \/ tiny (cut (Z.of_nat m * step)) = true).
Proof.
  intros Hrun.
  refine (forLoop_invariant (len units) step loopBody
           (fun i chunks => exists m, i = Z.of_nat m * step
                                      /\ map text chunks = map render (windows m))
           (fun chunks => exists m, map text chunks = map render (windows m)
              /\ (len units <= Z.of_nat m * step \/ tiny (cut (Z.of_nat m * step)) = true))
           _ _ fuel 0 [] r _ Hrun).
  - intros i chunks [m [-> Hm]] Hlt. unfold windowBody.
    destruct (tiny (cut (Z.of_nat m * step))) eqn:Etiny; cbn [andb].
    + destruct (len chunks >? 0).
      * exists m. auto.
      * exists (S m). split; [lia|].
        rewrite map_app, windowsUpTo_S, map_app, Hm. cbn [map]. now rewrite mk_text.
    + exists (S m). split; [lia|].
      rewrite map_app, windowsUpTo_S, map_app, Hm. cbn [map]. now rewrite mk_text.
  - intros i chunks [m [-> Hm]] Hge. exists m. auto.
  - exists O. split; reflexivity.
Qed.




End Windows.







(* ------------------------------------------------------------------ *)
(** ** Literal patterns: [split] and the global [replace] with [''] *)

Lemma isPrefix_length p s : isPrefix p s = true -> (length p <= length s)%nat.
Proof.
  revert s. induction p as [|a p IH]; intros [|b s] H; simpl in *; try lia; try discriminate.
  apply andb_true_iff in H. destruct H as [_ H]. apply IH in H. lia.
Qed.

Lemma isPrefix_split p s : isPrefix p s = true -> s = p ++ skipn (length p) s.
Proof.
  revert s. induction p as [|a p IH]; intros [|b s] H; simpl in *; try reflexivity;
    try discriminate.
  apply andb_true_iff in H. destruct H as [E H]. apply N.eqb_eq in E. subst b.
  f_equal. now apply IH.
Qed.

Lemma isPrefix_more p s y : isPrefix p s = true -> isPrefix p (s ++ y) = true.
Proof.
  revert s. induction p as [|a p IH]; intros [|b s] H; simpl in *; try reflexivity;
    try discriminate.
  apply andb_true_iff in H. destruct H as [E H]. rewrite E. now apply IH.
Qed.

Lemma run_lit (A : Type) p :
  p <> [] ->
  forall b s (k : string -> string -> option A),
  Regex.run A (Regex.lit p) b s k
  = if isPrefix p s
    then k (rev (firstn (length p) s) ++ b) (skipn (length p) s)
    else None.
Proof.
  induction p as [|a p IH]; intros Hp b s k; [congruence|].
  destruct p as [|a' p].
  - destruct s as [|c s]; simpl; [reflexivity|].
    rewrite andb_true_r. destruct (N.eqb a c); reflexivity.
  - change (Regex.lit (a :: a' :: p))
      with (Regex.Seq (Regex.lit1 a) (Regex.lit (a' :: p))).
    destruct s as [|c s]; [reflexivity|].
    cbn [Regex.run Regex.lit1]. change (isPrefix (a :: a' :: p) (c :: s))
      with (N.eqb a c && isPrefix (a' :: p) s).
    destruct (N.eqb a c); [|reflexivity]. cbn [andb].
    rewrite IH by discriminate.
    destruct (isPrefix (a' :: p) s); [|reflexivity].
    cbn [length firstn skipn rev]. now rewrite <- app_assoc.
Qed.

Lemma matchAt_lit p b s :
  p <> [] ->
  Regex.matchAt (Regex.lit p) b s = if isPrefix p s then Some (length p) else None.
Proof.
  intros Hp. unfold Regex.matchAt. rewrite run_lit by assumption.
  destruct (isPrefix p s) eqn:E; [|reflexivity].
  apply isPrefix_length in E. rewrite length_skipn. f_equal. lia.
Qed.

Lemma skipn_app_left {A} n (l1 l2 : list A) :
  (n <= length l1)%nat -> skipn n (l1 ++ l2) = skipn n l1 ++ l2.
Proof.
  intros H. rewrite skipn_app. replace (n - length l1)%nat with O by lia. reflexivity.
Qed.

Lemma isPrefix_nil (p : string) : p <> [] -> isPrefix p [] = false.
Proof. destruct p; [congruence|reflexivity]. Qed.

Lemma join_cons sep x l : l <> [] -> join sep (x :: l) = x ++ sep ++ join sep l.
Proof. destruct l; [congruence|reflexivity]. Qed.

Lemma splitFrom_nonempty p skip cur b s : Regex.splitFrom (Regex.lit p) skip cur b s <> [].
Proof.
  revert skip cur b. induction s as [|c s IH]; intros skip cur b; simpl; [discriminate|].
  destruct skip; [|apply IH].
  destruct (Regex.matchAt (Regex.lit p) b (c :: s)) as [[|n]|]; try discriminate; [|apply IH].
  destruct cur; [apply IH|discriminate].
Qed.

(** [s.split(p).join(p)] is [s]. *)
Lemma splitFrom_join p skip cur b s :
  p <> [] ->
  join p (Regex.splitFrom (Regex.lit p) skip cur b s) = rev cur ++ skipn skip s.
Proof.
  intros Hp. revert skip cur b. induction s as [|c s IH]; intros skip cur b.
  - simpl. now rewrite skipn_nil, app_nil_r.
  - cbn [Regex.splitFrom]. destruct skip as [|k]; [|apply IH].
    rewrite matchAt_lit by assumption.
    destruct (isPrefix p (c :: s)) eqn:E.
    + pose proof (isPrefix_split _ _ E) as E'.
      destruct (length p) as [|n] eqn:L; [destruct p; [congruence|discriminate]|].
      rewrite join_cons by apply splitFrom_nonempty.
      rewrite IH. cbn [rev app skipn] in *. now rewrite <- E'.
    + rewrite IH. cbn [rev skipn]. now rewrite <- app_assoc.
Qed.

(** [s.replace(/p/g, '')] is [s.split(p).join('')]. *)
Lemma replaceFrom_concat p skip cur b s :
  p <> [] ->
  rev cur ++ Regex.replaceFrom (Regex.lit p) (fun _ => []) skip b s
  = concat (Regex.splitFrom (Regex.lit p) skip cur b s).
Proof.
  intros Hp. revert skip cur b. induction s as [|c s IH]; intros skip cur b.
  - cbn [Regex.splitFrom Regex.replaceFrom concat].
    destruct skip; [|reflexivity].
    rewrite matchAt_lit, isPrefix_nil by assumption. reflexivity.
  - cbn [Regex.splitFrom Regex.replaceFrom]. destruct skip as [|k]; [|apply IH].
    rewrite matchAt_lit by assumption.
    destruct (isPrefix p (c :: s)) eqn:E.
    + destruct (length p) as [|n] eqn:L; [destruct p; [congruence|discriminate]|].
      cbn [concat app]. rewrite <- IH. reflexivity.
    + rewrite <- IH. cbn [rev]. now rewrite <- app_assoc.
Qed.

Lemma includes_false p x :
  (forall j, (j <= length x)%nat -> isPrefix p (skipn j x) = false) -> includes x p = false.
Proof.
  induction x as [|c x IH]; intros H.
  - pose proof (H O (Nat.le_refl _)) as H0. cbn [skipn includes] in *.
    now rewrite H0.
  - pose proof (H O (Nat.le_0_l _)) as H0. cbn [skipn includes] in *.
    rewrite H0. cbn [orb].
    apply IH. intros j Hj. apply (H (S j)). simpl. lia.
Qed.

Lemma piece_free p cur s :
  p <> [] ->
  (forall j, (j < length cur)%nat -> isPrefix p (skipn j (rev cur ++ s)) = false) ->
  includes (rev cur) p = false.
Proof.
  intros Hp H. apply includes_false. intros j Hj. rewrite length_rev in Hj.
  destruct (Nat.eq_dec j (length cur)) as [->|Hne].
  - rewrite skipn_all2 by (rewrite length_rev; lia). now apply isPrefix_nil.
  - destruct (isPrefix p (skipn j (rev cur))) eqn:E; [|reflexivity].
    apply isPrefix_more with (y := s) in E.
    rewrite <- skipn_app_left in E by (rewrite length_rev; lia).
    rewrite H in E by lia. discriminate.
Qed.

(** No piece of the split contains [p]. *)
Lemma splitFrom_free p skip cur b s :
  p <> [] ->
  (skip <> O -> cur = []) ->
  (forall j, (j < length cur)%nat -> isPrefix p (skipn j (rev cur ++ s)) = false) ->
  Forall (fun x => includes x p = false) (Regex.splitFrom (Regex.lit p) skip cur b s).
Proof.
  intros Hp. revert skip cur b. induction s as [|c s IH]; intros skip cur b Hskip H.
  - constructor; [|constructor]. eapply piece_free; eauto.
  - cbn [Regex.splitFrom]. destruct skip as [|k].
    + rewrite matchAt_lit by assumption.
      destruct (isPrefix p (c :: s)) eqn:E.
      * destruct (length p) as [|n] eqn:L; [destruct p; [congruence|discriminate]|].
        constructor; [eapply piece_free; eauto|].
        apply IH; [reflexivity|]. simpl. intros j Hj. lia.
      * apply IH; [congruence|].
        intros j Hj. cbn [rev length] in *. rewrite <- app_assoc. cbn [app].
        destruct (Nat.eq_dec j (length cur)) as [->|Hne].
        -- rewrite skipn_app_left by (rewrite length_rev; lia).
           rewrite skipn_all2 by (rewrite length_rev; lia). exact E.
        -- apply H. lia.
    + rewrite (Hskip ltac:(discriminate)). apply IH; [reflexivity|].
      simpl. intros j Hj. lia.
Qed.

(** [s.replace(/p/g, '')] takes the occurrences of [p] that a scan from the
    left finds out of [s], and leaves the pieces between them, none of which
    contains [p]. *)
Lemma replaceAll_literal p s :
  p <> [] ->
  s = join p (splitOn p s)
  /\ Forall (fun x => includes x p = false) (splitOn p s)
  /\ Regex.replaceAll (Regex.lit p) (fun _ => []) s = concat (splitOn p s).
Proof.
  intros Hp.
  assert (E : splitOn p s = Regex.splitFrom (Regex.lit p) 0 [] [] s)
    by (destruct p; [congruence|reflexivity]).
  rewrite E. unfold Regex.replaceAll.
  split; [|split].
  - now rewrite splitFrom_join.
  - apply splitFrom_free; [assumption|congruence|]. simpl. intros j Hj. lia.
  - now rewrite <- replaceFrom_concat.
Qed.

(* ------------------------------------------------------------------ *)
(** ** The markers of sentence-based chunking *)

Lemma PLACEHOLDER_nonempty : PLACEHOLDER <> [].
Proof. discriminate. Qed.

Lemma DECIMAL_nonempty : DECIMAL <> [].
Proof. discriminate. Qed.

(** [postprocessText] takes out the occurrences of [_PLACEHOLDER_] that a scan
    from the left finds, then those of [_DECIMAL_] in what is left; neither
    pass looks at its own output again. *)
Lemma postprocessText_pieces raw :
  let kept := splitOn PLACEHOLDER raw in
  let kept' := splitOn DECIMAL (concat kept) in
  raw = join PLACEHOLDER kept
  /\ Forall (fun x => includes x PLACEHOLDER = false) kept
  /\ concat kept = join DECIMAL kept'
  /\ Forall (fun x => includes x DECIMAL = false) kept'
  /\ postprocessText raw = concat kept'.
Proof.
  cbv zeta.
  destruct (replaceAll_literal PLACEHOLDER raw PLACEHOLDER_nonempty) as [H1 [H2 H3]].
  destruct (replaceAll_literal DECIMAL (concat (splitOn PLACEHOLDER raw)) DECIMAL_nonempty)
    as [H4 [H5 H6]].
  repeat (split; [assumption|]).
  unfold postprocessText. now rewrite H3, H6.
Qed.

Lemma addParagraphSentences_processed acc paragraph :
  Forall processed acc -> Forall processed (addParagraphSentences acc paragraph).
Proof.
  intros H. unfold addParagraphSentences.
  assert (Hone : Forall processed [postprocessText paragraph])
    by (constructor; [now exists paragraph|constructor]).
  destruct (negb _); [now apply Forall_app|].
  destruct (_ =? 0); [now apply Forall_app|].
  apply Forall_app. split; [assumption|].
  apply Forall_forall. intros s Hs. apply filter_In in Hs. destruct Hs as [Hs _].
  apply in_map_iff in Hs. destruct Hs as [x [<- _]]. now exists (trim x).
Qed.

Lemma addParagraphSentences_grows acc paragraph :
  (length acc < length (addParagraphSentences acc paragraph))%nat.
Proof.
  unfold addParagraphSentences.
  destruct (negb _); [rewrite length_app; simpl; lia|].
  destruct (Z.eqb_spec (len (filter truthy
    (map (fun s => postprocessText (trim s)) (Regex.split Pat.sentenceRegex paragraph)))) 0)
    as [E|E]; rewrite length_app; [simpl; lia|].
  unfold len in E. lia.
Qed.

Lemma fold_addParagraphSentences paragraphs acc :
  Forall processed acc ->
  Forall processed (fold_left addParagraphSentences paragraphs acc)
  /\ (paragraphs <> [] -> fold_left addParagraphSentences paragraphs acc <> []).
Proof.
  revert acc. induction paragraphs as [|p l IH]; intros acc H; simpl.
  - split; [assumption|congruence].
  - destruct (IH _ (addParagraphSentences_processed acc p H)) as [H1 H2].
    split; [assumption|]. intros _.
    destruct l as [|q l]; [|apply H2; discriminate].
    simpl. pose proof (addParagraphSentences_grows acc p).
    destruct (addParagraphSentences acc p); [simpl in *; lia|discriminate].
Qed.

(** Every sentence has gone through [postprocessText]; the only exception is
    the text itself, when it has no paragraph at all. *)
Lemma splitSentences_processed t s :
  In s (splitSentences t) ->
  processed s
  \/ (s = t /\ filter truthy (Regex.split Pat.blankLine (preprocessText t)) = []).
Proof.
  unfold splitSentences.
  destruct (fold_addParagraphSentences
              (filter truthy (Regex.split Pat.blankLine (preprocessText t))) []
              (Forall_nil _)) as [H1 H2].
  destruct (Z.eqb_spec (len (fold_left addParagraphSentences
              (filter truthy (Regex.split Pat.blankLine (preprocessText t))) [])) 0) as [E|E].
  - intros [<-|[]]. right. split; [reflexivity|].
    destruct (filter truthy (Regex.split Pat.blankLine (preprocessText t))) as [|p l] eqn:Ep;
      [reflexivity|].
    exfalso. apply H2; [discriminate|].
    destruct (fold_left addParagraphSentences (p :: l) []); [reflexivity|].
    unfold len in E. simpl in E. lia.
  - intros Hs. left. eapply Forall_forall in H1; eauto.
Qed.

Lemma In_firstn {A} (x : A) n l : In x (firstn n l) -> In x l.
Proof.
  revert l. induction n as [|n IH]; intros [|y l] H; simpl in *; try contradiction.
  destruct H as [H|H]; [now left|right; now apply IH].
Qed.

Lemma In_skipn {A} (x : A) n l : In x (skipn n l) -> In x l.
Proof.
  revert l. induction n as [|n IH]; intros [|y l] H; simpl in *; try assumption.
  right. now apply IH.
Qed.

Lemma In_slice {A} (x : A) l a b : In x (slice l a b) -> In x l.
Proof. unfold slice. intros H. eapply In_skipn, In_firstn, H. Qed.

(** Every chunk of sentence-based chunking is a space-join of sentences. *)
Lemma sentenceBased_chunks_of_sentences fuel t options r c :
  sentenceBasedChunking fuel t options = Some r -> In c (chunks r) ->
  exists sentences,
    text c = join (str " ") sentences /\ forall s, In s sentences -> In s (splitSentences t).
Proof.
  unfold sentenceBasedChunking.
  set (size := orDefault 5 (chunkSize options)).
  set (all := splitSentences t).
  set (kept := slice all 0 _).
  destruct (forLoop _ _ _ _ _ _) as [l|] eqn:E; [|discriminate].
  intros E' Hc. injection E' as <-. cbn [chunks] in Hc.
  pose (cut := fun i => slice kept i (i + size)).
  pose (tiny := fun w : list string => (len w <? 1) || (len w * 4 <? size)).
  pose (mk := fun (chunks : list Chunk) (w : list string) =>
                mkChunk (len chunks) (join (str " ") w) (countTokens (join (str " ") w))
                  (len (join (str " ") w))).
  destruct (window_loop kept _ cut tiny mk (join (str " ")) (fun _ _ => eq_refl) fuel l E)
    as [m [Hm _]].
  apply (in_map text) in Hc. rewrite Hm in Hc.
  apply in_map_iff in Hc. destruct Hc as [w [Hw Hin]].
  exists w. split; [now symmetry|].
  unfold windowsUpTo in Hin. apply in_map_iff in Hin. destruct Hin as [j [<- _]].
  intros s Hs. unfold cut in Hs. apply In_slice in Hs. unfold kept in Hs.
  now apply In_slice in Hs.
Qed.

(** C10.  [postprocessText] deletes the markers with one global [replace]
    each, which does not look at its own output again.  In the text
    ["_PLACE_PLACEHOLDER_HOLDER_"] the deletion of the marker in the middle
    brings its two sides together: the one chunk that sentence-based chunking
    returns has the text ["_PLACEHOLDER_"], the marker itself. *)
Lemma placeholder_survives_deletion :
  includes (str "_PLACE_PLACEHOLDER_HOLDER_") PLACEHOLDER = true
  /\ textsOf (sentenceBasedChunking 2 (str "_PLACE_PLACEHOLDER_HOLDER_") noOptions)
     = Some [str "_PLACEHOLDER_"]
  /\ includes (str "_PLACEHOLDER_") PLACEHOLDER = true.
Proof. vm_compute. repeat split. Qed.

(* ------------------------------------------------------------------ *)
(** ** Where [maxChunks] is a ceiling *)

Lemma forLoopUpTo_bound {S} (P Q : S -> Prop) n step (body : Z -> S -> Ctl S) s :
  (forall i s, P s -> match body i s with Break s' => Q s' | Next s' => P s' end) ->
  (forall s, P s -> Q s) ->
  P s -> Q (forLoopUpTo n step body s).
Proof.
  intros Hbody HPQ HP. unfold forLoopUpTo.
  destruct (forLoop _ n step body 0 s) as [r|] eqn:E; [|apply HPQ, HP].
  simpl. eapply (forLoop_invariant n step body (fun _ => P) Q); eauto.
  intros i s0 H _. apply Hbody, H.
Qed.

Ltac ceiling_body m :=
  let i := fresh "i" in let s := fresh "s" in let H := fresh "H" in
  intros i s H; cbv beta zeta in H |- *;
  match goal with |- context [if ?c then Break s else _] => destruct c end;
  cbv beta iota; [lia|];
  rewrite ?len_pushText;
  match goal with |- context [(?a >? 0) && (?x >=? ?y)] =>
    destruct (Z.gtb_spec a 0); [|lia]; destruct (Z.geb_spec x y)
  end;
  cbn [andb]; cbv beta iota; rewrite ?len_pushText; lia.

Lemma paragraphBased_within_maxChunks t options m :
  maxChunks options = Some m -> 0 < m ->
  len (chunks (paragraphBasedChunking t options)) <= m.
Proof.
  intros Hm Hpos. unfold paragraphBasedChunking. cbn [chunks]. rewrite Hm. cbn [orDefault].
  apply forLoopUpTo_bound with (P := fun s => len s < m) (Q := fun s => len s <= m);
    [ceiling_body m | intros; lia | rewrite len_nil; lia].
Qed.

Lemma fixedLengthChars_within_maxChunks t options m :
  maxChunks options = Some m -> 0 < m ->
  len (chunks (fixedLengthCharsChunking t options)) <= m.
Proof.
  intros Hm Hpos. unfold fixedLengthCharsChunking. cbn [chunks]. rewrite Hm. cbn [orDefault].
  apply forLoopUpTo_bound with (P := fun s => len s < m) (Q := fun s => len s <= m);
    [ceiling_body m | intros; lia | rewrite len_nil; lia].
Qed.

Lemma len_slice_prefix {A} (l : list A) m : 0 <= m -> len (slice l 0 m) <= m.
Proof.
  intros Hm. unfold slice, relIndex.
  destruct (Z.ltb_spec m 0); [lia|]. destruct (Z.ltb_spec 0 0); [lia|].
  unfold len. rewrite length_firstn. lia.
Qed.

Lemma len_mapFrom {A B} (g : Z -> A -> B) k l : len (mapFrom g k l) = len l.
Proof.
  revert k. induction l as [|x l IH]; intros k; [reflexivity|].
  cbn [mapFrom]. rewrite !len_cons, IH. reflexivity.
Qed.

Lemma heuristic_within_maxChunks t options m :
  maxChunks options = Some m -> 0 < m ->
  len (chunks (heuristicSemanticChunking t options)) <= m.
Proof.
  intros Hm Hpos. unfold heuristicSemanticChunking.
  destruct (_ <=? 1); [now apply paragraphBased_within_maxChunks|].
  destruct (_ =? 0); [now apply paragraphBased_within_maxChunks|].
  cbn [chunks]. rewrite Hm. cbn [orDefault]. rewrite renumber_spec, len_mapFrom.
  destruct (Z.gtb_spec m 0); [|lia]. cbn [andb].
  match goal with |- context [?x >? m] => destruct (Z.gtb_spec x m) end.
  - apply len_slice_prefix. lia.
  - assumption.
Qed.

(** The recursive splitter cuts its list at [maxChunks] when the [try] block
    succeeds (the fixed-length fallback does not look at [maxChunks]). *)
Lemma recursiveTry_within_maxChunks limit t options m r :
  maxChunks options = Some m -> 0 < m ->
  recursiveTry limit t options = Some r -> len (chunks r) <= m.
Proof.
  intros Hm Hpos. unfold recursiveTry. rewrite Hm. cbn [orDefault].
  destruct (recursiveSplit _ _ _ _ _); [|discriminate].
  intros E. injection E as <-. cbn [chunks]. rewrite toChunks_spec, len_mapFrom.
  destruct (Z.gtb_spec m 0); [|lia]. cbn [andb].
  match goal with |- context [?x >? m] => destruct (Z.gtb_spec x m) end.
  - apply len_slice_prefix. lia.
  - assumption.
Qed.

(* ------------------------------------------------------------------ *)
(** ** The tokenizer *)

(** The greedy star of [\s+] runs to the end of the white space. *)
Lemma run_star_space (A : Type) (k : string -> string -> option A) b s :
  (forall b' s', k b' s' <> None) ->
  Regex.run A (Regex.Star Regex.space) b s k
  = k (rev (firstn (length s - length (dropWhile isSpace s)) s) ++ b) (dropWhile isSpace s).
Proof.
  intros Hk. cbn [Regex.run].
  assert (G : forall fuel b s, (length s <= fuel)%nat ->
    (fix star (fuel : nat) (b s : string) {struct fuel} : option A :=
       match fuel with
       | O => k b s
       | S f =>
           Regex.orElse
             (Regex.run A Regex.space b s (fun b' s' =>
                if (length s' <? length s)%nat then star f b' s' else None))
             (k b s)
       end) fuel b s
    = k (rev (firstn (length s - length (dropWhile isSpace s)) s) ++ b) (dropWhile isSpace s)).
  { clear b s. induction fuel as [|fuel IH]; intros b s Hlen.
    - destruct s; [reflexivity|simpl in Hlen; lia].
    - destruct s as [|c s']; [reflexivity|].
      cbn [Regex.run Regex.space dropWhile].
      destruct (isSpace c) eqn:Ec.
      + assert (L : (length s' <? length (c :: s'))%nat = true)
          by (apply Nat.ltb_lt; cbn [length]; lia).
        rewrite L. rewrite IH by (simpl in Hlen; lia).
        assert (D : (length (dropWhile isSpace s') <= length s')%nat).
        { clear. induction s' as [|x s' IH]; simpl; [lia|]. destruct (isSpace x); simpl; lia. }
        replace (length (c :: s') - length (dropWhile isSpace s'))%nat
          with (S (length s' - length (dropWhile isSpace s'))) by (cbn [length]; lia).
        cbn [firstn rev]. rewrite <- app_assoc. cbn [app].
        destruct (k _ _) eqn:Ek; [reflexivity|]. exfalso. eapply Hk, Ek.
      + cbn [Regex.orElse]. rewrite Nat.sub_diag. reflexivity. }
  apply G. lia.
Qed.

Lemma len_dropWhile_le {A} (p : A -> bool) l : (length (dropWhile p l) <= length l)%nat.
Proof.
  induction l as [|x l IH]; simpl; [lia|]. destruct (p x); simpl; lia.
Qed.

(** [\s+] at a position: the length of the white space there. *)
Lemma matchAt_spaces b s :
  Regex.matchAt (Regex.Plus Regex.space) b s
  = match s with
    | c :: s' =>
        if isSpace c then Some (S (length s' - length (dropWhile isSpace s'))) else None
    | [] => None
    end.
Proof.
  unfold Regex.matchAt, Regex.Plus. 
  destruct s as [|c s']; [reflexivity|].
  change (Regex.run nat (Regex.Seq Regex.space (Regex.Star Regex.space)) b (c :: s')
            (fun _ s'0 => Some (length (c :: s') - length s'0)%nat))
    with (if isSpace c then
            Regex.run nat (Regex.Star Regex.space) (c :: b) s'
              (fun _ s'0 => Some (length (c :: s') - length s'0)%nat)
          else None).
  destruct (isSpace c); [|reflexivity].
  rewrite run_star_space by discriminate.
  f_equal. pose proof (len_dropWhile_le isSpace s'). cbn [length]. lia.
Qed.

Lemma truthy_rev (cur : string) :
  truthy (rev cur) = match cur with [] => false | _ :: _ => true end.
Proof.
  destruct cur as [|x cur]; [reflexivity|].
  unfold truthy, string_eqb. destruct (list_eq_dec N.eq_dec (rev (x :: cur)) []) as [E|E];
    [|reflexivity].
  apply (f_equal (@length N)) in E. rewrite length_rev in E. discriminate.
Qed.

Lemma truthy_cons c (s : string) : truthy (c :: s) = true.
Proof.
  unfold truthy, string_eqb. destruct (list_eq_dec N.eq_dec (c :: s) []); [discriminate|reflexivity].
Qed.

(** Splitting on [\s+] and dropping the empty pieces gives the words. *)
Lemma split_spaces s : forall skip cur b,
  (skip <= length s - length (dropWhile isSpace s))%nat ->
  (skip <> O -> cur = []) ->
  filter truthy (Regex.splitFrom (Regex.Plus Regex.space) skip cur b s) = wordsFrom cur s.
Proof.
  induction s as [|c s' IH]; intros skip cur b Hskip Hcur.
  - cbn [Regex.splitFrom wordsFrom filter]. rewrite truthy_rev. destruct cur; reflexivity.
  - pose proof (len_dropWhile_le isSpace s') as D.
    cbn [Regex.splitFrom wordsFrom]. destruct skip as [|k].
    + rewrite matchAt_spaces. destruct (isSpace c) eqn:Ec.
      * cbn [filter]. rewrite truthy_rev, IH by (lia || reflexivity).
        destruct cur; reflexivity.
      * apply IH; [lia|congruence].
    + rewrite (Hcur ltac:(discriminate)).
      cbn [dropWhile length] in Hskip. destruct (isSpace c) eqn:Ec.
      * apply IH; [lia|reflexivity].
      * cbn [length] in Hskip. lia.
Qed.

Lemma tokenize_words t : tokenize t = wordsFrom [] t.
Proof. unfold tokenize, Regex.split. apply split_spaces; [lia|reflexivity]. Qed.

(** What [wordsFrom] does at white space. *)
Lemma wordsFrom_app cur a c b :
  isSpace c = true ->
  wordsFrom cur (a ++ c :: b) = wordsFrom cur a ++ wordsFrom [] b.
Proof.
  intros Hc. revert cur. induction a as [|x a IH]; intros cur.
  - cbn [app wordsFrom]. rewrite Hc. destruct cur; reflexivity.
  - cbn [app wordsFrom]. destruct (isSpace x); [destruct cur|]; rewrite IH; reflexivity.
Qed.

Lemma wordsFrom_white w b : isWhite w = true -> wordsFrom [] (w ++ b) = wordsFrom [] b.
Proof.
  induction w as [|c w IH]; intros H; [reflexivity|].
  cbn [isWhite forallb] in H. apply andb_prop in H as [Hc Hw].
  cbn [app wordsFrom]. rewrite Hc. apply IH, Hw.
Qed.

(** The tokens on both sides of white space are counted separately. *)
Lemma tokenize_app a sep b :
  sep <> [] -> isWhite sep = true ->
  tokenize (a ++ sep ++ b) = tokenize a ++ tokenize b.
Proof.
  intros Hne Hw. rewrite !tokenize_words.
  destruct sep as [|c sep]; [congruence|].
  cbn [isWhite forallb] in Hw. apply andb_prop in Hw as [Hc Hsep].
  cbn [app]. rewrite wordsFrom_app by assumption.
  rewrite wordsFrom_white by assumption. reflexivity.
Qed.

Lemma countTokens_app a sep b :
  sep <> [] -> isWhite sep = true ->
  countTokens (a ++ sep ++ b) = countTokens a + countTokens b.
Proof.
  intros Hne Hw. unfold countTokens. rewrite tokenize_app by assumption.
  unfold len. rewrite length_app. lia.
Qed.

Lemma isToken_spec w :
  isToken w = true -> w <> [] /\ forall c, In c w -> isSpace c = false.
Proof.
  unfold isToken. intros H. apply andb_prop in H as [Ht Hs]. split.
  - intros ->. discriminate.
  - intros c Hc. rewrite forallb_forall in Hs. specialize (Hs c Hc).
    now apply negb_true_iff in Hs.
Qed.

(** A word under construction that meets no white space stays one word. *)
Lemma wordsFrom_token cur w :
  forallb (fun c => negb (isSpace c)) w = true ->
  wordsFrom cur w = match rev cur ++ w with [] => [] | _ :: _ => [rev cur ++ w] end.
Proof.
  revert cur. induction w as [|c w IH]; intros cur H.
  - cbn [wordsFrom]. rewrite app_nil_r. destruct cur as [|x cur]; [reflexivity|].
    destruct (rev (x :: cur)) eqn:E; [|reflexivity].
    apply (f_equal (@length N)) in E. rewrite length_rev in E. discriminate.
  - cbn [forallb] in H. apply andb_prop in H as [Hc Hw]. apply negb_true_iff in Hc.
    cbn [wordsFrom]. rewrite Hc, IH by assumption.
    cbn [rev]. rewrite <- app_assoc. reflexivity.
Qed.

Lemma wordsFrom_tokens cur s w :
  forallb (fun c => negb (isSpace c)) cur = true ->
  In w (wordsFrom cur s) -> isToken w = true.
Proof.
  revert cur. induction s as [|c s IH]; intros cur Hcur Hin; cbn [wordsFrom] in Hin.
  - destruct cur as [|x cur]; [contradiction|].
    destruct Hin as [<-|[]]. unfold isToken. rewrite truthy_rev.
    rewrite forallb_forall in *. intros; apply forallb_forall.
    intros y Hy. apply Hcur. now apply in_rev.
  - destruct (isSpace c) eqn:Ec.
    + destruct cur as [|x cur].
      * now apply (IH []).
      * destruct Hin as [<-|Hin]; [|now apply (IH [])].
        unfold isToken. rewrite truthy_rev. apply forallb_forall.
        intros y Hy. rewrite forallb_forall in Hcur. apply Hcur. now apply in_rev.
    + apply (IH (c :: cur)); [|assumption]. cbn [forallb]. now rewrite Ec, Hcur.
Qed.

Lemma tokenize_tokens t w : In w (tokenize t) -> isToken w = true.
Proof. rewrite tokenize_words. now apply wordsFrom_tokens. Qed.

(** Joining words with a space and tokenizing gives the words back. *)
Lemma tokenize_join ws :
  Forall (fun w => isToken w = true) ws -> tokenize (join (str " ") ws) = ws.
Proof.
  induction ws as [|w ws IH]; intros H; [reflexivity|].
  inversion H as [|? ? Hw Hws]; subst.
  assert (T : tokenize w = [w]).
  { rewrite tokenize_words, wordsFrom_token.
    - cbn [rev app]. destruct w; [discriminate|reflexivity].
    - unfold isToken in Hw. now apply andb_prop in Hw as [_ Hw]. }
  destruct ws as [|w' ws]; [exact T|].
  change (join (str " ") (w :: w' :: ws)) with (w ++ str " " ++ join (str " ") (w' :: ws)).
  rewrite tokenize_app by (discriminate || reflexivity).
  rewrite T, IH by assumption. reflexivity.
Qed.

Lemma Forall_slice {A} (P : A -> Prop) l s e : Forall P l -> Forall P (slice l s e).
Proof.
  intros H. apply Forall_forall. intros x Hx.
  rewrite Forall_forall in H. apply H. eapply In_slice, Hx.
Qed.

(** X1.  Every token of [tokenize] is a non-empty string without white
    space. *)
Theorem tokens_are_words_without_white_space t :
  Forall (fun w => w <> [] /\ forall c, In c w -> isSpace c = false) (tokenize t).
Proof.
  apply Forall_forall. intros w Hw. apply isToken_spec. eapply tokenize_tokens, Hw.
Qed.

(** X2.  Joining the tokens of a text with single spaces and tokenizing
    again gives the same tokens; so the chunk text that the token-window
    strategies build from a window of tokens has exactly those tokens. *)
Theorem tokenize_join_round_trip t i j :
  tokenize (join (str " ") (tokenize t)) = tokenize t
  /\ tokenize (join (str " ") (slice (tokenize t) i j)) = slice (tokenize t) i j.
Proof.
  split; apply tokenize_join.
  - apply Forall_forall. intros w. apply tokenize_tokens.
  - apply Forall_slice, Forall_forall. intros w. apply tokenize_tokens.
Qed.

(** X3.  Token counts add up over white space: two texts joined by a
    non-empty run of white space have the tokens of the first followed by
    the tokens of the second.  The merges of the heuristic and the hybrid
    splitter, which join with one or two line feeds and add the [tokens]
    fields, rely on it. *)
Theorem countTokens_adds_over_white_space a sep b :
  sep <> [] -> isWhite sep = true ->
  tokenize (a ++ sep ++ b) = tokenize a ++ tokenize b
  /\ countTokens (a ++ sep ++ b) = countTokens a + countTokens b.
Proof.
  intros Hne Hw. split; [now apply tokenize_app|now apply countTokens_app].
Qed.

Lemma countTokens_adds_over_white_space_witness :
  tokenize (str "one two" ++ [Pat.LF; Pat.LF] ++ str "three")
  = tokenize (str "one two") ++ tokenize (str "three")
  /\ countTokens (str "one two" ++ [Pat.LF; Pat.LF] ++ str "three")
     = countTokens (str "one two") + countTokens (str "three").
Proof.
  apply (countTokens_adds_over_white_space (str "one two") [Pat.LF; Pat.LF] (str "three")).
  - discriminate.
  - reflexivity.
Defined.

(* ------------------------------------------------------------------ *)
(** ** The metadata of a chunk describes its text *)

Lemma describes_snoc l c :
  Forall describesText l -> describesText c -> Forall describesText (l ++ [c]).
Proof. intros Hl Hc. apply Forall_app. split; [assumption|]. now constructor. Qed.

Lemma describes_pushText l t : Forall describesText l -> Forall describesText (pushText l t).
Proof. intros H. apply describes_snoc; [assumption|]. split; reflexivity. Qed.

Lemma describes_fold_pushText texts l :
  Forall describesText l -> Forall describesText (fold_left pushText texts l).
Proof.
  revert l. induction texts as [|t texts IH]; intros l H; simpl; [assumption|].
  apply IH, describes_pushText, H.
Qed.

(** A window of tokens joined by a space has as many tokens as the window. *)
Lemma describes_window l t s e :
  Forall describesText l ->
  Forall describesText
    (l ++ [mkChunk (len l) (join (str " ") (slice (tokenize t) s e))
             (len (slice (tokenize t) s e)) (len (join (str " ") (slice (tokenize t) s e)))]).
Proof.
  intros H. apply describes_snoc; [assumption|]. split; [reflexivity|].
  cbn [tokens text]. unfold countTokens. rewrite tokenize_join; [reflexivity|].
  apply Forall_slice, Forall_forall. intros w. apply tokenize_tokens.
Qed.

Ltac describes_body :=
  let i := fresh "i" in let s := fresh "s" in let H := fresh "H" in
  intros i s H; cbv beta zeta;
  repeat match goal with
         | |- context [if ?c then _ else _] => destruct c
         end;
  cbv beta iota;
  auto using describes_pushText, describes_window.

Lemma fixedLengthChars_describes t options :
  Forall describesText (chunks (fixedLengthCharsChunking t options)).
Proof.
  unfold fixedLengthCharsChunking. cbn [chunks].
  apply forLoopUpTo_keeps; [describes_body|constructor].
Qed.

Lemma fixedLength_describes fuel t options r :
  fixedLengthChunking fuel t options = Some r -> Forall describesText (chunks r).
Proof.
  unfold fixedLengthChunking.
  destruct (_ || _).
  - destruct (isMode charactersMode (chunkingMode options)).
    + intros E. injection E as <-. apply fixedLengthChars_describes.
    + destruct (forLoop _ _ _ _ _ _) as [l|] eqn:E; [|discriminate].
      intros E'. injection E' as <-. cbn [chunks].
      eapply forLoop_keeps; [|constructor|exact E]. describes_body.
  - destruct (forLoop _ _ _ _ _ _) as [l|] eqn:E; [|discriminate].
    intros E'. injection E' as <-. cbn [chunks].
    eapply forLoop_keeps; [|constructor|exact E]. describes_body.
Qed.

Lemma sentenceBased_describes fuel t options r :
  sentenceBasedChunking fuel t options = Some r -> Forall describesText (chunks r).
Proof.
  unfold sentenceBasedChunking.
  destruct (forLoop _ _ _ _ _ _) as [l|] eqn:E; [|discriminate].
  intros E'. injection E' as <-. cbn [chunks].
  eapply forLoop_keeps; [|constructor|exact E]. describes_body.
Qed.

Lemma paragraphBased_describes t options :
  Forall describesText (chunks (paragraphBasedChunking t options)).
Proof.
  unfold paragraphBasedChunking. cbn [chunks].
  apply forLoopUpTo_keeps; [describes_body|constructor].
Qed.

Lemma slidingWindow_describes t options :
  Forall describesText (chunks (slidingWindowChunking t options)).
Proof.
  unfold slidingWindowChunking.
  destruct (_ >? 200); cbn [chunks];
    (apply forLoopUpTo_keeps; [describes_body|constructor]).
Qed.

Lemma describes_mapFrom l k :
  Forall describesText l ->
  Forall describesText
    (mapFrom (fun index c => mkChunk index (text c) (tokens c) (characters c)) k l).
Proof.
  intros H. revert k. induction H as [|c l Hc Hl IH]; intros k; cbn [mapFrom]; constructor.
  - exact Hc.
  - apply IH.
Qed.

Lemma describes_renumber l : Forall describesText l -> Forall describesText (renumber l).
Proof. rewrite renumber_spec. apply describes_mapFrom. Qed.

Lemma describes_pushCopies sub l :
  Forall describesText sub -> Forall describesText l -> Forall describesText (pushCopies l sub).
Proof.
  unfold pushCopies. intros Hsub. revert l.
  induction Hsub as [|c sub Hc Hsub IH]; intros l Hl; simpl; [assumption|].
  apply IH, describes_snoc; [assumption|exact Hc].
Qed.

(** Two described chunks merged over white space are described. *)
Lemma describes_merge a b sep n :
  sep <> [] -> isWhite sep = true ->
  describesText a -> describesText b ->
  describesText (mkChunk n (text a ++ sep ++ text b) (tokens a + tokens b)
                   (characters a + (characters b + len sep))).
Proof.
  intros Hne Hw [Ha1 Ha2] [Hb1 Hb2]. split; cbn [characters tokens text].
  - rewrite Ha1, Hb1, !len_app. lia.
  - rewrite Ha2, Hb2, countTokens_app by assumption. reflexivity.
Qed.

Lemma describes_flush st : describesState st -> Forall describesText (flush st).
Proof.
  destruct st as [l [c|]]; intros [Hl Hc]; cbn [flush]; [|exact Hl].
  now apply describes_snoc.
Qed.

Lemma describes_fold_merge (step : list Chunk * option Chunk -> Chunk -> list Chunk * option Chunk) :
  (forall st c, describesState st -> describesText c -> describesState (step st c)) ->
  forall l st, Forall describesText l -> describesState st -> describesState (fold_left step l st).
Proof.
  intros Hstep l st Hl. revert st. induction Hl as [|c l Hc Hl IH]; intros st Hst; simpl;
    [assumption|].
  apply IH, Hstep; assumption.
Qed.

Lemma describes_mergeSmall st c :
  describesState st -> describesText c -> describesState (mergeSmall st c).
Proof.
  destruct st as [l [cur|]]; intros [Hl Hcur] Hc; cbn [mergeSmall fst snd] in *.
  - destruct (tokens c <? 20); split; cbn [fst snd]; try assumption.
    + apply (describes_merge cur c [Pat.LF]); (discriminate || reflexivity || assumption).
    + now apply describes_snoc.
  - split; assumption.
Qed.

Lemma describes_mergeWithin m st c :
  describesState st -> describesText c -> describesState (mergeWithin m st c).
Proof.
  destruct st as [l [cur|]]; intros [Hl Hcur] Hc; cbn [mergeWithin fst snd] in *.
  - destruct (_ <=? m); split; cbn [fst snd]; try assumption.
    + apply (describes_merge cur c [Pat.LF; Pat.LF]); (discriminate || reflexivity || assumption).
    + now apply describes_snoc.
  - split; assumption.
Qed.

Lemma describes_spansOf lines boundaries raw :
  Forall describesText raw -> Forall describesText (spansOf lines boundaries raw).
Proof.
  revert raw. induction boundaries as [|a boundaries IH]; intros raw H; [exact H|].
  cbn [spansOf]. destruct boundaries as [|b rest]; [exact H|].
  destruct (b - a <? 2); apply IH; [exact H|apply describes_pushText, H].
Qed.

Lemma heuristic_describes t options :
  Forall describesText (chunks (heuristicSemanticChunking t options)).
Proof.
  unfold heuristicSemanticChunking.
  destruct (_ <=? 1); [apply paragraphBased_describes|].
  destruct (_ =? 0); [apply paragraphBased_describes|].
  cbn [chunks]. apply describes_renumber.
  assert (H : Forall describesText
                (flush (fold_left mergeSmall
                   (spansOf (splitOn [Pat.LF] t) (findBoundaries (splitOn [Pat.LF] t)) [])
                   ([], None)))).
  { apply describes_flush, describes_fold_merge.
    - apply describes_mergeSmall.
    - apply describes_spansOf. constructor.
    - split; [constructor|exact I]. }
  destruct (_ && _); [apply Forall_slice|]; exact H.
Qed.

Lemma addParagraph_describes fuel maxTokens over acc paragraph out :
  addParagraph fuel maxTokens over acc paragraph = Some out ->
  describesText paragraph ->
  (forall l, acc = Some l -> Forall describesText l) -> Forall describesText out.
Proof.
  unfold addParagraph. destruct acc as [l|]; [|discriminate].
  intros E Hp H. specialize (H l eq_refl).
  destruct (_ <=? maxTokens).
  - injection E as <-. apply describes_snoc; [assumption|exact Hp].
  - destruct (_ <=? maxTokens * 2).
    + destruct (sentenceBasedChunking _ _ _) as [r|] eqn:Es; [|discriminate].
      injection E as <-. apply describes_pushCopies; [|assumption].
      eapply sentenceBased_describes, Es.
    + injection E as <-. apply describes_pushCopies; [|assumption].
      apply slidingWindow_describes.
Qed.

Lemma fold_addParagraph_describes fuel maxTokens over l acc out :
  fold_left (addParagraph fuel maxTokens over) l acc = Some out ->
  Forall describesText l ->
  (forall l, acc = Some l -> Forall describesText l) -> Forall describesText out.
Proof.
  intros E Hl. revert acc E. induction Hl as [|p l Hp Hl IH]; intros acc E H; simpl in E.
  - now apply H.
  - apply (IH _ E). intros l' E'. eapply addParagraph_describes; eauto.
Qed.

Lemma hybrid_describes fuel t options r :
  hybridChunking fuel t options = Some r -> Forall describesText (chunks r).
Proof.
  unfold hybridChunking.
  destruct (fold_left _ _ _) as [l|] eqn:E; [|discriminate].
  intros E'. injection E' as <-. cbn [chunks].
  assert (H : Forall describesText l).
  { eapply fold_addParagraph_describes; [exact E|apply paragraphBased_describes|].
    intros l' E'. injection E' as <-. constructor. }
  destruct (len l >? 1); [|exact H].
  apply describes_renumber, describes_flush, describes_fold_merge.
  - apply describes_mergeWithin.
  - exact H.
  - split; [constructor|exact I].
Qed.

Lemma describes_toChunks l : Forall describesText (toChunks l).
Proof.
  rewrite toChunks_spec. generalize 0. induction l as [|x l IH]; intros k; cbn [mapFrom];
    constructor; [split; reflexivity|apply IH].
Qed.

Lemma recursive_describes limit fuel t options r :
  recursiveTextSplitter limit fuel t options = Some r -> Forall describesText (chunks r).
Proof.
  unfold recursiveTextSplitter.
  destruct (recursiveTry limit t options) as [r'|] eqn:E.
  - intros E'. injection E' as <-. unfold recursiveTry in E.
    destruct (recursiveSplit _ _ _ _ _); [|discriminate].
    injection E as <-. apply describes_toChunks.
  - apply fixedLength_describes.
Qed.

Lemma semanticTry_describes provider key paragraphs options r :
  semanticTry provider key paragraphs options = Some r -> Forall describesText (chunks r).
Proof.
  unfold semanticTry.
  destruct (similarityMatrixOf _); [|discriminate].
  match goal with |- context [if ?c then ?a else ?b] => destruct (if c then a else b) end;
    [|discriminate].
  intros E. injection E as <-.
  cbn [chunks]. apply describes_fold_pushText. constructor.
Qed.

Lemma semantic_describes provider t options :
  Forall describesText (chunks (semanticChunking provider t options)).
Proof.
  unfold semanticChunking.
  destruct (apiKey options) as [key|]; [|apply heuristic_describes].
  destruct (truthy key); [|apply heuristic_describes].
  destruct (_ <=? 1)%Z; [apply paragraphBased_describes|].
  destruct (semanticTry _ _ _ _) eqn:E; [|apply heuristic_describes].
  eapply semanticTry_describes, E.
Qed.

Lemma agentic_describes fuel t options r :
  agenticChunking fuel t options = Some r -> Forall describesText (chunks r).
Proof.
  unfold agenticChunking.
  match goal with |- match ?sel with _ => _ end = _ -> _ => destruct sel as [[r'|] d] eqn:E end;
    [|discriminate].
  intros E'. injection E' as <-. cbn [setNotes chunks].
  repeat match type of E with
         | (if ?c then _ else _) = _ => destruct c
         end;
    injection E as E _; try subst r';
    eauto using paragraphBased_describes, sentenceBased_describes, hybrid_describes,
      slidingWindow_describes, heuristic_describes.
Qed.

Lemma chunkTextAsync_describes env fuel t method options r :
  chunkTextAsync env fuel t method options = Some r -> Forall describesText (chunks r).
Proof.
  intros E.
  destruct method; simpl in E;
    try (injection E as <-);
    eauto using fixedLength_describes, fixedLengthChars_describes, recursive_describes,
      sentenceBased_describes, paragraphBased_describes, slidingWindow_describes,
      semantic_describes, hybrid_describes, agentic_describes.
Qed.

(** X4.  Whatever the strategy, the text and the options, the metadata of
    every returned chunk describes its text: [characters] is the length of
    [text] and [tokens] is [countTokens(text)] - also where the code does
    not compute them from the text, in the token windows (the window length)
    and in the merges of the heuristic and the hybrid splitter (sums of the
    merged fields plus the separator length). *)
Theorem chunk_metadata_describes_text env fuel t method options r :
  chunkTextAsync env fuel t method options = Some r ->
  forall c, In c (chunks r) ->
    characters c = len (text c) /\ tokens c = countTokens (text c).
Proof.
  intros E c Hc. pose proof (chunkTextAsync_describes _ _ _ _ _ _ E) as D.
  rewrite Forall_forall in D. exact (D c Hc).
Qed.

Lemma chunk_metadata_describes_text_witness :
  match chunkTextAsync (mkEnvironment None failingProvider) 5
          (str "a b c d e f g h i j") fixed_length (sizeAndOverlap 5 0) with
  | Some r =>
      forall c, In c (chunks r) ->
        characters c = len (text c) /\ tokens c = countTokens (text c)
  | None => False
  end.
Proof.
  destruct (chunkTextAsync (mkEnvironment None failingProvider) 5
              (str "a b c d e f g h i j") fixed_length (sizeAndOverlap 5 0)) as [r|] eqn:E.
  - exact (chunk_metadata_describes_text _ _ _ _ _ _ E).
  - vm_compute in E. discriminate.
Defined.

(* ------------------------------------------------------------------ *)
(** ** Window sizes *)

Lemma len_slice_window {A} (l : list A) s size :
  0 <= size -> len (slice l s (s + size)) <= size.
Proof.
  intros H. unfold slice, relIndex. pose proof (len_nonneg l).
  destruct (Z.ltb_spec s 0), (Z.ltb_spec (s + size) 0);
    unfold len in *; rewrite length_firstn; lia.
Qed.

Lemma len_slice_window_clamped {A} (l : list A) s size :
  0 <= size -> len (slice l s (Z.min (s + size) (len l))) <= size.
Proof.
  intros H. unfold slice, relIndex. pose proof (len_nonneg l).
  destruct (Z.ltb_spec s 0), (Z.ltb_spec (Z.min (s + size) (len l)) 0);
    unfold len in *; rewrite length_firstn; lia.
Qed.

Lemma len_substring_window t s size :
  0 <= size -> len (substring t s (s + size)) <= size.
Proof.
  intros H. unfold substring, clampIndex. pose proof (len_nonneg t).
  unfold len in *. rewrite length_firstn. lia.
Qed.

Lemma len_substring_window_clamped t s size :
  0 <= size -> len (substring t s (Z.min (s + size) (len t))) <= size.
Proof.
  intros H. unfold substring, clampIndex. pose proof (len_nonneg t).
  unfold len in *. rewrite length_firstn. lia.
Qed.

Lemma Forall_snoc {A} (P : A -> Prop) l x : Forall P l -> P x -> Forall P (l ++ [x]).
Proof. intros Hl Hx. apply Forall_app. split; [assumption|]. now constructor. Qed.

Ltac window_body :=
  let i := fresh "i" in let s := fresh "s" in let H := fresh "H" in
  intros i s H; cbv beta zeta;
  repeat match goal with
         | |- context [if ?c then _ else _] => destruct c
         end;
  cbv beta iota; try assumption;
  (apply Forall_snoc; [assumption|]);
  cbn [unitsOf characters tokens];
  auto using len_slice_window, len_slice_window_clamped, len_substring_window,
    len_substring_window_clamped.

(** X5.  Fixed-length chunking outside the 'characters' mode: no chunk holds
    more than [chunkSize] units, tokens in token mode and code units in the
    legacy character mode (a chunk size above 200 without a mode). *)
Theorem fixedLength_chunks_within_chunkSize fuel t options r :
  let size := orDefault 100 (chunkSize options) in
  let legacy := negb (isMode tokensMode (chunkingMode options)) && (size >? 200) in
  isMode charactersMode (chunkingMode options) = false ->
  0 <= size ->
  fixedLengthChunking fuel t options = Some r ->
  Forall (fun c => unitsOf legacy c <= size) (chunks r).
Proof.
  intros size legacy Hmode Hsize. unfold fixedLengthChunking. rewrite Hmode. cbn [orb].
  fold size. fold legacy. destruct legacy.
  - destruct (forLoop _ _ _ _ _ _) as [l|] eqn:E; [|discriminate].
    intros E'. injection E' as <-. cbn [chunks].
    eapply forLoop_keeps; [|constructor|exact E]. unfold pushText. window_body.
  - destruct (forLoop _ _ _ _ _ _) as [l|] eqn:E; [|discriminate].
    intros E'. injection E' as <-. cbn [chunks].
    eapply forLoop_keeps; [|constructor|exact E]. window_body.
Qed.

Lemma fixedLength_chunks_within_chunkSize_witness :
  match fixedLengthChunking 5 (str "a b c d e f g h i j") (sizeAndOverlap 4 1) with
  | Some r => Forall (fun c => unitsOf false c <= 4) (chunks r)
  | None => False
  end.
Proof.
  destruct (fixedLengthChunking 5 (str "a b c d e f g h i j") (sizeAndOverlap 4 1))
    as [r|] eqn:E.
  - exact (fixedLength_chunks_within_chunkSize 5 _ (sizeAndOverlap 4 1) r
             eq_refl ltac:(cbn; lia) E).
  - vm_compute in E. discriminate.
Defined.

(** X6.  Sliding-window chunking: no window holds more than [chunkSize]
    units, code units above a chunk size of 200 and tokens otherwise. *)
Theorem slidingWindow_chunks_within_chunkSize t options :
  let size := orDefault 100 (chunkSize options) in
  0 <= size ->
  Forall (fun c => unitsOf (size >? 200) c <= size) (chunks (slidingWindowChunking t options)).
Proof.
  intros size Hsize. unfold slidingWindowChunking. fold size.
  destruct (size >? 200); cbn [chunks].
  - apply forLoopUpTo_keeps; [unfold pushText; window_body|constructor].
  - apply forLoopUpTo_keeps; [window_body|constructor].
Qed.

Lemma slidingWindow_chunks_within_chunkSize_witness :
  Forall (fun c => unitsOf false c <= 3)
    (chunks (slidingWindowChunking (str "a b c d e f g") (sizeAndOverlap 3 1))).
Proof.
  apply (slidingWindow_chunks_within_chunkSize (str "a b c d e f g") (sizeAndOverlap 3 1)).
  cbn. lia.
Defined.

(* ------------------------------------------------------------------ *)
(** ** Chunk counts *)

Lemma splitParagraphs_nonempty t : 1 <= len (splitParagraphs t).
Proof.
  unfold splitParagraphs.
  destruct (Z.eqb_spec (len (filter truthy (map trim (Regex.split Pat.combinedSeparator t)))) 0)
    as [E|E].
  - reflexivity.
  - pose proof (len_nonneg (filter truthy (map trim (Regex.split Pat.combinedSeparator t)))).
    lia.
Qed.

(** A loop over one element or more whose first round appends leaves a
    non-empty array when no round removes elements. *)
Lemma forLoopUpTo_nonempty {A} n step (body : Z -> list A -> Ctl (list A)) :
  1 <= step -> 1 <= n ->
  (forall i s, (s = [] \/ 1 <= len s) ->
     match body i s with Break s' => 1 <= len s' | Next s' => 1 <= len s' end) ->
  1 <= len (forLoopUpTo n step body []).
Proof.
  intros Hstep Hn Hbody.
  apply forLoopUpTo_invariant
    with (P := fun i s => (i = 0 /\ s = []) \/ 1 <= len s) (Q := fun s => 1 <= len s).
  - assumption.
  - intros i s HP _. specialize (Hbody i s ltac:(tauto)).
    destruct (body i s); [assumption|right; assumption].
  - intros i s [[-> _]|H] Hi; [lia|assumption].
  - left. split; reflexivity.
Qed.

Ltac nonempty_body :=
  let i := fresh "i" in let s := fresh "s" in let H := fresh "H" in
  let Ec := fresh "Ec" in
  intros i s H; cbv beta zeta;
  match goal with |- context [if ?c then Break _ else _] => destruct c eqn:Ec end;
  cbv beta iota;
  [ destruct H as [->|H];
    [apply andb_prop in Ec as [_ Ec]; vm_compute in Ec; discriminate Ec | exact H]
  | match goal with |- context [if ?c then _ else _] => destruct c end;
    rewrite len_pushText; pose proof (len_nonneg s); lia ].

Lemma paragraphBased_has_chunk t options :
  1 <= len (chunks (paragraphBasedChunking t options)).
Proof.
  unfold paragraphBasedChunking. cbn [chunks].
  apply forLoopUpTo_nonempty.
  - apply paragraphStep_positive.
  - apply splitParagraphs_nonempty.
  - nonempty_body.
Qed.

(** X7.  Paragraph-based chunking returns one chunk or more for every text,
    the empty text included, and every options value: the paragraph list is
    never empty, and the first round of the loop always appends. *)
Theorem paragraphBased_never_empty t options :
  1 <= len (chunks (paragraphBasedChunking t options)).
Proof. apply paragraphBased_has_chunk. Qed.

(** X8.  Paragraph-based chunking with a positive [maxChunks] returns at most
    [maxChunks] chunks. *)
Theorem paragraphBased_at_most_maxChunks t options m :
  maxChunks options = Some m -> 0 < m ->
  len (chunks (paragraphBasedChunking t options)) <= m.
Proof. apply paragraphBased_within_maxChunks. Qed.

Lemma paragraphBased_at_most_maxChunks_witness :
  len (chunks (paragraphBasedChunking twoParagraphs
                 (mkOptions (Some 1) None None (Some 1) None None None))) <= 1.
Proof.
  apply (paragraphBased_at_most_maxChunks twoParagraphs
           (mkOptions (Some 1) None None (Some 1) None None None) 1 eq_refl).
  lia.
Defined.

(** X9.  Boundary-snapping chunking with a positive [maxChunks] returns at
    most [maxChunks] chunks. *)
Theorem fixedLengthChars_at_most_maxChunks t options m :
  maxChunks options = Some m -> 0 < m ->
  len (chunks (fixedLengthCharsChunking t options)) <= m.
Proof. apply fixedLengthChars_within_maxChunks. Qed.

Lemma fixedLengthChars_at_most_maxChunks_witness :
  len (chunks (fixedLengthCharsChunking (str "one two three four five six")
                 (mkOptions (Some 10) (Some 0) None (Some 2) None None None))) <= 2.
Proof.
  apply (fixedLengthChars_at_most_maxChunks (str "one two three four five six")
           (mkOptions (Some 10) (Some 0) None (Some 2) None None None) 2 eq_refl).
  lia.
Defined.

Lemma len_slice_prefix_exact {A} (l : list A) m : 0 <= m <= len l -> len (slice l 0 m) = m.
Proof.
  intros Hm. unfold slice, relIndex.
  destruct (Z.ltb_spec m 0); [lia|]. destruct (Z.ltb_spec 0 0); [lia|].
  rewrite (Z.min_l 0 (len l)) by lia. cbn [skipn Z.to_nat].
  unfold len in *. rewrite length_firstn. lia.
Qed.

Lemma len_renumber l : len (renumber l) = len l.
Proof. rewrite renumber_spec. apply len_mapFrom. Qed.

Lemma fold_mergeSmall_current l : forall st,
  l <> [] \/ snd st <> None -> snd (fold_left mergeSmall l st) <> None.
Proof.
  induction l as [|c l IH]; intros st H; simpl.
  - destruct H as [H|H]; [congruence|exact H].
  - apply IH. right. destruct st as [done [cur|]]; cbn [mergeSmall];
      [destruct (tokens c <? 20)|]; discriminate.
Qed.

Lemma len_flush_current st : snd st <> None -> 1 <= len (flush st).
Proof.
  destruct st as [done [cur|]]; cbn [snd flush]; [|congruence].
  intros _. rewrite len_app. pose proof (len_nonneg done). change (len [cur]) with 1. lia.
Qed.

Lemma heuristic_has_chunk t options :
  1 <= len (chunks (heuristicSemanticChunking t options)).
Proof.
  unfold heuristicSemanticChunking.
  destruct (_ <=? 1); [apply paragraphBased_has_chunk|].
  destruct (Z.eqb_spec (len (spansOf (splitOn [Pat.LF] t) (findBoundaries (splitOn [Pat.LF] t)) [])) 0)
    as [E|E]; [apply paragraphBased_has_chunk|].
  cbn [chunks]. rewrite len_renumber.
  set (raw := spansOf _ _ _) in *.
  assert (H : 1 <= len (flush (fold_left mergeSmall raw ([], None)))).
  { apply len_flush_current, fold_mergeSmall_current. left. intros ->. apply E. reflexivity. }
  destruct (Z.gtb_spec (orDefault 0 (maxChunks options)) 0) as [Hm|Hm]; [|exact H].
  cbn [andb].
  destruct (Z.gtb_spec (len (flush (fold_left mergeSmall raw ([], None))))
              (orDefault 0 (maxChunks options))) as [Hl|Hl]; [|exact H].
  rewrite len_slice_prefix_exact; lia.
Qed.

(** *** The embedding path always has a cluster *)

Lemma len_insertSorted {A} (after : A -> A -> bool) x l :
  len (insertSorted after x l) = len l + 1.
Proof.
  induction l as [|y l IH]; [reflexivity|].
  cbn [insertSorted]. destruct (after y x); rewrite !len_cons; [reflexivity|]. rewrite IH. lia.
Qed.

Lemma len_sortBy {A} (after : A -> A -> bool) l : len (sortBy after l) = len l.
Proof.
  unfold sortBy.
  assert (G : forall acc, len (fold_left (fun sorted x => insertSorted after x sorted) l acc)
                          = len l + len acc).
  { induction l as [|x l IH]; intros acc; cbn [fold_left];
      [change (len (@nil A)) with 0; lia|].
    rewrite IH, len_insertSorted, len_cons. lia. }
  rewrite G. change (len (@nil A)) with 0. lia.
Qed.

Lemma len_mergePair clusters : forall c1, 1 <= len clusters -> 1 <= len (mergePair clusters c1).
Proof.
  induction clusters as [|a clusters IH]; intros c1 H; [exact H|].
  destruct c1 as [|k], clusters as [|b rest]; cbn [mergePair]; try exact H;
    rewrite len_cons;
    match goal with |- 1 <= len ?x + 1 => pose proof (len_nonneg x) end; lia.
Qed.

Lemma len_agglomerate rounds m maxChunks n : forall clusters,
  1 <= len clusters -> 1 <= len (agglomerate rounds m maxChunks n clusters).
Proof.
  induction rounds as [|k IH]; intros clusters H; [exact H|].
  cbn [agglomerate]. destruct (aboveTarget _ _ _); [|exact H].
  destruct (_ >=? 0); [|exact H].
  apply IH, len_mergePair, H.
Qed.

Lemma len_map {A B} (f : A -> B) l : len (map f l) = len l.
Proof. unfold len. now rewrite length_map. Qed.

Lemma len_fold_pushText texts : forall l, len (fold_left pushText texts l) = len l + len texts.
Proof.
  induction texts as [|x texts IH]; intros l; cbn [fold_left];
    [change (len (@nil string)) with 0; lia|].
  rewrite IH, len_pushText, len_cons. lia.
Qed.

Lemma len_foldIndexed_some {A B} (f : Z -> A -> option B) l : forall k acc out,
  foldIndexed (fun (acc : option (list B)) i x =>
    match acc, f i x with
    | Some done, Some y => Some (done ++ [y])
    | _, _ => None
    end) l k acc = Some out ->
  exists done, acc = Some done /\ len out = len done + len l.
Proof.
  induction l as [|x l IH]; intros k acc out E; cbn [foldIndexed] in E.
  - exists out. split; [exact E|]. change (len (@nil A)) with 0. lia.
  - destruct (IH _ _ _ E) as [done [E' L]].
    destruct acc as [d|]; [|discriminate]. destruct (f k x); [|discriminate].
    injection E' as <-. exists d. split; [reflexivity|].
    rewrite L, len_app, !len_cons. change (len (@nil B)) with 0. lia.
Qed.

Lemma semanticTry_has_chunk provider key paragraphs options r :
  1 <= len paragraphs ->
  semanticTry provider key paragraphs options = Some r -> 1 <= len (chunks r).
Proof.
  intros Hp. unfold semanticTry.
  destruct (similarityMatrixOf _) as [m|]; [|discriminate].
  set (clusters := map (sortBy _) (agglomerate _ _ _ _ _)).
  assert (Hc : 1 <= len clusters).
  { unfold clusters. rewrite len_map. apply len_agglomerate.
    rewrite len_map. unfold indices. rewrite len_map. unfold len in *.
    rewrite length_seq. exact Hp. }
  set (raw := sortBy _ (map _ clusters)).
  assert (Hr : 1 <= len raw) by (unfold raw; rewrite len_sortBy, len_map; exact Hc).
  destruct (_ && _).
  - match goal with |- match ?x with _ => _ end = _ -> _ => destruct x as [texts|] eqn:E end;
      [|discriminate].
    intros E'. injection E' as <-. cbn [chunks].
    apply len_foldIndexed_some in E as [done [E L]]. injection E as <-.
    rewrite len_fold_pushText, L. change (len (@nil string)) with 0.
    change (len (@nil Chunk)) with 0. lia.
  - intros E'. injection E' as <-. cbn [chunks].
    rewrite len_fold_pushText, len_map. change (len (@nil Chunk)) with 0. lia.
Qed.

(** X10.  Semantic chunking returns one chunk or more on every path - the
    embedding path, the paragraph-based shortcut and the heuristic splitter -
    whatever the text, the options and the answers of the provider.  On the
    embedding path the averages of the analysis divide by the chunk count
    without a test. *)
Theorem semantic_never_empty provider t options :
  1 <= len (chunks (semanticChunking provider t options)).
Proof.
  unfold semanticChunking.
  destruct (apiKey options) as [key|]; [|apply heuristic_has_chunk].
  destruct (truthy key); [|apply heuristic_has_chunk].
  destruct (Z.leb_spec (len (filter truthy (Regex.split Pat.blankLine t))) 1) as [H|H];
    [apply paragraphBased_has_chunk|].
  destruct (semanticTry _ _ _ _) eqn:E; [|apply heuristic_has_chunk].
  eapply semanticTry_has_chunk; [|exact E]. lia.
Qed.

(** X11.  Without an API key semantic chunking keeps a positive [maxChunks]:
    the heuristic splitter cuts its list, and its paragraph-based fallback
    stops at the ceiling. *)
Theorem semantic_without_key_at_most_maxChunks provider t options m :
  apiKey options = None ->
  maxChunks options = Some m -> 0 < m ->
  len (chunks (semanticChunking provider t options)) <= m.
Proof.
  intros Hkey Hm Hpos. unfold semanticChunking. rewrite Hkey.
  now apply heuristic_within_maxChunks.
Qed.

Lemma semantic_without_key_at_most_maxChunks_witness :
  len (chunks (semanticChunking failingProvider twoParagraphs
                 (mkOptions None None None (Some 1) None None None))) <= 1.
Proof.
  apply (semantic_without_key_at_most_maxChunks failingProvider twoParagraphs
           (mkOptions None None None (Some 1) None None None) 1 eq_refl eq_refl).
  lia.
Defined.

(** X12.  Sentence-based chunking without overlap keeps a positive
    [maxChunks]: the sentences are cut to [maxChunks * chunkSize] and the
    loop advances by [chunkSize].  (With an overlap the step is smaller and
    the ceiling is passed.) *)
Theorem sentenceBased_at_most_maxChunks_without_overlap fuel t options m r :
  maxChunks options = Some m -> 0 < m ->
  orDefault 0 (overlap options) <= 0 ->
  1 <= orDefault 5 (chunkSize options) ->
  sentenceBasedChunking fuel t options = Some r ->
  len (chunks r) <= m.
Proof.
  intros Hm Hpos Hover Hsize. unfold sentenceBasedChunking, plainStep.
  rewrite Hm. cbn [orDefault].
  set (size := orDefault 5 (chunkSize options)) in *.
  destruct (Z.gtb_spec (orDefault 0 (overlap options)) 0) as [H|_]; [lia|].
  destruct (Z.gtb_spec m 0) as [_|H]; [|lia].
  set (sentences := slice (splitSentences t) 0 (m * size)).
  assert (Hn : len sentences <= m * size) by (apply len_slice_prefix; nia).
  destruct (forLoop _ _ _ _ _ _) as [l|] eqn:E; [|discriminate].
  intros E'. injection E' as <-. cbn [chunks].
  refine (forLoop_invariant (len sentences) size _
            (fun i s => i = len s * size /\ len s <= m) (fun s => len s <= m)
            _ _ fuel 0 [] l _ E).
  - intros i s [Hi Hs] Hlt. cbv beta zeta.
    destruct (_ && _); [exact Hs|].
    rewrite len_pushText. split; [lia|nia].
  - intros i s [_ Hs] _. exact Hs.
  - split; [reflexivity|]. change (len (@nil Chunk)) with 0. lia.
Qed.

Lemma sentenceBased_at_most_maxChunks_without_overlap_witness :
  match sentenceBasedChunking 5 (str "One. Two. Three. Four.")
          (mkOptions (Some 1) (Some 0) None (Some 2) None None None) with
  | Some r => len (chunks r) <= 2
  | None => False
  end.
Proof.
  destruct (sentenceBasedChunking 5 (str "One. Two. Three. Four.")
              (mkOptions (Some 1) (Some 0) None (Some 2) None None None)) as [r|] eqn:E.
  - exact (sentenceBased_at_most_maxChunks_without_overlap 5 _
             (mkOptions (Some 1) (Some 0) None (Some 2) None None None) 2 r
             eq_refl ltac:(lia) ltac:(cbn; lia) ltac:(cbn; lia) E).
  - vm_compute in E. discriminate.
Defined.

(* ------------------------------------------------------------------ *)
(** ** Termination of the loops with a free step *)

(** With a step of 1 or more a loop has a result that every larger fuel
    gives as well. *)
Lemma forLoop_settles {S} n step (body : Z -> S -> Ctl S) s :
  1 <= step ->
  exists r, forall fuel, (Z.to_nat n < fuel)%nat -> forLoop fuel n step body 0 s = Some r.
Proof.
  intros Hstep.
  destruct (forLoop_enough n step body Hstep (Datatypes.S (Z.to_nat n)) 0 s) as [r Hr];
    [lia|].
  exists r. intros fuel Hfuel.
  eapply forLoop_more_fuel; [|exact Hr]. lia.
Qed.

Lemma sentenceBased_settles t options :
  1 <= plainStep (orDefault 5 (chunkSize options)) (orDefault 0 (overlap options)) ->
  exists rounds r,
    forall fuel, (rounds <= fuel)%nat -> sentenceBasedChunking fuel t options = Some r.
Proof.
  intros Hstep. unfold sentenceBasedChunking.
  match goal with |- context [forLoop _ ?n ?step ?body 0 ?s] =>
    destruct (forLoop_settles n step body s Hstep) as [l Hl];
    exists (Datatypes.S (Z.to_nat n))
  end.
  eexists. intros fuel Hfuel. cbv zeta. rewrite Hl by lia. reflexivity.
Qed.

Lemma fold_addParagraph_settles maxTokens over l :
  1 <= plainStep (ceilDiv maxTokens 10) (ceilDiv over 10) ->
  forall acc, exists rounds out,
    forall fuel, (rounds <= fuel)%nat ->
      fold_left (addParagraph fuel maxTokens over) l (Some acc) = Some out.
Proof.
  intros Hstep. induction l as [|p l IH]; intros acc.
  - exists O, acc. reflexivity.
  - assert (Hp : exists rounds acc', forall fuel, (rounds <= fuel)%nat ->
                   addParagraph fuel maxTokens over (Some acc) p = Some acc').
    { unfold addParagraph. destruct (_ <=? maxTokens); [exists O; eexists; reflexivity|].
      destruct (_ <=? maxTokens * 2); [|exists O; eexists; reflexivity].
      destruct (sentenceBased_settles (text p)
                  (mkOptions (Some (ceilDiv maxTokens 10)) (Some (ceilDiv over 10))
                     None None None None None) Hstep) as [rounds [r Hr]].
      exists rounds. eexists. intros fuel Hfuel. rewrite (Hr fuel Hfuel). reflexivity. }
    destruct Hp as [rounds1 [acc' H1]]. destruct (IH acc') as [rounds2 [out H2]].
    exists (Nat.max rounds1 rounds2), out. intros fuel Hfuel.
    cbn [fold_left]. rewrite H1 by lia. apply H2. lia.
Qed.

(** X13.  Fixed-length chunking ends whenever its step is 1 or more, that is
    when [chunkSize >= 1] and [overlap < chunkSize] (or [overlap <= 0]): from
    some number of loop rounds on it returns one and the same result. *)
Theorem fixedLength_ends_with_positive_step t options :
  1 <= plainStep (orDefault 100 (chunkSize options)) (orDefault 0 (overlap options)) ->
  exists rounds r,
    forall fuel, (rounds <= fuel)%nat -> fixedLengthChunking fuel t options = Some r.
Proof.
  intros Hstep. unfold fixedLengthChunking.
  destruct (_ || _).
  - destruct (isMode charactersMode (chunkingMode options)).
    + exists O. eexists. intros fuel _. reflexivity.
    + match goal with |- context [forLoop _ ?n ?step ?body 0 ?s] =>
        destruct (forLoop_settles n step body s Hstep) as [l Hl];
        exists (Datatypes.S (Z.to_nat n))
      end.
      eexists. intros fuel Hfuel. rewrite Hl by lia. reflexivity.
  - match goal with |- context [forLoop _ ?n ?step ?body 0 ?s] =>
      destruct (forLoop_settles n step body s Hstep) as [l Hl];
      exists (Datatypes.S (Z.to_nat n))
    end.
    eexists. intros fuel Hfuel. rewrite Hl by lia. reflexivity.
Qed.

Lemma fixedLength_ends_with_positive_step_witness :
  exists rounds r,
    forall fuel, (rounds <= fuel)%nat ->
      fixedLengthChunking fuel (str "a b c d e f") (sizeAndOverlap 4 1) = Some r.
Proof.
  apply (fixedLength_ends_with_positive_step (str "a b c d e f") (sizeAndOverlap 4 1)).
  cbn. lia.
Defined.

(** X14.  Sentence-based chunking ends whenever its step is 1 or more, that is
    when [chunkSize >= 1] and [overlap < chunkSize] (or [overlap <= 0]): from
    some number of loop rounds on it returns one and the same result. *)
Theorem sentenceBased_ends_with_positive_step t options :
  1 <= plainStep (orDefault 5 (chunkSize options)) (orDefault 0 (overlap options)) ->
  exists rounds r,
    forall fuel, (rounds <= fuel)%nat -> sentenceBasedChunking fuel t options = Some r.
Proof. apply sentenceBased_settles. Qed.

Lemma sentenceBased_ends_with_positive_step_witness :
  exists rounds r,
    forall fuel, (rounds <= fuel)%nat ->
      sentenceBasedChunking fuel (str "One. Two. Three.") (sizeAndOverlap 2 1) = Some r.
Proof.
  apply (sentenceBased_ends_with_positive_step (str "One. Two. Three.") (sizeAndOverlap 2 1)).
  cbn. lia.
Defined.

(** X15.  Hybrid chunking ends whenever the step of its sentence pass is 1 or
    more, that is when [ceil(overlap / 10) < ceil(chunkSize / 10)] for the
    effective chunk size and overlap (100 and 0 when absent or 0): from some
    number of loop rounds on it returns one and the same result. *)
Theorem hybrid_ends_with_positive_sentence_step t options :
  1 <= plainStep (ceilDiv (orIfFalsy 100 (chunkSize options)) 10)
                 (ceilDiv (orIfFalsy 0 (overlap options)) 10) ->
  exists rounds r,
    forall fuel, (rounds <= fuel)%nat -> hybridChunking fuel t options = Some r.
Proof.
  intros Hstep. unfold hybridChunking.
  destruct (fold_addParagraph_settles _ _ (chunks (paragraphBasedChunking t noOptions))
              Hstep []) as [rounds [out H]].
  exists rounds. eexists. intros fuel Hfuel. cbv zeta. rewrite (H fuel Hfuel). reflexivity.
Qed.

Lemma hybrid_ends_with_positive_sentence_step_witness :
  exists rounds r,
    forall fuel, (rounds <= fuel)%nat ->
      hybridChunking fuel twoParagraphs (sizeAndOverlap 20 5) = Some r.
Proof.
  apply (hybrid_ends_with_positive_sentence_step twoParagraphs (sizeAndOverlap 20 5)).
  vm_compute. discriminate.
Defined.

(* ------------------------------------------------------------------ *)
(** ** The merge of small sections *)

Lemma tl_snoc {A} (l : list A) x : l <> [] -> tl (l ++ [x]) = tl l ++ [x].
Proof. destruct l; [congruence|reflexivity]. Qed.

Lemma countTokens_nonneg t : 0 <= countTokens t.
Proof. apply len_nonneg. Qed.

Lemma mergeSmall_laterBig st c :
  0 <= tokens c ->
  (snd st = None -> fst st = []) -> laterBig (flush st) ->
  (snd (mergeSmall st c) = None -> fst (mergeSmall st c) = [])
  /\ laterBig (flush (mergeSmall st c)).
Proof.
  destruct st as [done [cur|]]; cbn [fst snd mergeSmall flush]; intros Hc Hnone Hbig.
  - destruct (Z.ltb_spec (tokens c) 20) as [Hs|Hs]; cbn [fst snd flush];
      (split; [discriminate|]).
    + unfold laterBig in *. destruct done as [|d done]; [constructor|].
      cbn [app tl] in *. apply Forall_app in Hbig as [Hd Hcur].
      apply Forall_app. split; [exact Hd|]. constructor; [|constructor].
      inversion Hcur; subst. cbn [tokens]. lia.
    + unfold laterBig in *. rewrite tl_snoc by (destruct done; discriminate).
      apply Forall_app. split; [exact Hbig|]. constructor; [lia|constructor].
  - rewrite (Hnone eq_refl). split; [discriminate|]. constructor.
Qed.

Lemma fold_mergeSmall_laterBig l : forall st,
  Forall (fun c => 0 <= tokens c) l ->
  (snd st = None -> fst st = []) -> laterBig (flush st) ->
  laterBig (flush (fold_left mergeSmall l st)).
Proof.
  induction l as [|c l IH]; intros st Hl Hnone Hbig; [exact Hbig|].
  inversion Hl as [|? ? Hc Hl']; subst. cbn [fold_left].
  destruct (mergeSmall_laterBig st c) as [G1 G2]; try assumption.
  now apply IH.
Qed.

Lemma spansOf_tokens_nonneg lines boundaries : forall raw,
  Forall (fun c => 0 <= tokens c) raw ->
  Forall (fun c => 0 <= tokens c) (spansOf lines boundaries raw).
Proof.
  induction boundaries as [|a boundaries IH]; intros raw H; [exact H|].
  cbn [spansOf]. destruct boundaries as [|b rest]; [exact H|].
  destruct (b - a <? 2); apply IH; [exact H|].
  apply Forall_snoc; [exact H|]. apply countTokens_nonneg.
Qed.

Lemma tl_mapFrom {A B} (g : Z -> A -> B) k l : tl (mapFrom g k l) = mapFrom g (k + 1) (tl l).
Proof. destruct l; reflexivity. Qed.

Lemma Forall_mapFrom {A B} (P : A -> Prop) (Q : B -> Prop) (g : Z -> A -> B) l :
  (forall k x, P x -> Q (g k x)) -> Forall P l -> forall k, Forall Q (mapFrom g k l).
Proof.
  intros Hg H. induction H as [|x l Hx Hl IH]; intros k; cbn [mapFrom]; constructor; auto.
Qed.

Lemma laterBig_renumber l : laterBig l -> laterBig (renumber l).
Proof.
  unfold laterBig. rewrite renumber_spec, tl_mapFrom.
  intros H. eapply Forall_mapFrom; [|exact H]. intros k x Hx. exact Hx.
Qed.

Lemma tl_firstn {A} n (l : list A) : tl (firstn n l) = firstn (Nat.pred n) (tl l).
Proof. destruct n, l; try reflexivity. cbn. now rewrite firstn_nil. Qed.

Lemma Forall_firstn {A} (P : A -> Prop) n l : Forall P l -> Forall P (firstn n l).
Proof.
  intros H. apply Forall_forall. intros x Hx. rewrite Forall_forall in H.
  apply H. eapply In_firstn, Hx.
Qed.

Lemma laterBig_prefix l m : laterBig l -> laterBig (slice l 0 m).
Proof.
  unfold laterBig, slice. intros H.
  replace (Z.to_nat (relIndex (len l) 0)) with O.
  - cbn [skipn]. rewrite tl_firstn. now apply Forall_firstn.
  - unfold relIndex. pose proof (len_nonneg l). destruct (Z.ltb_spec 0 0); lia.
Qed.

(** X16.  The heuristic splitter either falls back to paragraph-based chunking
    - when the text has at most one paragraph or no section of two lines or
    more - or returns chunks of which every one after the first has 20
    tokens or more by its [tokens] field: a section under 20 tokens is
    merged into the chunk before it. *)
Theorem heuristic_later_chunks_have_20_tokens t options :
  if (len (filter truthy (Regex.split Pat.blankLine t)) <=? 1) || (len (rawSections t) =? 0)
  then heuristicSemanticChunking t options = paragraphBasedChunking t options
  else Forall (fun c => 20 <= tokens c) (tl (chunks (heuristicSemanticChunking t options))).
Proof.
  unfold heuristicSemanticChunking, rawSections. cbv zeta.
  destruct (_ <=? 1); [reflexivity|]. cbn [orb].
  destruct (_ =? 0); [reflexivity|]. cbn [chunks].
  apply laterBig_renumber.
  assert (H : laterBig (flush (fold_left mergeSmall
                (spansOf (splitOn [Pat.LF] t) (findBoundaries (splitOn [Pat.LF] t)) [])
                ([], None)))).
  { apply fold_mergeSmall_laterBig.
    - apply spansOf_tokens_nonneg. constructor.
    - reflexivity.
    - constructor. }
  destruct (_ && _); [apply laterBig_prefix|]; exact H.
Qed.

(* ------------------------------------------------------------------ *)
(** ** The recursive splitter *)

Lemma fold_segments_total mode size next segments : forall results,
  (forall t, recursiveSplit None mode size t next <> None) ->
  fold_left (fun (acc : option (list string)) segment =>
    match acc with
    | None => None
    | Some results =>
        if fits mode size segment then Some (results ++ [segment])
        else
          match recursiveSplit None mode size segment next with
          | None => None
          | Some subSegments =>
              if spreadOk None subSegments then Some (results ++ subSegments) else None
          end
    end) segments (Some results) <> None.
Proof.
  induction segments as [|segment l IHl]; intros results IH; cbn [fold_left]; [discriminate|].
  destruct (fits mode size segment); [now apply IHl|].
  destruct (recursiveSplit None mode size segment next) as [sub|] eqn:E.
  - cbn [spreadOk]. now apply IHl.
  - exfalso. exact (IH _ E).
Qed.

(** Without a bound on the arguments of a call no [push] throws. *)
Lemma recursiveSplit_total mode size separators : forall t,
  recursiveSplit None mode size t separators <> None.
Proof.
  induction separators as [|separator next IH]; intros t; cbn [recursiveSplit]; [discriminate|].
  destruct (fits mode size t); [discriminate|].
  destruct (_ && _); [discriminate|].
  destruct (_ || _); [|discriminate].
  now apply fold_segments_total.
Qed.

Lemma recursiveTry_total t options : recursiveTry None t options <> None.
Proof.
  unfold recursiveTry.
  destruct (recursiveSplit None _ _ t _) eqn:E; [discriminate|].
  exfalso. exact (recursiveSplit_total _ _ _ _ E).
Qed.

Lemma toChunks_one t : toChunks [t] = [mkChunk 0 t (countTokens t) (len t)].
Proof. reflexivity. Qed.

Lemma countTokens_unit c : countTokens [c] <= 1.
Proof.
  unfold countTokens. rewrite tokenize_words. cbn [wordsFrom].
  destruct (isSpace c); cbn; lia.
Qed.

Lemma fits_unit mode size c : 1 <= size -> fits mode size [c] = true.
Proof.
  intros H. unfold fits. destruct mode; apply Z.leb_le.
  - pose proof (countTokens_unit c). lia.
  - change (len [c]) with 1. exact H.
Qed.

Lemma fits_units mode size t :
  1 <= size ->
  forallb (fits mode size) (filter (fun s => len (trim s) >? 0) (splitOn [] t)) = true.
Proof.
  intros H. apply forallb_forall. intros s Hs.
  apply filter_In in Hs as [Hs _]. cbn [splitOn] in Hs.
  apply in_map_iff in Hs as [c [<- _]]. now apply fits_unit.
Qed.

(** The loop over the segments appends fitting pieces when every recursive
    call does. *)
Lemma fold_segments_fit limit mode size next segments : forall results pieces,
  (forall segment sub, In segment segments ->
     recursiveSplit limit mode size segment next = Some sub ->
     fits mode size segment = false ->
     Forall (fun p => fits mode size p = true) sub) ->
  Forall (fun p => fits mode size p = true) results ->
  fold_left (fun (acc : option (list string)) segment =>
    match acc with
    | None => None
    | Some results =>
        if fits mode size segment then Some (results ++ [segment])
        else
          match recursiveSplit limit mode size segment next with
          | None => None
          | Some subSegments =>
              if spreadOk limit subSegments then Some (results ++ subSegments) else None
          end
    end) segments (Some results) = Some pieces ->
  Forall (fun p => fits mode size p = true) pieces.
Proof.
  induction segments as [|segment l IH]; intros results pieces Hrec Hres E; cbn [fold_left] in E.
  - injection E as <-. exact Hres.
  - assert (Hl : forall s sub, In s l ->
                 recursiveSplit limit mode size s next = Some sub ->
                 fits mode size s = false ->
                 Forall (fun p => fits mode size p = true) sub)
      by (intros s sub Hin; apply Hrec; now right).
    destruct (fits mode size segment) eqn:Ef.
    + apply (IH _ _ Hl) in E; [exact E|]. apply Forall_snoc; assumption.
    + destruct (recursiveSplit limit mode size segment next) as [sub|] eqn:Es.
      * destruct (spreadOk limit sub).
        -- apply (IH _ _ Hl) in E; [exact E|]. apply Forall_app. split; [assumption|].
           eapply Hrec; [now left|exact Es|exact Ef].
        -- clear -E. exfalso. induction l as [|x l IHl]; [discriminate|]. exact (IHl E).
      * clear -E. exfalso. induction l as [|x l IHl]; [discriminate|]. exact (IHl E).
Qed.

Lemma forallb_true_Forall {A} (f : A -> bool) l :
  forallb f l = true -> Forall (fun x => f x = true) l.
Proof. intros H. apply Forall_forall. now apply forallb_forall. Qed.

Lemma len_overlapLoop mode o l : forall prev, len (overlapLoop mode o prev l) = len l.
Proof.
  induction l as [|x l IH]; intros prev; [reflexivity|].
  cbn [overlapLoop]. rewrite !len_cons, IH. reflexivity.
Qed.

Lemma overlapLoop_suffix mode o l : forall prev,
  Forall2 (fun out chunk => exists prefix, out = prefix ++ chunk)
    (overlapLoop mode o prev l) l.
Proof.
  induction l as [|x l IH]; intros prev; cbn [overlapLoop]; constructor.
  - destruct prev as [p|].
    + exists (overlapText mode o p ++ glue (overlapText mode o p)).
      now rewrite <- app_assoc.
    + now exists [].
  - apply IH.
Qed.

Lemma Forall2_same_suffix (l : list string) :
  Forall2 (fun out chunk => exists prefix, out = prefix ++ chunk) l l.
Proof. induction l; constructor; [now exists []|assumption]. Qed.

(** X18.  The result of the [try] block of the recursive splitter keeps a
    positive [maxChunks]; so does the splitter where the block cannot throw. *)
Theorem recursive_at_most_maxChunks limit fuel t options m :
  maxChunks options = Some m -> 0 < m ->
  (forall r, recursiveTry limit t options = Some r -> len (chunks r) <= m)
  /\ (forall r, recursiveTextSplitter None fuel t options = Some r -> len (chunks r) <= m).
Proof.
  intros Hm Hpos. split.
  - intros r. now apply recursiveTry_within_maxChunks.
  - intros r. unfold recursiveTextSplitter.
    destruct (recursiveTry None t options) as [r'|] eqn:E.
    + intros E'. injection E' as <-. eapply recursiveTry_within_maxChunks; eauto.
    + exfalso. exact (recursiveTry_total _ _ E).
Qed.

Lemma recursive_at_most_maxChunks_witness :
  (forall r, recursiveTry (Some 3) (str "aa bb cc dd")
               (mkOptions (Some 2) (Some 0) None (Some 2) None None None) = Some r ->
             len (chunks r) <= 2)
  /\ (forall r, recursiveTextSplitter None 5 (str "aa bb cc dd")
                  (mkOptions (Some 2) (Some 0) None (Some 2) None None None) = Some r ->
                len (chunks r) <= 2).
Proof.
  apply (recursive_at_most_maxChunks (Some 3) 5 (str "aa bb cc dd")
           (mkOptions (Some 2) (Some 0) None (Some 2) None None None) 2 eq_refl).
  lia.
Defined.

(** X19.  A text that fits the chunk size - in code units in the 'characters'
    mode, in tokens in the 'tokens' mode - comes back from the recursive
    splitter as one chunk holding the text unchanged, whatever the
    separators, the overlap and the ceiling. *)
Theorem recursive_fitting_text_is_one_chunk limit fuel t options :
  fits (orDefault charactersMode (chunkingMode options))
       (orDefault 500 (chunkSize options)) t = true ->
  exists r,
    recursiveTextSplitter limit fuel t options = Some r
    /\ chunks r = [mkChunk 0 t (countTokens t) (len t)].
Proof.
  intros Hfits. unfold recursiveTextSplitter, recursiveTry.
  assert (E : recursiveSplit limit (orDefault charactersMode (chunkingMode options))
                (orDefault 500 (chunkSize options)) t
                (orDefault defaultSeparators (customSeparators options)) = Some [t]).
  { destruct (orDefault defaultSeparators (customSeparators options)); cbn [recursiveSplit];
      [reflexivity|]. now rewrite Hfits. }
  rewrite E. eexists. split; [reflexivity|]. cbn [chunks].
  cbn [mergeSmallChunks].
  assert (O : (if orDefault 50 (overlap options) >? 0
               then applyOverlap (orDefault charactersMode (chunkingMode options)) [t]
                      (orDefault 50 (overlap options))
               else [t]) = [t]) by (destruct (_ >? 0); reflexivity).
  rewrite O.
  destruct (Z.gtb_spec (orDefault 0 (maxChunks options)) 0) as [Hm|Hm]; [|reflexivity].
  cbn [andb]. change (len [t]) with 1.
  destruct (Z.gtb_spec 1 (orDefault 0 (maxChunks options))); [lia|reflexivity].
Qed.

Lemma recursive_fitting_text_is_one_chunk_witness :
  exists r,
    recursiveTextSplitter None 5 (str "Hello world. Short text.") noOptions = Some r
    /\ chunks r = [mkChunk 0 (str "Hello world. Short text.")
                     (countTokens (str "Hello world. Short text."))
                     (len (str "Hello world. Short text."))].
Proof.
  apply (recursive_fitting_text_is_one_chunk None 5 (str "Hello world. Short text.") noOptions).
  reflexivity.
Defined.

(** X20.  When the separator list ends with the empty separator, as the
    default list does, and the chunk size is 1 or more, every piece that
    [recursiveSplit] returns fits the chunk size in the unit of the mode.
    (The merge and the overlap that follow join pieces with glue text and
    can pass the size again.) *)
Theorem recursiveSplit_pieces_fit limit mode size t separators pieces :
  1 <= size ->
  recursiveSplit limit mode size t (separators ++ [[]]) = Some pieces ->
  Forall (fun p => fits mode size p = true) pieces.
Proof.
  intros Hsize. revert t pieces.
  induction separators as [|separator pre IH]; intros t pieces E.
  - cbn [app recursiveSplit] in E.
    destruct (fits mode size t) eqn:Ef; [injection E as <-; now constructor|].
    rewrite (fits_units mode size t Hsize), andb_true_r in E. cbn [negb] in E.
    rewrite orb_false_r in E.
    destruct (_ >? 1); [injection E as <-; apply forallb_true_Forall, fits_units, Hsize|].
    destruct (_ <=? 1).
    + eapply (fold_segments_fit limit mode size []); [| |exact E]; [|constructor].
      intros segment sub Hin _ Hno. exfalso.
      pose proof (fits_units mode size t Hsize) as Hall.
      rewrite forallb_forall in Hall. rewrite (Hall _ Hin) in Hno. discriminate.
    + injection E as <-. apply forallb_true_Forall, fits_units, Hsize.
  - cbn [app recursiveSplit] in E.
    destruct (fits mode size t) eqn:Ef; [injection E as <-; now constructor|].
    destruct (forallb _ _) eqn:Eall.
    + rewrite andb_true_r in E. cbn [negb] in E. rewrite orb_false_r in E.
      destruct (_ >? 1); [injection E as <-; now apply forallb_true_Forall|].
      destruct (_ <=? 1).
      * eapply fold_segments_fit; [| |exact E]; [|constructor].
        intros segment sub _ Es _. exact (IH _ _ Es).
      * injection E as <-. now apply forallb_true_Forall.
    + rewrite andb_false_r in E. cbn [negb] in E. rewrite orb_true_r in E.
      eapply fold_segments_fit; [| |exact E]; [|constructor].
      intros segment sub _ Es _. exact (IH _ _ Es).
Qed.

Lemma recursiveSplit_pieces_fit_witness :
  match recursiveSplit None charactersMode 4 (str "aa bb, cc. dd ee") defaultSeparators with
  | Some pieces => Forall (fun p => fits charactersMode 4 p = true) pieces
  | None => False
  end.
Proof.
  destruct (recursiveSplit None charactersMode 4 (str "aa bb, cc. dd ee") defaultSeparators)
    as [pieces|] eqn:E.
  - exact (recursiveSplit_pieces_fit None charactersMode 4 (str "aa bb, cc. dd ee")
             [[Pat.LF; Pat.LF]; [Pat.LF]; str ". "; str ", "; str " "] pieces
             ltac:(lia) E).
  - vm_compute in E. discriminate.
Defined.

(** X21.  [applyOverlap] of the recursive splitter returns as many chunks as
    it is given, leaves the first one as it is, and only adds text in front
    of the others: every chunk still ends with its own text. *)
Theorem applyOverlap_keeps_every_chunk mode l overlapSize :
  len (applyOverlap mode l overlapSize) = len l
  /\ nth_error (applyOverlap mode l overlapSize) 0 = nth_error l 0
  /\ Forall2 (fun out chunk => exists prefix, out = prefix ++ chunk)
       (applyOverlap mode l overlapSize) l.
Proof.
  unfold applyOverlap. destruct (_ || _).
  - split; [reflexivity|]. split; [reflexivity|]. apply Forall2_same_suffix.
  - split; [apply len_overlapLoop|]. split; [destruct l; reflexivity|].
    apply overlapLoop_suffix.
Qed.

(* ------------------------------------------------------------------ *)
(** ** Failed embeddings *)

Lemma zero_norm n :
  fold_left (fun sum a => PrimFloat.add sum (PrimFloat.mul a a)) (repeat 0%float n) 0%float
  = 0%float.
Proof. induction n as [|n IH]; [reflexivity|]. cbn [repeat fold_left]. exact IH. Qed.

Lemma length_repeat_zero n : length (repeat 0%float n) = n.
Proof. apply repeat_length. Qed.

(** X22.  An embedding request that fails is answered by [getOpenAIEmbeddings]
    with a vector of 1536 zeros, and [cosineSimilarity] of that vector with
    any vector of the same length is 0, not NaN: the zero test on the norms
    comes before the division. *)
Theorem failed_embedding_has_similarity_zero (provider : Provider) key t vecB :
  provider key t = None ->
  length vecB = 1536%nat ->
  cosineSimilarity (getOpenAIEmbeddings provider t key) vecB = Some 0%float.
Proof.
  intros Hfail Hlen. unfold getOpenAIEmbeddings. rewrite Hfail.
  apply cosineSimilarity_zero_norm.
  - now rewrite length_repeat_zero.
  - left. now rewrite zero_norm.
Qed.

Lemma failed_embedding_has_similarity_zero_witness :
  cosineSimilarity (getOpenAIEmbeddings failingProvider (str "text") (str "key"))
    (repeat 1%float 1536) = Some 0%float.
Proof.
  apply (failed_embedding_has_similarity_zero failingProvider (str "key") (str "text")
           (repeat 1%float 1536) eq_refl).
  apply repeat_length.
Defined.

(* ------------------------------------------------------------------ *)
(** ** Batch embedding *)

Lemma mapFrom_app {A B} (g : Z -> A -> B) a b : forall k,
  mapFrom g k (a ++ b) = mapFrom g k a ++ mapFrom g (k + len a) b.
Proof.
  induction a as [|x a IH]; intros k; cbn [app mapFrom].
  - change (len (@nil A)) with 0. now rewrite Z.add_0_r.
  - rewrite IH, len_cons. do 3 f_equal. lia.
Qed.

Lemma mapFrom_ext {A B} (g h : Z -> A -> B) l : forall k,
  (forall j x, k <= j < k + len l -> g j x = h j x) -> mapFrom g k l = mapFrom h k l.
Proof.
  induction l as [|x l IH]; intros k H; [reflexivity|].
  cbn [mapFrom]. rewrite len_cons in H. pose proof (len_nonneg l). f_equal.
  - apply H. lia.
  - apply IH. intros j y Hj. apply H. lia.
Qed.

Lemma mapFrom_same {A} (g : Z -> A -> A) l : forall k,
  (forall j x, k <= j < k + len l -> g j x = x) -> mapFrom g k l = l.
Proof.
  induction l as [|x l IH]; intros k H; [reflexivity|].
  cbn [mapFrom]. rewrite len_cons in H. pose proof (len_nonneg l). f_equal.
  - apply H. lia.
  - apply IH. intros j y Hj. apply H. lia.
Qed.

Lemma mapFrom_shift {A B} (g : Z -> A -> B) i l : forall k,
  mapFrom (fun b x => g (i + b) x) k l = mapFrom g (i + k) l.
Proof.
  induction l as [|x l IH]; intros k; [reflexivity|].
  cbn [mapFrom]. rewrite IH. do 2 f_equal. lia.
Qed.

Lemma assignEmbedding_spec l index e :
  assignEmbedding l index e
  = mapFrom (fun k c => if k =? index then mkEmbedded (chunk c) e else c) 0 l.
Proof.
  unfold assignEmbedding. rewrite foldIndexed_cons, app_nil_r. apply rev_involutive.
Qed.

Lemma assignEmbedding_at pre c post e :
  assignEmbedding (pre ++ c :: post) (len pre) e = pre ++ mkEmbedded (chunk c) e :: post.
Proof.
  rewrite assignEmbedding_spec, mapFrom_app. cbn [mapFrom]. pose proof (len_nonneg pre).
  rewrite Z.add_0_l, Z.eqb_refl. f_equal; [|f_equal].
  - apply mapFrom_same. intros j x Hj. destruct (Z.eqb_spec j (len pre)); [lia|reflexivity].
  - apply mapFrom_same. intros j x Hj. destruct (Z.eqb_spec j (len pre)); [lia|reflexivity].
Qed.

Lemma requestBatch_spec request key i batch :
  requestBatch request key i batch
  = mapFrom (fun index c => (index, request index key (text (chunk c)))) i batch.
Proof.
  unfold requestBatch. rewrite foldIndexed_cons, app_nil_r, rev_involutive.
  rewrite (mapFrom_shift (fun index c => (index, request index key (text (chunk c))))).
  now rewrite Z.add_0_r.
Qed.

(** Storing the answers of a batch changes the chunks of the batch, each by
    its own answer, and nothing else. *)
Lemma storeResults_batch request key batch : forall pre post,
  storeResults (pre ++ batch ++ post)
    (mapFrom (fun index c => (index, request index key (text (chunk c)))) (len pre) batch)
  = pre ++ mapFrom (embedOne request key) (len pre) batch ++ post.
Proof.
  induction batch as [|c batch IH]; intros pre post; [reflexivity|].
  cbn [mapFrom app]. unfold storeResults in *. cbn [fold_left fst snd].
  assert (E : match request (len pre) key (text (chunk c)) with
              | Succeeded e => assignEmbedding (pre ++ c :: batch ++ post) (len pre) e
              | Rejected => pre ++ c :: batch ++ post
              end = (pre ++ [embedOne request key (len pre) c]) ++ batch ++ post).
  { unfold embedOne. destruct (request (len pre) key (text (chunk c))).
    - rewrite assignEmbedding_at, <- app_assoc. reflexivity.
    - rewrite <- app_assoc. reflexivity. }
  rewrite E.
  replace (len pre + 1) with (len (pre ++ [embedOne request key (len pre) c]))
    by (rewrite len_app; reflexivity).
  rewrite IH, <- app_assoc. reflexivity.
Qed.

Lemma len_firstn_le {A} (l : list A) k : (k <= length l)%nat -> len (firstn k l) = Z.of_nat k.
Proof. intros H. unfold len. rewrite length_firstn. lia. Qed.

Lemma generateEmbeddings_loop request batchSize key l :
  1 <= batchSize ->
  forLoopUpTo (len l) batchSize (fun i chunksWithEmbeddings =>
    let batch := slice chunksWithEmbeddings i (i + batchSize) in
    let batchResults := requestBatch request key i batch in
    Next (storeResults chunksWithEmbeddings batchResults)) l
  = embedEach request key l.
Proof.
  intros Hsize.
  apply forLoopUpTo_invariant
    with (P := fun i s => 0 <= i /\
                 s = mapFrom (embedOne request key) 0 (firstn (Z.to_nat i) l)
                     ++ skipn (Z.to_nat i) l)
         (Q := fun s => s = embedEach request key l).
  - exact Hsize.
  - intros i s [Hi ->] Hlt. cbv beta zeta. split; [lia|].
    set (done := mapFrom (embedOne request key) 0 (firstn (Z.to_nat i) l)).
    assert (Ld : len done = i).
    { unfold done. rewrite len_mapFrom, len_firstn_le; unfold len in *; lia. }
    rewrite slice_window by lia.
    rewrite skipn_app, (skipn_all2 done) by (unfold len in Ld; lia).
    replace (Z.to_nat i - length done)%nat with O by (unfold len in Ld; lia).
    cbn [app skipn].
    rewrite requestBatch_spec.
    rewrite <- (firstn_skipn (Z.to_nat batchSize) (skipn (Z.to_nat i) l)) at 1.
    pose proof (storeResults_batch request key
                  (firstn (Z.to_nat batchSize) (skipn (Z.to_nat i) l)) done
                  (skipn (Z.to_nat batchSize) (skipn (Z.to_nat i) l))) as Hstore.
    rewrite Ld in Hstore. rewrite Hstore.
    rewrite skipn_skipn.
    replace (Z.to_nat (i + batchSize)) with (Z.to_nat i + Z.to_nat batchSize)%nat by lia.
    rewrite <- firstn_then_more, mapFrom_app.
    rewrite (Nat.add_comm (Z.to_nat i)), <- app_assoc.
    unfold done. do 3 f_equal.
    rewrite len_firstn_le; unfold len in *; lia.
  - intros i s [Hi ->] Hge. unfold embedEach.
    rewrite firstn_all2, skipn_all2 by (unfold len in *; lia).
    apply app_nil_r.
  - split; [lia|reflexivity].
Qed.

(** X23.  [generateEmbeddings]: with at least one chunk and an API key, the
    batched loop - whatever the batch size, 15 in one copy of the page and 5
    in the other - leaves every chunk with the answer to its own request: a
    chunk whose request succeeds gets the embedding of the response, a chunk
    whose request is rejected is left as it was, and no chunk is lost,
    duplicated or moved. *)
Theorem generateEmbeddings_embeds_each_chunk request batchSize key finalizedChunks :
  1 <= batchSize ->
  finalizedChunks <> [] ->
  truthy key = true ->
  generateEmbeddings request batchSize key finalizedChunks
  = inr (embedEach request key finalizedChunks).
Proof.
  intros Hsize Hchunks Hkey. unfold generateEmbeddings.
  destruct (Z.eqb_spec (len finalizedChunks) 0) as [E|_].
  - destruct finalizedChunks; [congruence|]. rewrite len_cons in E.
    pose proof (len_nonneg finalizedChunks). lia.
  - rewrite Hkey. cbn [negb]. f_equal. now apply generateEmbeddings_loop.
Qed.

Lemma generateEmbeddings_embeds_each_chunk_witness :
  generateEmbeddings secondRejected 15 (str "key")
    [plainChunk 0 "one"; plainChunk 1 "two"; plainChunk 2 "three"]
  = inr [mkEmbedded (chunk (plainChunk 0 "one")) (Some [1%float]);
         plainChunk 1 "two";
         mkEmbedded (chunk (plainChunk 2 "three")) (Some [1%float])].
Proof.
  apply (generateEmbeddings_embeds_each_chunk secondRejected 15 (str "key")
           [plainChunk 0 "one"; plainChunk 1 "two"; plainChunk 2 "three"]).
  - lia.
  - discriminate.
  - reflexivity.
Defined.

(* ------------------------------------------------------------------ *)
(** ** Export and ranking *)

Lemma sumOf_map f l : sumOf f l = sumZ (map f l).
Proof.
  unfold sumOf, sumZ. generalize 0.
  induction l as [|c l IH]; intros z; [reflexivity|]. cbn [map fold_left]. apply IH.
Qed.

Lemma In_insertSorted {A} (after : A -> A -> bool) x y l :
  In y (insertSorted after x l) <-> y = x \/ In y l.
Proof.
  induction l as [|z l IH]; cbn [insertSorted].
  - cbn. intuition congruence.
  - destruct (after z x); cbn [In]; [intuition congruence|]. rewrite IH. intuition congruence.
Qed.

Lemma In_sortBy {A} (after : A -> A -> bool) y l : In y (sortBy after l) <-> In y l.
Proof.
  unfold sortBy.
  assert (G : forall acc, In y (fold_left (fun sorted x => insertSorted after x sorted) l acc)
                          <-> In y l \/ In y acc).
  { induction l as [|x l IH]; intros acc; cbn [fold_left].
    - cbn. tauto.
    - rewrite IH, In_insertSorted. cbn [In]. intuition congruence. }
  rewrite G. cbn. tauto.
Qed.

Lemma len_candidates (g : EmbeddedChunk -> list float -> QueryResult) l :
  len (flat_map (fun c => match embedding c with Some e => [g c e] | None => [] end) l)
  = len (filter hasEmbedding l).
Proof.
  induction l as [|c l IH]; [reflexivity|].
  cbn [flat_map filter]. unfold hasEmbedding at 1. destruct (embedding c).
  - cbn [app]. rewrite !len_cons, IH. reflexivity.
  - exact IH.
Qed.

Lemma len_slice_prefix_min {A} (l : list A) m : 0 <= m -> len (slice l 0 m) = Z.min m (len l).
Proof.
  intros Hm. unfold slice, relIndex. pose proof (len_nonneg l).
  destruct (Z.ltb_spec m 0); [lia|]. destruct (Z.ltb_spec 0 0); [lia|].
  rewrite (Z.min_l 0 (len l)) by lia. cbn [skipn Z.to_nat].
  unfold len in *. rewrite length_firstn. lia.
Qed.

(** X24.  The exported JSON numbers the chunks of every chunking result from 1
    on, in order: entry [i] of the exported array has [chunkNumber = i + 1],
    and the array has [analysis.totalChunks] entries. *)
Theorem export_numbers_chunks_from_one env fuel t method options r e :
  chunkTextAsync env fuel t method options = Some r ->
  downloadChunksAsJson t (chunks r) = Some e ->
  (forall i f, nth_error (exportedChunks e) i = Some f -> chunkNumber f = Z.of_nat i + 1)
  /\ len (exportedChunks e) = totalChunks (analysis r).
Proof.
  intros Er Ee.
  assert (W : wellFormed r).
  { destruct method; simpl in Er; try (injection Er as <-);
      eauto using fixedLength_wellFormed, fixedLengthChars_wellFormed, recursive_wellFormed,
        sentenceBased_wellFormed, paragraphBased_wellFormed, slidingWindow_wellFormed,
        semantic_wellFormed, hybrid_wellFormed, agentic_wellFormed. }
  destruct W as [Hn Ht]. unfold downloadChunksAsJson in Ee.
  destruct (len (chunks r) =? 0); [discriminate|]. injection Ee as <-.
  cbn [exportedChunks]. unfold formatChunks. split.
  - intros i f Hf. rewrite nth_error_map in Hf.
    destruct (nth_error (chunks r) i) as [c|] eqn:Ec; [|discriminate].
    injection Hf as <-. cbn [chunkNumber]. now rewrite (Hn _ _ Ec).
  - now rewrite len_map, Ht.
Qed.

Lemma export_numbers_chunks_from_one_witness :
  match chunkTextAsync (mkEnvironment None failingProvider) 5 (str "a b c d e f g h")
          fixed_length (sizeAndOverlap 4 0) with
  | Some r =>
      match downloadChunksAsJson (str "a b c d e f g h") (chunks r) with
      | Some e =>
          (forall i f, nth_error (exportedChunks e) i = Some f ->
                       chunkNumber f = Z.of_nat i + 1)
          /\ len (exportedChunks e) = totalChunks (analysis r)
      | None => False
      end
  | None => False
  end.
Proof.
  destruct (chunkTextAsync (mkEnvironment None failingProvider) 5 (str "a b c d e f g h")
              fixed_length (sizeAndOverlap 4 0)) as [r|] eqn:Er.
  - destruct (downloadChunksAsJson (str "a b c d e f g h") (chunks r)) as [e|] eqn:Ee.
    + exact (export_numbers_chunks_from_one _ _ _ _ _ _ _ Er Ee).
    + vm_compute in Er. injection Er as <-. vm_compute in Ee. discriminate.
  - vm_compute in Er. discriminate.
Defined.

(** X25.  The totals of the exported JSON agree with its entries for every
    chunking result: [totalCharacters] is the sum of the lengths of the
    exported [content] strings and [totalTokens] the sum of their token
    counts. *)
Theorem export_totals_match_content env fuel t method options r e :
  chunkTextAsync env fuel t method options = Some r ->
  downloadChunksAsJson t (chunks r) = Some e ->
  totalCharacters e = sumZ (map (fun f => len (content f)) (exportedChunks e))
  /\ totalTokens e = sumZ (map (fun f => countTokens (content f)) (exportedChunks e)).
Proof.
  intros Er Ee. pose proof (chunkTextAsync_describes _ _ _ _ _ _ Er) as D.
  unfold downloadChunksAsJson in Ee.
  destruct (len (chunks r) =? 0); [discriminate|]. injection Ee as <-.
  cbn [totalCharacters totalTokens exportedChunks]. unfold formatChunks.
  rewrite !sumOf_map, !map_map. cbn [content].
  split; f_equal; apply map_ext_Forall; eapply Forall_impl; [|exact D| |exact D];
    intros c [H1 H2]; assumption.
Qed.

Lemma export_totals_match_content_witness :
  match chunkTextAsync (mkEnvironment None failingProvider) 5 (str "a b c d e f g h")
          fixed_length (sizeAndOverlap 4 0) with
  | Some r =>
      match downloadChunksAsJson (str "a b c d e f g h") (chunks r) with
      | Some e =>
          totalCharacters e = sumZ (map (fun f => len (content f)) (exportedChunks e))
          /\ totalTokens e = sumZ (map (fun f => countTokens (content f)) (exportedChunks e))
      | None => False
      end
  | None => False
  end.
Proof.
  destruct (chunkTextAsync (mkEnvironment None failingProvider) 5 (str "a b c d e f g h")
              fixed_length (sizeAndOverlap 4 0)) as [r|] eqn:Er.
  - destruct (downloadChunksAsJson (str "a b c d e f g h") (chunks r)) as [e|] eqn:Ee.
    + exact (export_totals_match_content _ _ _ _ _ _ _ Er Ee).
    + vm_compute in Er. injection Er as <-. vm_compute in Ee. discriminate.
  - vm_compute in Er. discriminate.
Defined.

(** X26.  The ranker returns [min(topK, number of chunks that have an
    embedding)] results, and every result is the id, the text and the
    similarity score of one of the given chunks that has an embedding:
    chunks without an embedding are never returned. *)
Theorem findSimilarChunks_from_embedded_chunks queryEmbedding l topK :
  0 <= topK ->
  len (findSimilarChunks queryEmbedding l topK) = Z.min topK (len (filter hasEmbedding l))
  /\ forall q, In q (findSimilarChunks queryEmbedding l topK) ->
       exists c e,
         In c l /\ embedding c = Some e
         /\ q = mkQueryResult (id (chunk c)) (text (chunk c))
                  (calculateCosineSimilarity queryEmbedding e).
Proof.
  intros Hk. unfold findSimilarChunks. split.
  - rewrite len_slice_prefix_min, len_sortBy by assumption.
    now rewrite (len_candidates (fun c e =>
      mkQueryResult (id (chunk c)) (text (chunk c))
        (calculateCosineSimilarity queryEmbedding e))).
  - intros q Hq. apply In_slice, In_sortBy, in_flat_map in Hq as [c [Hc Hq]].
    destruct (embedding c) as [e|] eqn:E; [|contradiction].
    destruct Hq as [<-|[]]. exists c, e. repeat split; assumption.
Qed.

Lemma findSimilarChunks_from_embedded_chunks_witness :
  len (findSimilarChunks [1%float]
         [mkEmbedded (chunk (plainChunk 0 "one")) (Some [1%float]); plainChunk 1 "two"] 5)
  = Z.min 5 (len (filter hasEmbedding
         [mkEmbedded (chunk (plainChunk 0 "one")) (Some [1%float]); plainChunk 1 "two"]))
  /\ forall q, In q (findSimilarChunks [1%float]
         [mkEmbedded (chunk (plainChunk 0 "one")) (Some [1%float]); plainChunk 1 "two"] 5) ->
       exists c e,
         In c [mkEmbedded (chunk (plainChunk 0 "one")) (Some [1%float]); plainChunk 1 "two"]
         /\ embedding c = Some e
         /\ q = mkQueryResult (id (chunk c)) (text (chunk c))
                  (calculateCosineSimilarity [1%float] e).
Proof.
  apply (findSimilarChunks_from_embedded_chunks [1%float]
           [mkEmbedded (chunk (plainChunk 0 "one")) (Some [1%float]); plainChunk 1 "two"] 5).
  lia.
Defined.

(* ------------------------------------------------------------------ *)
(** ** The notes of a fallback result *)

(** A literal separator whose first code unit is not in the text does not
    split it. *)
Lemma splitFrom_absent c p a n : forall cur b,
  N.eqb c a = false ->
  Regex.splitFrom (Regex.lit (c :: p)) 0 cur b (repeat a n) = [rev cur ++ repeat a n].
Proof.
  induction n as [|n IH]; intros cur b Hc; cbn [repeat Regex.splitFrom].
  - now rewrite app_nil_r.
  - rewrite matchAt_lit by discriminate. cbn [isPrefix]. rewrite Hc. cbn [andb].
    rewrite IH by assumption. cbn [rev]. now rewrite <- app_assoc.
Qed.

Lemma splitOn_letters c p n :
  N.eqb c 97 = false -> splitOn (c :: p) (letters n) = [letters n].
Proof. intros Hc. unfold splitOn, Regex.split, letters. now rewrite splitFrom_absent. Qed.

Lemma rev_letters n : rev (letters n) = letters n.
Proof.
  unfold letters. induction n as [|n IH]; [reflexivity|].
  cbn [repeat rev]. rewrite IH. clear IH.
  induction n as [|n IH]; [reflexivity|]. cbn [repeat app]. now rewrite IH.
Qed.

Lemma trim_letters n : trim (letters n) = letters n.
Proof.
  unfold trim, trimEnd, trimStart.
  assert (D : dropWhile isSpace (letters n) = letters n) by (destruct n; reflexivity).
  rewrite D, rev_letters, D. apply rev_letters.
Qed.

Lemma len_letters n : len (letters n) = Z.of_nat n.
Proof. unfold len, letters. now rewrite repeat_length. Qed.

(** The last separator, [''], cuts the letters apart, and every one fits. *)
Lemma recursiveSplit_letters_apart limit n :
  (2 <= n)%nat ->
  recursiveSplit limit charactersMode 1 (letters n) [[]]
  = Some (map (fun c => [c]) (letters n)).
Proof.
  intros Hn. cbn [recursiveSplit]. unfold fits at 1. rewrite len_letters.
  destruct (Z.leb_spec (Z.of_nat n) 1); [lia|].
  assert (F : filter (fun s => len (trim s) >? 0) (splitOn [] (letters n))
              = map (fun c => [c]) (letters n)).
  { cbn [splitOn]. unfold letters. clear. induction n as [|n IH]; [reflexivity|].
    cbn [repeat map filter]. change (len (trim [97%N]) >? 0) with true. cbv iota.
    now rewrite IH. }
  rewrite F.
  match goal with |- context [@len ?T ?l >? 1] =>
    assert (L : @len T l = Z.of_nat n)
      by (unfold len; rewrite length_map; fold (len (letters n)); apply len_letters);
    assert (A : forallb (fits charactersMode 1) l = true)
      by (apply forallb_forall; intros s Hs; apply in_map_iff in Hs as [c [<- _]];
          reflexivity)
  end.
  rewrite L, A. destruct (Z.gtb_spec (Z.of_nat n) 1); [|lia]. reflexivity.
Qed.

(** A separator that is not in the letters hands them to the next one, and
    spreads what comes back into [results.push]. *)
Lemma recursiveSplit_letters_level limit c p next n :
  (2 <= n)%nat -> N.eqb c 97 = false ->
  recursiveSplit limit charactersMode 1 (letters n) ((c :: p) :: next)
  = match recursiveSplit limit charactersMode 1 (letters n) next with
    | Some subSegments => if spreadOk limit subSegments then Some subSegments else None
    | None => None
    end.
Proof.
  intros Hn Hc. cbn [recursiveSplit]. unfold fits at 1. rewrite len_letters.
  destruct (Z.leb_spec (Z.of_nat n) 1); [lia|].
  rewrite splitOn_letters by assumption.
  cbn [filter]. rewrite trim_letters, len_letters.
  destruct (Z.gtb_spec (Z.of_nat n) 0); [|lia].
  change (len [letters n]) with 1.
  change (1 >? 1) with false. change (1 <=? 1) with true. cbn [andb orb fold_left].
  replace (fits charactersMode 1 (letters n)) with false
    by (unfold fits; rewrite len_letters; symmetry; apply Z.leb_gt; lia).
  destruct (recursiveSplit limit charactersMode 1 (letters n) next); reflexivity.
Qed.

(** Whatever the bound [limit] of the engine, a text of more letters than
    that makes the [try] block throw. *)
Lemma recursiveTry_beyond_limit limit n :
  1 <= limit < Z.of_nat n ->
  recursiveTry (Some limit) (letters n) (sizeOnly 1) = None.
Proof.
  intros Hn. unfold recursiveTry.
  cbn [sizeOnly chunkSize overlap maxChunks chunkingMode customSeparators orDefault].
  unfold defaultSeparators.
  assert (E : recursiveSplit (Some limit) charactersMode 1 (letters n)
                [str " "; []] = None).
  { change (str " ") with [32%N]. rewrite recursiveSplit_letters_level by (lia || reflexivity).
    rewrite recursiveSplit_letters_apart by lia.
    unfold spreadOk, len. rewrite length_map. fold (len (letters n)). rewrite len_letters.
    destruct (Z.leb_spec (Z.of_nat n) limit); [lia|reflexivity]. }
  change (str ", ") with [44%N; 32%N]. change (str ". ") with [46%N; 32%N].
  rewrite (recursiveSplit_letters_level _ Pat.LF) by (lia || reflexivity).
  rewrite (recursiveSplit_letters_level _ Pat.LF) by (lia || reflexivity).
  rewrite (recursiveSplit_letters_level _ 46%N) by (lia || reflexivity).
  rewrite (recursiveSplit_letters_level _ 44%N) by (lia || reflexivity).
  rewrite E. reflexivity.
Qed.

Lemma tokenize_letters n : (1 <= n)%nat -> tokenize (letters n) = [letters n].
Proof.
  intros Hn. rewrite tokenize_words, wordsFrom_token.
  - destruct n; [lia|reflexivity].
  - apply forallb_forall. intros c Hc. apply repeat_spec in Hc. now subst c.
Qed.

(** The fixed-length division that answers for those letters. *)
Lemma fixedLength_letters n fuel :
  (1 <= n)%nat -> (2 <= fuel)%nat ->
  fixedLengthChunking fuel (letters n) (sizeOnly 1)
  = Some (mkResult [mkChunk 0 (letters n) 1 (len (letters n))]
            (analyse [mkChunk 0 (letters n) 1 (len (letters n))]
               (str "Text was divided into 1 chunks of approximately 1 tokens each."))).
Proof.
  intros Hn Hfuel. unfold fixedLengthChunking.
  cbn [sizeOnly chunkSize overlap chunkingMode orDefault isMode negb orb andb].
  change (1 >? 200) with false. cbv iota. rewrite tokenize_letters by assumption.
  destruct fuel as [|[|fuel]]; [lia|lia|]. reflexivity.
Qed.

(** The notes of a successful recursive split. *)
Lemma recursiveTry_notes limit t options r :
  recursiveTry limit t options = Some r ->
  isPrefix (str "Text was recursively split into ") (notes (analysis r)) = true.
Proof.
  unfold recursiveTry. destruct (recursiveSplit _ _ _ _ _); [|discriminate].
  intros E. injection E as <-. reflexivity.
Qed.

Lemma notes_differ (a b : string) :
  isPrefix (str "Text was divided into ") a = true ->
  isPrefix (str "Text was recursively split into ") b = true ->
  a <> b.
Proof.
  intros Ha Hb E. subst b.
  do 9 (destruct a as [|? a]; [discriminate|];
        cbn [str isPrefix String.list_ascii_of_string map] in Ha, Hb;
        apply andb_prop in Ha as [_ Ha]; apply andb_prop in Hb as [_ Hb]).
  destruct a as [|c a]; [discriminate|].
  cbn [isPrefix] in Ha, Hb.
  apply andb_prop in Ha as [Ha _]. apply andb_prop in Hb as [Hb _].
  apply N.eqb_eq in Ha, Hb. rewrite <- Ha in Hb. vm_compute in Hb. discriminate Hb.
Qed.

(** C8.  Whenever the [try] block of the recursive splitter fails, the
    splitter returns the result of [fixedLengthChunking] for the same text
    and the original options, and the analysis notes of that result tell the
    substitution apart from a recursive split: they read "Text was divided
    into ...", the notes of a fixed-length division, while the notes of every
    successful recursive split, of any text and options, read "Text was
    recursively split into ...".  So the notes of a fallback result are never
    those of a successful recursive split. *)
Theorem recursive_fallback_is_distinguishable limit fuel t options r :
  recursiveTry limit t options = None ->
  recursiveTextSplitter limit fuel t options = Some r ->
  fixedLengthChunking fuel t options = Some r
  /\ isPrefix (str "Text was divided into ") (notes (analysis r)) = true
  /\ forall limit' t' options' r',
       recursiveTry limit' t' options' = Some r' ->
       isPrefix (str "Text was recursively split into ") (notes (analysis r')) = true
       /\ notes (analysis r) <> notes (analysis r').
Proof.
  intros Hthrow Hr. rewrite (recursive_catch _ fuel _ _ Hthrow) in Hr.
  split; [exact Hr|]. split; [now apply fixedLength_notes in Hr|].
  intros limit' t' options' r' Hr'.
  split; [now apply recursiveTry_notes in Hr'|].
  apply notes_differ; [now apply fixedLength_notes in Hr|now apply recursiveTry_notes in Hr'].
Qed.

(** On an engine that takes at most 65536 arguments in a call, 65537 letters
    without a separator come back from the last separator as 65537 pieces,
    and [results.push(...subSegments)] throws. *)
Lemma recursive_fallback_is_distinguishable_witness :
  let t := letters (Z.to_nat 65537) in
  let r := mkResult [mkChunk 0 t 1 (len t)]
             (analyse [mkChunk 0 t 1 (len t)]
                (str "Text was divided into 1 chunks of approximately 1 tokens each.")) in
  recursiveTry (Some 65536) t (sizeOnly 1) = None
  /\ recursiveTextSplitter (Some 65536) 2 t (sizeOnly 1) = Some r
  /\ fixedLengthChunking 2 t (sizeOnly 1) = Some r
  /\ isPrefix (str "Text was divided into ") (notes (analysis r)) = true
  /\ forall limit' t' options' r',
       recursiveTry limit' t' options' = Some r' ->
       isPrefix (str "Text was recursively split into ") (notes (analysis r')) = true
       /\ notes (analysis r) <> notes (analysis r').
Proof.
  cbv zeta.
  assert (Hthrow : recursiveTry (Some 65536) (letters (Z.to_nat 65537)) (sizeOnly 1) = None)
    by (apply recursiveTry_beyond_limit; lia).
  assert (Hr : recursiveTextSplitter (Some 65536) 2 (letters (Z.to_nat 65537)) (sizeOnly 1)
               = Some (mkResult [mkChunk 0 (letters (Z.to_nat 65537)) 1
                                   (len (letters (Z.to_nat 65537)))]
                         (analyse [mkChunk 0 (letters (Z.to_nat 65537)) 1
                                     (len (letters (Z.to_nat 65537)))]
                            (str "Text was divided into 1 chunks of approximately 1 tokens each.")))).
  { rewrite (recursive_catch _ 2 _ _ Hthrow). apply fixedLength_letters; lia. }
  split; [exact Hthrow|]. split; [exact Hr|].
  exact (recursive_fallback_is_distinguishable _ _ _ _ _ Hthrow Hr).
Defined.
